(** * SmartWatch3D: the world simulator of [Main.cpp], embedded and verified

    The C++ program keeps its simulation state in global variables and
    advances it once per frame ([updateClock], [updateHeartRate],
    [updateBattery], [updateRunning]), then dispatches pointer clicks in
    [renderWatchScreen].  Here every group of globals is a record and every
    function that writes them is a function on that record; calls into
    OpenGL and GLFW that only draw are left out.

    Number model.  [int] variables are [Z]: the clock fields, the battery
    level and the screen index stay within a few hundred, and for the
    indices of [createDigitTexture] see [digit_texture_ints_fit].  [float]
    and [double] variables are exact rationals ([Q]): sums, products and
    comparisons are the mathematical ones and rounding is not modelled;
    equality of rationals is [Qeq], written [==].  Module [F32] repeats
    [updateHeartRate] in binary32 arithmetic, to replay concrete runs with
    the rounding of the machine. *)

From Stdlib Require Import ZArith QArith Qround Qabs Qpower Lia Lqa.
From Stdlib Require Import List Bool Ascii String.
From Stdlib Require Import SpecFloat.
Import ListNotations.

Local Open Scope Z_scope.

(** ** Comparisons on [float]/[double] as boolean tests *)

Definition Qgeb (a b : Q) : bool := Qle_bool b a.        (* a >= b *)
Definition Qgtb (a b : Q) : bool := negb (Qle_bool a b). (* a >  b *)
Definition Qltb (a b : Q) : bool := negb (Qle_bool b a). (* a <  b *)
Definition Qleb (a b : Q) : bool := Qle_bool a b.        (* a <= b *)

(** [std::min(a, b)] is [(b < a) ? b : a]; [std::max(a, b)] is
    [(a < b) ? b : a]. *)
Definition std_min (a b : Q) : Q := if Qltb b a then b else a.
Definition std_max (a b : Q) : Q := if Qltb a b then b else a.

(** ** IEEE 754 rounding

    [round prec emin x] is the number with [prec] binary digits, and an
    exponent of the last digit of at least [emin], that is nearest to [x],
    the one with an even last digit of two that are equally near: the
    result of a [float] ([binary32]) or [double] ([binary64]) operation
    whose exact result is [x].  Overflow to infinity is not modelled. *)

Module IEEE.

(** The binade of a positive [x]: the [E] with [2^E <= x < 2^(E+1)]. *)
Definition binade (x : Q) : Z :=
  let L := Z.log2 (Qnum x) - Z.log2 (Z.pos (Qden x)) in
  if Qle_bool (2 ^ L) x then L else L - 1.

(** The nearest integer, the even one of two that are equally near. *)
Definition rne (s : Q) : Z :=
  let f := Qfloor s in
  match (s - inject_Z f ?= 1 # 2)%Q with
  | Lt => f
  | Gt => f + 1
  | Eq => if Z.even f then f else f + 1
  end.

(** The exponent of the last binary digit kept for [x]. *)
Definition exponent (prec emin : Z) (x : Q) : Z :=
  Z.max (binade (Qabs x) - (prec - 1)) emin.

Definition round (prec emin : Z) (x : Q) : Q :=
  let e := exponent prec emin x in
  (inject_Z (rne (x / 2 ^ e)) * 2 ^ e)%Q.

Definition binary32 : Q -> Q := round 24 (-149).
Definition binary64 : Q -> Q := round 53 (-1074).

(** The number a finite [spec_float] stands for. *)
Definition value (f : spec_float) : Q :=
  match f with
  | S754_finite s m e =>
      ((if s then - (1) else 1) * inject_Z (Z.pos m) * 2 ^ e)%Q
  | _ => 0%Q
  end.

End IEEE.

(** ** Clock: [hours], [minutes], [seconds], [lastSecondTime] *)

Module Clock.

Record t : Type := mk {
  hours : Z;
  minutes : Z;
  seconds : Z;
  lastSecondTime : Q
}.

(** [updateClock(currentTime)]: one tick when at least a second has passed
    since the last tick, with the carry chain of the nested [if]s. *)
Definition updateClock (currentTime : Q) (c : t) : t :=
  if Qgeb (currentTime - lastSecondTime c) 1 then
    let seconds1 := seconds c + 1 in
    if seconds1 >=? 60 then
      let minutes1 := minutes c + 1 in
      if minutes1 >=? 60 then
        let hours1 := hours c + 1 in
        if hours1 >=? 24 then mk 0 0 0 currentTime
        else mk hours1 0 0 currentTime
      else mk (hours c) minutes1 0 currentTime
    else mk (hours c) (minutes c) seconds1 currentTime
  else c.

(** The states visited by successive calls, one per element of [ts]. *)
Fixpoint trace (ts : list Q) (c : t) : list t :=
  match ts with
  | [] => []
  | currentTime :: ts' =>
      let c' := updateClock currentTime c in c' :: trace ts' c'
  end.

Definition in_range (c : t) : Prop :=
  0 <= hours c <= 23 /\ 0 <= minutes c <= 59 /\ 0 <= seconds c <= 59.


(** One tick with its carries: seconds overflow at 60 into minutes, minutes
    overflow at 60 into hours, hours wrap at 24. *)
Definition cascaded (c c' : t) : Prop :=
  seconds c' = (seconds c + 1) mod 60 /\
  minutes c' = (if seconds c =? 59 then (minutes c + 1) mod 60 else minutes c) /\
  hours c' = (if (seconds c =? 59) && (minutes c =? 59)
              then (hours c + 1) mod 24 else hours c).

(** What one call does to the fields, as a relation between the state
    before and the state after. *)
Definition step_ok (currentTime : Q) (c c' : t) : Prop :=
  in_range c' /\
  ((1 <= currentTime - lastSecondTime c)%Q ->
     cascaded c c' /\ lastSecondTime c' = currentTime) /\
  ((currentTime - lastSecondTime c < 1)%Q -> c' = c).

(** [steps_ok c ts cs]: [cs] lists the states after each call and every
    call satisfies [step_ok]. *)
Fixpoint steps_ok (c : t) (ts : list Q) (cs : list t) : Prop :=
  match ts, cs with
  | [], [] => True
  | currentTime :: ts', c' :: cs' =>
      step_ok currentTime c c' /\ steps_ok c' ts' cs'
  | _, _ => False
  end.

(** The clock after all the calls. *)
Definition run (ts : list Q) (c : t) : t :=
  fold_left (fun c currentTime => updateClock currentTime c) ts c.

(** The number of calls that found a full second elapsed. *)
Fixpoint ticks (ts : list Q) (c : t) : Z :=
  match ts with
  | [] => 0
  | currentTime :: ts' =>
      (if Qgeb (currentTime - lastSecondTime c) 1 then 1 else 0)
      + ticks ts' (updateClock currentTime c)
  end.

(** Total real time covered by the calls, from the last tick before the
    first call to the last call. *)
Definition elapsed (c : t) (ts : list Q) : Q :=
  last ts (lastSecondTime c) - lastSecondTime c.

End Clock.

(** ** Battery: [batteryPercent], [lastBatteryDrain] *)

Module Battery.

Record t : Type := mk {
  batteryPercent : Z;
  lastBatteryDrain : Q
}.

(** [updateBattery(currentTime)] *)
Definition updateBattery (currentTime : Q) (b : t) : t :=
  if Qgeb (currentTime - lastBatteryDrain b) 10 && (batteryPercent b >? 0)
  then mk (batteryPercent b - 1) currentTime
  else b.

(** The battery after the calls [updateBattery(t)] for [t] in [ts], in
    order. *)
Definition run (ts : list Q) (b : t) : t :=
  fold_left (fun b currentTime => updateBattery currentTime b) ts b.

(** The states after each call. *)
Fixpoint trace (ts : list Q) (b : t) : list t :=
  match ts with
  | [] => []
  | currentTime :: ts' =>
      let b' := updateBattery currentTime b in b' :: trace ts' b'
  end.

(** What one call does: one unit less, and the drain timer restarted, when
    at least 10 s have passed since the timer was restarted and the level
    is positive; nothing otherwise. *)
Definition step_ok (currentTime : Q) (b b' : t) : Prop :=
  ((10 <= currentTime - lastBatteryDrain b)%Q /\ 0 < batteryPercent b ->
     batteryPercent b' = batteryPercent b - 1 /\
     lastBatteryDrain b' = currentTime) /\
  (~ ((10 <= currentTime - lastBatteryDrain b)%Q /\ 0 < batteryPercent b) ->
     b' = b).

Fixpoint steps_ok (b : t) (ts : list Q) (bs : list t) : Prop :=
  match ts, bs with
  | [], [] => True
  | currentTime :: ts', b' :: bs' =>
      step_ok currentTime b b' /\ steps_ok b' ts' bs'
  | _, _ => False
  end.

(** The level never rises along the list, starting from [p], and is never
    negative. *)
Fixpoint nonincreasing_nonneg (p : Z) (bs : list t) : Prop :=
  match bs with
  | [] => True
  | b :: bs' =>
      0 <= batteryPercent b <= p /\ nonincreasing_nonneg (batteryPercent b) bs'
  end.

(** Frame times at a fixed step [d] after [t0]: [t0 + d], [t0 + 2d], ...,
    [t0 + k d]. *)
Definition frame_times (t0 d : Q) (k : nat) : list Q :=
  map (fun i => (t0 + inject_Z (Z.of_nat i) * d)%Q) (seq 1 k).

(** Non-decreasing call times, none before [t0]. *)
Fixpoint nondecreasing (t0 : Q) (ts : list Q) : Prop :=
  match ts with
  | [] => True
  | t1 :: ts' => (t0 <= t1)%Q /\ nondecreasing t1 ts'
  end.

(** The reading "exactly one decrement per 10 s of elapsed time while the
    level is positive": over calls at non-decreasing times that leave the
    level positive, the number of decrements is the number of whole 10 s
    periods elapsed. *)
Definition one_decrement_per_10s : Prop :=
  forall (b : t) (ts : list Q),
    nondecreasing (lastBatteryDrain b) ts ->
    0 < batteryPercent (run ts b) ->
    batteryPercent b - batteryPercent (run ts b)
    = Qfloor ((last ts (lastBatteryDrain b) - lastBatteryDrain b) / 10).

End Battery.

(** ** The clock and the battery with the [double] subtraction rounded

    [updateClock] and [updateBattery] compare a difference of two
    [double]s with a constant; here the difference is rounded as the
    machine rounds it. *)

Module Clock64.

(** [currentTime - lastSecondTime], the [double] that the test compares
    with 1.0. *)
Definition gap (currentTime : Q) (c : Clock.t) : Q :=
  IEEE.binary64 (currentTime - Clock.lastSecondTime c).

(** [updateClock(currentTime)] *)
Definition updateClock (currentTime : Q) (c : Clock.t) : Clock.t :=
  if Qgeb (gap currentTime c) 1 then
    let seconds1 := Clock.seconds c + 1 in
    if seconds1 >=? 60 then
      let minutes1 := Clock.minutes c + 1 in
      if minutes1 >=? 60 then
        let hours1 := Clock.hours c + 1 in
        if hours1 >=? 24 then Clock.mk 0 0 0 currentTime
        else Clock.mk hours1 0 0 currentTime
      else Clock.mk (Clock.hours c) minutes1 0 currentTime
    else Clock.mk (Clock.hours c) (Clock.minutes c) seconds1 currentTime
  else c.

Definition run (ts : list Q) (c : Clock.t) : Clock.t :=
  fold_left (fun c currentTime => updateClock currentTime c) ts c.

(** The number of calls that ticked. *)
Fixpoint ticks (ts : list Q) (c : Clock.t) : Z :=
  match ts with
  | [] => 0
  | currentTime :: ts' =>
      (if Qgeb (gap currentTime c) 1 then 1 else 0)
      + ticks ts' (updateClock currentTime c)
  end.

(** The least real time between two ticks, 1 / (1 + 2^-53) s. *)
Definition period : Q := 9007199254740992 # 9007199254740993.

End Clock64.

Module Battery64.

(** [currentTime - lastBatteryDrain], the [double] that the test compares
    with 10.0. *)
Definition gap (currentTime : Q) (b : Battery.t) : Q :=
  IEEE.binary64 (currentTime - Battery.lastBatteryDrain b).

(** [updateBattery(currentTime)] *)
Definition updateBattery (currentTime : Q) (b : Battery.t) : Battery.t :=
  if Qgeb (gap currentTime b) 10 && (Battery.batteryPercent b >? 0)
  then Battery.mk (Battery.batteryPercent b - 1) currentTime
  else b.

Definition run (ts : list Q) (b : Battery.t) : Battery.t :=
  fold_left (fun b currentTime => updateBattery currentTime b) ts b.

Fixpoint trace (ts : list Q) (b : Battery.t) : list Battery.t :=
  match ts with
  | [] => []
  | currentTime :: ts' =>
      let b' := updateBattery currentTime b in b' :: trace ts' b'
  end.

(** The least real time between two drains, 10 / (1 + 2^-53) s: a shorter
    gap is below 10.0 after rounding as well. *)
Definition period : Q := 90071992547409920 # 9007199254740993.

(** What one call does: one unit less, and the drain timer restarted, when
    the rounded gap is at least 10.0 and the level is positive; nothing
    otherwise.  The rounded gap is at least 10.0 whenever 10 s have passed,
    and below 10.0 whenever less than [period] has. *)
Definition step_ok (currentTime : Q) (b b' : Battery.t) : Prop :=
  ((10 <= gap currentTime b)%Q /\ 0 < Battery.batteryPercent b ->
     Battery.batteryPercent b' = Battery.batteryPercent b - 1 /\
     Battery.lastBatteryDrain b' = currentTime) /\
  (~ ((10 <= gap currentTime b)%Q /\ 0 < Battery.batteryPercent b) ->
     b' = b) /\
  ((10 <= currentTime - Battery.lastBatteryDrain b)%Q ->
     (10 <= gap currentTime b)%Q) /\
  ((currentTime - Battery.lastBatteryDrain b < period)%Q ->
     (gap currentTime b < 10)%Q).

Fixpoint steps_ok (b : Battery.t) (ts : list Q) (bs : list Battery.t)
    : Prop :=
  match ts, bs with
  | [], [] => True
  | currentTime :: ts', b' :: bs' =>
      step_ok currentTime b b' /\ steps_ok b' ts' bs'
  | _, _ => False
  end.

End Battery64.

(** ** Heart rate: [bpm], [targetBpm], [ekgOffset], [ekgScale], [isRunning] *)

Module Heart.

Record t : Type := mk {
  bpm : Q;
  targetBpm : Q;
  ekgOffset : Q;
  ekgScale : Q;
  isRunning : bool
}.

(** The initial values of the globals. *)
Definition init : t := mk 70 70 0 1 false.

Definition set_isRunning (r : bool) (h : t) : t :=
  mk (bpm h) (targetBpm h) (ekgOffset h) (ekgScale h) r.

(** [updateHeartRate(deltaTime)].  [rnd] is the value [rand()] returns when
    the resting branch calls it. *)
Definition updateHeartRate (deltaTime : Q) (rnd : Z) (h : t) : t :=
  let targetBpm1 :=
    if isRunning h
    then std_min (targetBpm h + 30 * deltaTime) 220
    else std_max (targetBpm h - 20 * deltaTime)
                 (60 + inject_Z (Z.rem rnd 20)) in
  let bpm1 := (bpm h + (targetBpm1 - bpm h) * 2 * deltaTime)%Q in
  let speed := (bpm1 / 60)%Q in
  let ekgOffset1 := (ekgOffset h + speed * deltaTime * (1 # 2))%Q in
  let ekgOffset2 :=
    if Qgtb ekgOffset1 1 then (ekgOffset1 - 1)%Q else ekgOffset1 in
  let targetScale := (60 / bpm1)%Q in
  let ekgScale1 :=
    (ekgScale h + (targetScale - ekgScale h) * 2 * deltaTime)%Q in
  mk bpm1 targetBpm1 ekgOffset2 ekgScale1 (isRunning h).

(** One call as the frame loop makes it: [isRunning] is assigned first. *)
Record call : Type := mkcall {
  running : bool;
  deltaTime : Q;
  rnd : Z
}.

Definition step (c : call) (h : t) : t :=
  updateHeartRate (deltaTime c) (rnd c) (set_isRunning (running c) h).

(** The states after each call. *)
Fixpoint trace (cs : list call) (h : t) : list t :=
  match cs with
  | [] => []
  | c :: cs' => let h' := step c h in h' :: trace cs' h'
  end.

Definition run (cs : list call) (h : t) : t :=
  fold_left (fun h c => step c h) cs h.

(** What a call may receive: a nonnegative frame time and a value of
    [rand()], which is never negative. *)
Definition valid_call (c : call) : Prop :=
  (0 <= deltaTime c)%Q /\ 0 <= rnd c.

(** A frame of at most half a second. *)
Definition short_call (c : call) : Prop :=
  valid_call c /\ (deltaTime c <= 1 # 2)%Q.

(** The D key held for one frame of 1/60 s; [rand()] is not called. *)
Definition hold : call := mkcall true (1 # 60) 0.

(** A resting frame of [dt] seconds in which [rand() % 20] is [r]. *)
Definition rest (dt : Q) (r : Z) : call := mkcall false dt r.

(** [ekgOffset] is in the half-open interval from 0 to 1. *)
Definition ekg_in_unit (h : t) : Prop :=
  (0 <= ekgOffset h)%Q /\ (ekgOffset h < 1)%Q.

(** [ekgOffset] is in the closed interval from 0 to 1. *)
Definition ekg_in_closed_unit (h : t) : Prop :=
  (0 <= ekgOffset h)%Q /\ (ekgOffset h <= 1)%Q.

(** Both rates between the lowest resting target and the running cap, and
    the offset wrapped. *)
Definition bounded (h : t) : Prop :=
  ((60 <= targetBpm h)%Q /\ (targetBpm h <= 220)%Q) /\
  ((60 <= bpm h)%Q /\ (bpm h <= 220)%Q) /\
  ekg_in_closed_unit h.

(** [bpm] goes up at every state of the list, starting above [b]. *)
Fixpoint bpm_increasing (b : Q) (hs : list t) : Prop :=
  match hs with
  | [] => True
  | h :: hs' => (b < bpm h)%Q /\ bpm_increasing (bpm h) hs'
  end.

End Heart.

(** ** Running animation: [runTime], [groundOffset]

    [cameraBobOffset] is [sin(runTime) * 0.05f] while running and decays by
    the factor 0.9 otherwise; it is written by nothing else and read only
    by the camera, and is left out. *)

Definition GROUND_SEGMENT_LENGTH : Q := 20.
Definition NUM_GROUND_SEGMENTS : Z := 5.

Module Running.

Record t : Type := mk {
  runTime : Q;
  groundOffset : Q
}.

(** [updateRunning(deltaTime)], given [isRunning] and [currentScreen]. *)
Definition updateRunning (deltaTime : Q) (isRunning : bool)
    (currentScreen : Z) (r : t) : t :=
  if isRunning && (currentScreen =? 1) then
    let runTime1 := (runTime r + deltaTime * 8)%Q in
    let groundOffset1 := (groundOffset r + deltaTime * 8)%Q in
    if Qgtb groundOffset1 GROUND_SEGMENT_LENGTH
    then mk runTime1 (groundOffset1 - GROUND_SEGMENT_LENGTH)
    else mk runTime1 groundOffset1
  else r.

End Running.

(** ** Watch screen navigation and pointer input

    [currentScreen] (0 = clock, 1 = heart rate, 2 = battery), the camera
    toggle [watchViewMode] and the mouse state.  The draw functions are
    modelled by what they do to these globals: their drawing calls write
    the frame buffer only. *)

Module Nav.

Record t : Type := mk {
  currentScreen : Z;
  watchViewMode : bool;
  mouseX : Q;
  mouseY : Q;
  lastMouseX : Q;
  lastMouseY : Q;
  firstMouse : bool;
  mouseClicked : bool;
  cameraBasePitch : Q;
  screenWidth : Z;
  screenHeight : Z
}.

Definition set_currentScreen (s : Z) (u : t) : t :=
  mk s (watchViewMode u) (mouseX u) (mouseY u) (lastMouseX u) (lastMouseY u)
     (firstMouse u) (mouseClicked u) (cameraBasePitch u)
     (screenWidth u) (screenHeight u).

Definition set_mouseClicked (b : bool) (u : t) : t :=
  mk (currentScreen u) (watchViewMode u) (mouseX u) (mouseY u)
     (lastMouseX u) (lastMouseY u) (firstMouse u) b (cameraBasePitch u)
     (screenWidth u) (screenHeight u).

Definition set_watchViewMode (b : bool) (u : t) : t :=
  mk (currentScreen u) b (mouseX u) (mouseY u)
     (lastMouseX u) (lastMouseY u) (firstMouse u) (mouseClicked u)
     (cameraBasePitch u) (screenWidth u) (screenHeight u).

(** [isPointInRect(px, py, rx, ry, rw, rh)]: [rw], [rh] are half sizes. *)
Definition isPointInRect (px py rx ry rw rh : Q) : bool :=
  Qgeb px (rx - rw) && Qleb px (rx + rw) &&
  Qgeb py (ry - rh) && Qleb py (ry + rh).

(** The pointer in normalized device coordinates, as each draw function
    computes it. *)
Definition normMouseX (u : t) : Q :=
  (mouseX u / inject_Z (screenWidth u)) * 2 - 1.

Definition normMouseY (u : t) : Q :=
  - ((mouseY u / inject_Z (screenHeight u)) * 2 - 1).

Definition arrowSize : Q := 1 # 10.
Definition leftArrowX : Q := - (8 # 10).
Definition rightArrowX : Q := 8 # 10.

(** The pointer is on the right (left) arrow icon. *)
Definition inRightArrow (u : t) : bool :=
  isPointInRect (normMouseX u) (normMouseY u) rightArrowX 0 arrowSize arrowSize.

Definition inLeftArrow (u : t) : bool :=
  isPointInRect (normMouseX u) (normMouseY u) leftArrowX 0 arrowSize arrowSize.

Definition drawClockScreen (u : t) : t :=
  if watchViewMode u && mouseClicked u then
    if inRightArrow u then set_currentScreen 1 u else u
  else u.

(** Both tests run, the left one first. *)
Definition drawHeartRateScreen (u : t) : t :=
  if watchViewMode u && mouseClicked u then
    let u1 := if inLeftArrow u then set_currentScreen 0 u else u in
    if inRightArrow u then set_currentScreen 2 u1 else u1
  else u.

Definition drawBatteryScreen (u : t) : t :=
  if watchViewMode u && mouseClicked u then
    if inLeftArrow u then set_currentScreen 1 u else u
  else u.

(** [renderWatchScreen()]: the [switch] has no default case. *)
Definition renderWatchScreen (u : t) : t :=
  match currentScreen u with
  | 0 => drawClockScreen u
  | 1 => drawHeartRateScreen u
  | 2 => drawBatteryScreen u
  | _ => u
  end.

(** *** Callbacks, run by [glfwPollEvents] *)

Definition GLFW_MOUSE_BUTTON_LEFT : Z := 0.
Definition GLFW_PRESS : Z := 1.
Definition GLFW_KEY_SPACE : Z := 32.

Inductive event : Type :=
| MouseButton (button action : Z)
| CursorPos (xpos ypos : Q)
| Key (key action : Z).

Definition mouse_button_callback (button action : Z) (u : t) : t :=
  if (button =? GLFW_MOUSE_BUTTON_LEFT) && (action =? GLFW_PRESS)
  then set_mouseClicked true u else u.

(** [glm::clamp(x, lo, hi)] is [min(max(x, lo), hi)]. *)
Definition clamp (x lo hi : Q) : Q := std_min (std_max x lo) hi.

Definition cursor_position_callback (xpos ypos : Q) (u : t) : t :=
  let lastY := if firstMouse u then ypos else lastMouseY u in
  let yoffset := (lastY - ypos)%Q in
  let pitch :=
    if negb (watchViewMode u)
    then clamp (cameraBasePitch u + yoffset * (1 # 10)) (-45) 45
    else cameraBasePitch u in
  mk (currentScreen u) (watchViewMode u) xpos ypos xpos ypos false
     (mouseClicked u) pitch (screenWidth u) (screenHeight u).

(** Of the keys [key_callback] handles, SPACE toggles [watchViewMode]; ESC,
    F1 and F2 set the window-close flag and two render switches, which are
    not part of this state. *)
Definition key_callback (key action : Z) (u : t) : t :=
  if (key =? GLFW_KEY_SPACE) && (action =? GLFW_PRESS)
  then set_watchViewMode (negb (watchViewMode u)) u else u.

Definition dispatch (u : t) (e : event) : t :=
  match e with
  | MouseButton button action => mouse_button_callback button action u
  | CursorPos xpos ypos => cursor_position_callback xpos ypos u
  | Key key action => key_callback key action u
  end.

(** [glfwPollEvents()] with the events [es] pending, oldest first. *)
Definition pollEvents (es : list event) (u : t) : t :=
  fold_left dispatch es u.

Definition left_press : event := MouseButton GLFW_MOUSE_BUTTON_LEFT GLFW_PRESS.

(** A 1920 x 1080 screen showing screen [s] with the pointer at pixel
    ([mx], [my]). *)
Definition pointer_at (s : Z) (watchView clicked : bool) (mx my : Q) : t :=
  mk s watchView mx my mx my false clicked 0 1920 1080.

Definition is_left_press (e : event) : bool :=
  match e with
  | MouseButton button action =>
      (button =? GLFW_MOUSE_BUTTON_LEFT) && (action =? GLFW_PRESS)
  | _ => false
  end.

End Nav.

(** ** The frame loop of [main] *)

Definition TARGET_FRAME_TIME : Q := 1 / 75.

Module Loop.

Record world : Type := mk {
  clock : Clock.t;
  heart : Heart.t;
  battery : Battery.t;
  running : Running.t;
  ui : Nav.t;
  lastTime : Q
}.

(** What one iteration reads from outside: the timer when the iteration
    starts ([now]) and again after the frame limiter slept ([afterSleep],
    read only when the frame came early), whether D is held, the value of
    [rand()], and the events delivered by the poll that ends the
    iteration. *)
Record input : Type := mkinput {
  now : Q;
  afterSleep : Q;
  keyD : bool;
  rnd : Z;
  events : list Nav.event
}.

Definition with_ui (u : Nav.t) (w : world) : world :=
  mk (clock w) (heart w) (battery w) (running w) u (lastTime w).

(** The iteration up to and including [mouseClicked = false]. *)
Definition frame_body (i : input) (w : world) : world :=
  let currentTime :=
    if Qltb (now i - lastTime w) TARGET_FRAME_TIME
    then afterSleep i else now i in
  let deltaTime := (currentTime - lastTime w)%Q in
  let isRunning := keyD i && (Nav.currentScreen (ui w) =? 1) in
  let clock1 := Clock.updateClock currentTime (clock w) in
  let heart1 :=
    Heart.updateHeartRate deltaTime (rnd i)
      (Heart.set_isRunning isRunning (heart w)) in
  let battery1 := Battery.updateBattery currentTime (battery w) in
  let running1 :=
    Running.updateRunning deltaTime isRunning (Nav.currentScreen (ui w))
      (running w) in
  let ui1 := Nav.renderWatchScreen (ui w) in
  let ui2 := Nav.set_mouseClicked false ui1 in
  mk clock1 heart1 battery1 running1 ui2 currentTime.

(** One whole iteration: the body, then [glfwPollEvents()]. *)
Definition frame (i : input) (w : world) : world :=
  let w1 := frame_body i w in
  with_ui (Nav.pollEvents (events i) (ui w1)) w1.

Definition frames (ins : list input) (w : world) : world :=
  fold_left (fun w i => frame i w) ins w.

(** No left-button press arrives in the poll that ends the iteration. *)
Definition quiet (i : input) : Prop :=
  existsb Nav.is_left_press (events i) = false.

(** A world at start-up whose navigation state is [u]. *)
Definition start (u : Nav.t) : world :=
  mk (Clock.mk 12 0 0 0) Heart.init (Battery.mk 100 0) (Running.mk 0 0) u 0.

End Loop.

(** ** Building placement in [renderScene] *)

Module Scene.

Record vec3 : Type := mkvec3 { x : Q; y : Q; z : Q }.

Record Building : Type := mkBuilding {
  position : vec3;
  scale : vec3;
  color : vec3
}.

(** [NUM_GROUND_SEGMENTS * GROUND_SEGMENT_LENGTH] and
    [-NUM_GROUND_SEGMENTS * GROUND_SEGMENT_LENGTH] *)
Definition span : Q := inject_Z NUM_GROUND_SEGMENTS * GROUND_SEGMENT_LENGTH.
Definition far_edge : Q := inject_Z (- NUM_GROUND_SEGMENTS) * GROUND_SEGMENT_LENGTH.

(** [while (pos.z > 10.0f) pos.z -= span;]  [None]: the loop is still
    running when the fuel is spent. *)
Fixpoint wrap_back (fuel : nat) (pz : Q) : option Q :=
  if Qgtb pz 10 then
    match fuel with
    | O => None
    | S fuel' => wrap_back fuel' (pz - span)
    end
  else Some pz.

(** [while (pos.z < far_edge) pos.z += span;] *)
Fixpoint wrap_forward (fuel : nat) (pz : Q) : option Q :=
  if Qltb pz far_edge then
    match fuel with
    | O => None
    | S fuel' => wrap_forward fuel' (pz + span)
    end
  else Some pz.

(** [pos.z] of a building after [pos.z += groundOffset] and the two
    loops. *)
Definition effectiveZ (fuel : nat) (groundOffset : Q) (b : Building)
    : option Q :=
  match wrap_back fuel (z (position b) + groundOffset) with
  | Some pz => wrap_forward fuel pz
  | None => None
  end.

(** The translation [renderScene] gives each building of the list. *)
Definition place (fuel : nat) (groundOffset : Q) (b : Building)
    : option vec3 :=
  match effectiveZ fuel groundOffset b with
  | Some pz => Some (mkvec3 (x (position b)) (y (scale b) / 2) pz)
  | None => None
  end.


End Scene.

(** ** Building placement in [float] arithmetic

    The two loops of [renderScene] once more, with the sum and every step
    of 100 rounded to binary32. *)

Module Scene32.

(** [while (pos.z > 10.0f) pos.z -= span;] *)
Fixpoint wrap_back (fuel : nat) (pz : Q) : option Q :=
  if Qgtb pz 10 then
    match fuel with
    | O => None
    | S fuel' => wrap_back fuel' (IEEE.binary32 (pz - Scene.span))
    end
  else Some pz.

(** [while (pos.z < far_edge) pos.z += span;] *)
Fixpoint wrap_forward (fuel : nat) (pz : Q) : option Q :=
  if Qltb pz Scene.far_edge then
    match fuel with
    | O => None
    | S fuel' => wrap_forward fuel' (IEEE.binary32 (pz + Scene.span))
    end
  else Some pz.

(** [pos.z] after [pos.z += groundOffset]. *)
Definition start (groundOffset : Q) (b : Scene.Building) : Q :=
  IEEE.binary32 (Scene.z (Scene.position b) + groundOffset).

(** [pos.z] after the two loops. *)
Definition effectiveZ (fuel : nat) (groundOffset : Q) (b : Scene.Building)
    : option Q :=
  match wrap_back fuel (start groundOffset b) with
  | Some pz => wrap_forward fuel pz
  | None => None
  end.


End Scene32.

(** ** [createDigitTexture]

    The pixel buffer is a list of bytes.  A store outside the allocated
    array has no defined result: [store] returns [None] there, and so does
    every computation that contains such a store. *)

Module Digits.

Definition buffer : Type := list Z.

Fixpoint upd (i : nat) (v : Z) (data : buffer) : buffer :=
  match data, i with
  | [], _ => []
  | _ :: data', O => v :: data'
  | a :: data', S i' => a :: upd i' v data'
  end.

(** [data[idx] = v] *)
Definition store (idx v : Z) (data : buffer) : option buffer :=
  if (0 <=? idx) && (idx <? Z.of_nat (List.length data))
  then Some (upd (Z.to_nat idx) v data)
  else None.

Definition bind (m : option buffer) (k : buffer -> option buffer)
    : option buffer :=
  match m with
  | Some data => k data
  | None => None
  end.

Notation "m >>= k" := (bind m k) (at level 50, left associativity).

(** [n] iterations of [body], the counter starting at [i] and advancing by
    [step]. *)
Fixpoint iterate (n : nat) (i step : Z)
    (body : Z -> buffer -> option buffer) (data : buffer) : option buffer :=
  match n with
  | O => Some data
  | S n' => body i data >>= iterate n' (i + step) step body
  end.

(** [for (int i = lo; i < hi; i += step) body(i);] for [step > 0] *)
Definition for_step (lo hi step : Z)
    (body : Z -> buffer -> option buffer) : buffer -> option buffer :=
  iterate (Z.to_nat ((hi - lo + step - 1) / step)) lo step body.

(** [for (int i = lo; i < hi; i++) body(i);] *)
Definition for_range (lo hi : Z)
    (body : Z -> buffer -> option buffer) : buffer -> option buffer :=
  for_step lo hi 1 body.

(** [data] has the [n] bytes that were allocated. *)
Definition sized (n : Z) (data : buffer) : Prop :=
  Z.of_nat (List.length data) = n.

(** [f] makes no store outside an [n]-byte buffer, and leaves an [n]-byte
    buffer. *)
Definition in_bounds (n : Z) (f : buffer -> option buffer) : Prop :=
  forall data, sized n data ->
    exists data', f data = Some data' /\ sized n data'.

Definition INT_MAX : Z := 2147483647.

Definition charWidth : Z := 30.
Definition charHeight : Z := 50.

(** [strlen]: the characters before the first NUL. *)
Fixpoint strlen (s : string) : Z :=
  match s with
  | EmptyString => 0
  | String c s' =>
      if Ascii.eqb c Ascii.zero then 0 else 1 + strlen s'
  end.

(** [digitStr[i]] as a character code. *)
Definition char_at (s : string) (i : Z) : Z :=
  match String.get (Z.to_nat i) s with
  | Some c => Z.of_nat (nat_of_ascii c)
  | None => 0
  end.

(** The lambda [setPixel] for a [width] x [height] texture. *)
Definition setPixel (width height x y r g b : Z) (data : buffer)
    : option buffer :=
  if (x >=? 0) && (x <? width) && (y >=? 0) && (y <? height) then
    let idx := (y * width + x) * 4 in
    store idx r data >>= store (idx + 1) g >>= store (idx + 2) b
      >>= store (idx + 3) 255
  else Some data.

Definition segments : list (list bool) :=
  [ [true; true; true; false; true; true; true];
    [false; false; true; false; false; true; false];
    [true; false; true; true; true; false; true];
    [true; false; true; true; false; true; true];
    [false; true; true; true; false; true; false];
    [true; true; false; true; false; true; true];
    [true; true; false; true; true; true; true];
    [true; false; true; false; false; true; false];
    [true; true; true; true; true; true; true];
    [true; true; true; true; false; true; true];
    [false; false; false; false; false; false; false];
    [false; false; false; false; false; false; false] ].

(** [segments[digit][s]] *)
Definition segment_on (digit s : Z) : bool :=
  nth (Z.to_nat s) (nth (Z.to_nat digit) segments []) false.

Section Texture.

Variables width height : Z.

(** [setPixel(x, y, 200, 230, 255)], the only colour drawn. *)
Definition px (x y : Z) : buffer -> option buffer :=
  setPixel width height x y 200 230 255.

(** The lambda [drawSegment] *)
Definition drawSegment (offsetX seg : Z) : buffer -> option buffer :=
  let thick := 4 in
  let margin := 3 in
  let segW := charWidth - 2 * margin in
  match seg with
  | 0 =>
      for_range 0 thick (fun t =>
        for_range margin (margin + segW) (fun x =>
          px (offsetX + x) (height - margin - t)))
  | 1 =>
      for_range 0 thick (fun t =>
        for_range (height / 2 + margin / 2) (height - margin) (fun y =>
          px (offsetX + margin + t) y))
  | 2 =>
      for_range 0 thick (fun t =>
        for_range (height / 2 + margin / 2) (height - margin) (fun y =>
          px (offsetX + charWidth - margin - t) y))
  | 3 =>
      for_range 0 thick (fun t =>
        for_range margin (margin + segW) (fun x =>
          px (offsetX + x) (height / 2 + t - thick / 2)))
  | 4 =>
      for_range 0 thick (fun t =>
        for_range margin (height / 2 - margin / 2) (fun y =>
          px (offsetX + margin + t) y))
  | 5 =>
      for_range 0 thick (fun t =>
        for_range margin (height / 2 - margin / 2) (fun y =>
          px (offsetX + charWidth - margin - t) y))
  | 6 =>
      for_range 0 thick (fun t =>
        for_range margin (margin + segW) (fun x =>
          px (offsetX + x) (margin + t)))
  | _ => fun data => Some data
  end.

(** The lambda [drawColon] *)
Definition drawColon (offsetX : Z) : buffer -> option buffer :=
  let dotSize := 4 in
  let cx := offsetX + charWidth / 2 in
  for_range (- dotSize / 2) (dotSize / 2 + 1) (fun dy =>
    for_range (- dotSize / 2) (dotSize / 2 + 1) (fun dx => fun data =>
      px (cx + dx) (height * 3 / 4 + dy) data
        >>= px (cx + dx) (height * 1 / 4 + dy))).

(** The body of the loop over the characters. *)
Definition drawChar (digitStr : string) (i : Z) : buffer -> option buffer :=
  let c := char_at digitStr i in
  let offsetX := i * charWidth in
  if c =? 58 then drawColon offsetX
  else if (c >=? 48) && (c <=? 57) then
    let digit := c - 48 in
    for_range 0 7 (fun s =>
      if segment_on digit s then drawSegment offsetX s
      else fun data => Some data)
  else fun data => Some data.

End Texture.

(** [createDigitTexture(digitStr)] up to the texture upload: the pixel data
    handed to [glTexImage2D].  [new unsigned char[n]] gives [n] bytes of
    unspecified content, here all [fill]. *)
Definition createDigitTexture (fill : Z) (digitStr : string)
    : option buffer :=
  let len := strlen digitStr in
  let width := charWidth * len in
  let height := charHeight in
  let data := repeat fill (Z.to_nat (width * height * 4)) in
  for_step 0 (width * height * 4) 4 (fun i data =>
      store i 0 data >>= store (i + 1) 0 >>= store (i + 2) 0
        >>= store (i + 3) 0) data
    >>= for_range 0 len (drawChar width height digitStr).

End Digits.

(** ** [createDigitTexture] with 32-bit [int]s

    The same function with the [int] operations on the string length, the
    texture width, the character offset and the pixel index reduced to 32
    bits, as the two's-complement targets of the project compute them (the
    C++ standard leaves signed overflow undefined).  Loop counters stay
    below an [int] bound, and the row expressions are made of the
    constants 50, 4 and 3 and a counter below 7: neither can overflow. *)

Module Int32.

(** The [int] with the low 32 bits of [v]. *)
Definition wrap (v : Z) : Z := (v + 2147483648) mod 4294967296 - 2147483648.

Definition add (a b : Z) : Z := wrap (a + b).
Definition sub (a b : Z) : Z := wrap (a - b).
Definition mul (a b : Z) : Z := wrap (a * b).

End Int32.

Module Digits32.

Definition height : Z := Digits.charHeight.

(** The lambda [setPixel] *)
Definition setPixel (width x y r g b : Z) (data : Digits.buffer)
    : option Digits.buffer :=
  if (x >=? 0) && (x <? width) && (y >=? 0) && (y <? height) then
    let idx := Int32.mul (Int32.add (Int32.mul y width) x) 4 in
    Digits.bind (Digits.bind (Digits.bind (Digits.store idx r data)
      (Digits.store (Int32.add idx 1) g)) (Digits.store (Int32.add idx 2) b))
      (Digits.store (Int32.add idx 3) 255)
  else Some data.

Section Texture.

Variable width : Z.

Definition px (x y : Z) : Digits.buffer -> option Digits.buffer :=
  setPixel width x y 200 230 255.

(** The lambda [drawSegment] *)
Definition drawSegment (offsetX seg : Z)
    : Digits.buffer -> option Digits.buffer :=
  let thick := 4 in
  let margin := 3 in
  let segW := Digits.charWidth - 2 * margin in
  match seg with
  | 0 =>
      Digits.for_range 0 thick (fun t =>
        Digits.for_range margin (margin + segW) (fun x =>
          px (Int32.add offsetX x) (height - margin - t)))
  | 1 =>
      Digits.for_range 0 thick (fun t =>
        Digits.for_range (height / 2 + margin / 2) (height - margin) (fun y =>
          px (Int32.add (Int32.add offsetX margin) t) y))
  | 2 =>
      Digits.for_range 0 thick (fun t =>
        Digits.for_range (height / 2 + margin / 2) (height - margin) (fun y =>
          px (Int32.sub (Int32.sub (Int32.add offsetX Digits.charWidth)
                           margin) t) y))
  | 3 =>
      Digits.for_range 0 thick (fun t =>
        Digits.for_range margin (margin + segW) (fun x =>
          px (Int32.add offsetX x) (height / 2 + t - thick / 2)))
  | 4 =>
      Digits.for_range 0 thick (fun t =>
        Digits.for_range margin (height / 2 - margin / 2) (fun y =>
          px (Int32.add (Int32.add offsetX margin) t) y))
  | 5 =>
      Digits.for_range 0 thick (fun t =>
        Digits.for_range margin (height / 2 - margin / 2) (fun y =>
          px (Int32.sub (Int32.sub (Int32.add offsetX Digits.charWidth)
                           margin) t) y))
  | 6 =>
      Digits.for_range 0 thick (fun t =>
        Digits.for_range margin (margin + segW) (fun x =>
          px (Int32.add offsetX x) (margin + t)))
  | _ => fun data => Some data
  end.

(** The lambda [drawColon] *)
Definition drawColon (offsetX : Z) : Digits.buffer -> option Digits.buffer :=
  let dotSize := 4 in
  let cx := Int32.add offsetX (Digits.charWidth / 2) in
  Digits.for_range (- dotSize / 2) (dotSize / 2 + 1) (fun dy =>
    Digits.for_range (- dotSize / 2) (dotSize / 2 + 1) (fun dx => fun data =>
      Digits.bind (px (Int32.add cx dx) (height * 3 / 4 + dy) data)
        (px (Int32.add cx dx) (height * 1 / 4 + dy)))).

(** The body of the loop over the characters. *)
Definition drawChar (digitStr : string) (i : Z)
    : Digits.buffer -> option Digits.buffer :=
  let c := Digits.char_at digitStr i in
  let offsetX := Int32.mul i Digits.charWidth in
  if c =? 58 then drawColon offsetX
  else if (c >=? 48) && (c <=? 57) then
    let digit := c - 48 in
    Digits.for_range 0 7 (fun s =>
      if Digits.segment_on digit s then drawSegment offsetX s
      else fun data => Some data)
  else fun data => Some data.

End Texture.

(** [createDigitTexture(digitStr)] up to the texture upload. *)
Definition createDigitTexture (fill : Z) (digitStr : string)
    : option Digits.buffer :=
  let len := Int32.wrap (Digits.strlen digitStr) in
  let width := Int32.mul Digits.charWidth len in
  let size := Int32.mul (Int32.mul width height) 4 in
  let data := repeat fill (Z.to_nat size) in
  Digits.bind
    (Digits.for_step 0 size 4 (fun i data =>
       Digits.bind (Digits.bind (Digits.bind (Digits.store i 0 data)
         (Digits.store (i + 1) 0)) (Digits.store (i + 2) 0))
         (Digits.store (i + 3) 0)) data)
    (Digits.for_range 0 len (drawChar width digitStr)).

(** A string of [n] eights. *)
Fixpoint eights (n : nat) : string :=
  match n with
  | O => EmptyString
  | S n' => String "8" (eights n')
  end.

(** [f] makes a store outside an [n]-byte buffer, whatever the buffer
    holds. *)
Definition fails (n : Z) (f : Digits.buffer -> option Digits.buffer) : Prop :=
  forall data, Digits.sized n data -> f data = None.

(** The reading of the claim for every string: the texture is made, no
    store having left the buffer. *)
Definition never_writes_outside : Prop :=
  forall (fill : Z) (digitStr : string),
  exists data, createDigitTexture fill digitStr = Some data.

End Digits32.

(** ** The heart rate in binary32 arithmetic

    [updateHeartRate] once more, with every [float] operation rounded to
    binary32 (24-bit significand, round to nearest even) by the
    operations of [SpecFloat].  It serves to replay concrete runs of the
    rational model with the rounding of the machine. *)

Module F32.

Definition prec : Z := 24.
Definition emax : Z := 128.

(** The binary32 value nearest to [m * 2^e]. *)
Definition lit (m e : Z) : spec_float := binary_normalize prec emax m e false.

(** [int] to [float] *)
Definition of_int (n : Z) : spec_float := lit n 0.

Definition add : spec_float -> spec_float -> spec_float := SFadd prec emax.
Definition sub : spec_float -> spec_float -> spec_float := SFsub prec emax.
Definition mul : spec_float -> spec_float -> spec_float := SFmul prec emax.
Definition div : spec_float -> spec_float -> spec_float := SFdiv prec emax.
Definition ltb : spec_float -> spec_float -> bool := SFltb.

(** The [double] nearest to [p / q], and the cast [(float)d] of a
    [double]. *)
Definition double_ratio (p q : Z) : spec_float :=
  SFdiv 53 1024 (binary_normalize 53 1024 p 0 false)
                (binary_normalize 53 1024 q 0 false).

Definition of_double (d : spec_float) : spec_float := mul d (of_int 1).

Definition std_min (a b : spec_float) : spec_float := if ltb b a then b else a.
Definition std_max (a b : spec_float) : spec_float := if ltb a b then b else a.

Record t : Type := mk {
  bpm : spec_float;
  targetBpm : spec_float;
  ekgOffset : spec_float;
  ekgScale : spec_float;
  isRunning : bool
}.

Definition init (running : bool) : t :=
  mk (of_int 70) (of_int 70) (of_int 0) (of_int 1) running.

(** [updateHeartRate(deltaTime)], [deltaTime] a [double]. *)
Definition updateHeartRate (deltaTime : spec_float) (rnd : Z) (h : t) : t :=
  let dt := of_double deltaTime in
  let targetBpm1 :=
    if isRunning h
    then std_min (add (targetBpm h) (mul (of_int 30) dt)) (of_int 220)
    else std_max (sub (targetBpm h) (mul (of_int 20) dt))
                 (add (of_int 60) (of_int (Z.rem rnd 20))) in
  let bpm1 := add (bpm h) (mul (mul (sub targetBpm1 (bpm h)) (of_int 2)) dt) in
  let speed := div bpm1 (of_int 60) in
  let ekgOffset1 := add (ekgOffset h) (mul (mul speed dt) (lit 1 (-1))) in
  let ekgOffset2 :=
    if ltb (of_int 1) ekgOffset1 then sub ekgOffset1 (of_int 1)
    else ekgOffset1 in
  let targetScale := div (of_int 60) bpm1 in
  let ekgScale1 :=
    add (ekgScale h) (mul (mul (sub targetScale (ekgScale h)) (of_int 2)) dt) in
  mk bpm1 targetBpm1 ekgOffset2 ekgScale1 (isRunning h).

(** The states after each of [n] calls with the same arguments. *)
Fixpoint trace (n : nat) (deltaTime : spec_float) (rnd : Z) (h : t) : list t :=
  match n with
  | O => []
  | S n' =>
      let h' := updateHeartRate deltaTime rnd h in
      h' :: trace n' deltaTime rnd h'
  end.

(** [bpm] goes up at every state of the list, starting above [b]. *)
Fixpoint bpm_increasing (b : spec_float) (hs : list t) : bool :=
  match hs with
  | [] => true
  | h :: hs' => ltb b (bpm h) && bpm_increasing (bpm h) hs'
  end.

End F32.

(** ** What [drawHeartRateScreen] and the camera read from the state *)

(** The cast [(int)q] of a [float]: the fraction is dropped. *)
Definition int_of_float (q : Q) : Z :=
  if Qltb q 0 then Qceiling q else Qfloor q.

Module HeartScreen.

(** [numRepeats = 3.0f / ekgScale], the number of periods of the EKG
    texture across the graph. *)
Definition numRepeats (h : Heart.t) : Q := 3 / Heart.ekgScale h.

(** [(int)bpm], the number printed with ["%03d"]. *)
Definition bpmShown (h : Heart.t) : Z := int_of_float (Heart.bpm h).





End HeartScreen.

(** ** [updateRunning] with the camera bob

    [Running.updateRunning] with the third global it writes,
    [cameraBobOffset], and the two camera values [main] derives from it.
    [sin] is the library function; the model takes it as a parameter. *)

Module Camera.

Record t : Type := mk {
  runTime : Q;
  groundOffset : Q;
  cameraBobOffset : Q
}.

(** One call: the frame time and the two globals the function reads. *)
Record call : Type := mkcall {
  deltaTime : Q;
  isRunning : bool;
  currentScreen : Z
}.

Section WithSin.

Variable sin : Q -> Q.

(** [updateRunning(deltaTime)] *)
Definition updateRunning (c : call) (r : t) : t :=
  if isRunning c && (currentScreen c =? 1) then
    let runTime1 := (runTime r + deltaTime c * 8)%Q in
    let bob := (sin runTime1 * (5 # 100))%Q in
    let groundOffset1 := (groundOffset r + deltaTime c * 8)%Q in
    if Qgtb groundOffset1 GROUND_SEGMENT_LENGTH
    then mk runTime1 (groundOffset1 - GROUND_SEGMENT_LENGTH) bob
    else mk runTime1 groundOffset1 bob
  else mk (runTime r) (groundOffset r) (cameraBobOffset r * (9 # 10)).

(** The states after each call. *)
Fixpoint trace (cs : list call) (r : t) : list t :=
  match cs with
  | [] => []
  | c :: cs' => let r' := updateRunning c r in r' :: trace cs' r'
  end.

End WithSin.

(** The initial values of the globals. *)
Definition init : t := mk 0 0 0.



(** The part of the state that [Running] keeps. *)
Definition forget_bob (r : t) : Running.t :=
  Running.mk (runTime r) (groundOffset r).

(** A frame of at most 2.5 s, in which the ground scrolls by at most one
    segment. *)
Definition short_call (c : call) : Prop :=
  (0 <= deltaTime c)%Q /\ (deltaTime c <= 5 # 2)%Q.

(** The ground offset is within one segment. *)
Definition offset_in_segment (r : t) : Prop :=
  (0 <= groundOffset r)%Q /\ (groundOffset r <= GROUND_SEGMENT_LENGTH)%Q.



End Camera.

(** ** Key presses in a poll *)

Module Keys.

Definition is_space_press (e : Nav.event) : bool :=
  match e with
  | Nav.Key key action =>
      (key =? Nav.GLFW_KEY_SPACE) && (action =? Nav.GLFW_PRESS)
  | _ => false
  end.

(** Whether the events hold an odd number of SPACE presses. *)
Fixpoint odd_presses (es : list Nav.event) : bool :=
  match es with
  | [] => false
  | e :: es' => xorb (is_space_press e) (odd_presses es')
  end.

(** The base pitch is within the clamp. *)
Definition pitch_in_range (u : Nav.t) : Prop :=
  (- (45) <= Nav.cameraBasePitch u)%Q /\ (Nav.cameraBasePitch u <= 45)%Q.

End Keys.

(** ** The battery gauge of [drawBatteryScreen]

    The quads the function hands to [drawScreenQuad(shader, x, y, w, h,
    ...)]: centre [x], [y] and half sizes [w], [h], the same four numbers
    [isPointInRect] takes for an arrow. *)

Module Gauge.

Definition battW : Q := 3 # 10.
Definition battH : Q := 15 # 100.

(** [maxFillW = battW - 0.04f] *)
Definition maxFillW : Q := battW - (4 # 100).

(** [fillW = maxFillW * (batteryPercent / 100.0f)] *)
Definition fillW (batteryPercent : Z) : Q :=
  maxFillW * (inject_Z batteryPercent / 100).

(** [fillX = -(maxFillW - fillW)] *)
Definition fillX (batteryPercent : Z) : Q :=
  - (maxFillW - fillW batteryPercent).

(** The colour chosen by the two thresholds: red, amber or green. *)
Definition fillColor (batteryPercent : Z) : Q * Q * Q :=
  if batteryPercent <=? 10 then (1%Q, 2 # 10, 2 # 10)
  else if batteryPercent <=? 20 then (1%Q, 8 # 10, 0%Q)
  else (2 # 10, 9 # 10, 3 # 10).

Record quad : Type := mkquad {
  x : Q; y : Q; w : Q; h : Q;
  color : Q * Q * Q
}.

(** The dark inside of the outline, and the fill, drawn only above 0. *)
Definition inside : quad :=
  mkquad 0 0 (battW - (2 # 100)) (battH - (2 # 100))
         (1 # 10, 1 # 10, 15 # 100).

Definition fill (batteryPercent : Z) : option quad :=
  if batteryPercent >? 0
  then Some (mkquad (fillX batteryPercent) 0 (fillW batteryPercent)
                    (battH - (4 # 100)) (fillColor batteryPercent))
  else None.


End Gauge.

(** ** The ground strip and the buildings along it *)


Module Ground.

Definition len : Q := GROUND_SEGMENT_LENGTH.

(** [renderScene] draws segment [i] translated by
    [groundOffset - i * GROUND_SEGMENT_LENGTH] in [z]. *)
Definition shift (groundOffset : Q) (i : Z) : Q :=
  groundOffset - inject_Z i * GROUND_SEGMENT_LENGTH.

Definition far_edge (groundOffset : Q) (i : Z) : Q :=
  shift groundOffset i + - len.


End Ground.

Module Buildings.










End Buildings.

(** ** Reading pixels back

    Which bytes a drawing step can change, for the statements about where
    text and digits land. *)

Module Pixels.

Definition byte_at (data : Digits.buffer) (i : Z) : Z :=
  nth (Z.to_nat i) data 0.

(** The index of channel [k] of pixel ([x], [y]), as [setPixel] computes
    it. *)
Definition index (width x y k : Z) : Z := (y * width + x) * 4 + k.

(** [f] leaves every pixel of the texture outside the region [inside] as
    it was. *)
Definition touches_only (width height : Z) (inside : Z -> Z -> Prop)
    (f : Digits.buffer -> option Digits.buffer) : Prop :=
  forall data data', f data = Some data' ->
    forall x y k,
      0 <= x < width -> 0 <= y < height -> 0 <= k < 4 ->
      ~ inside x y ->
      byte_at data' (index width x y k) = byte_at data (index width x y k).

End Pixels.

(** ** The bitmap font of [createStudentInfoTexture] *)

Module Font.

Definition blank : list Z := [0; 0; 0; 0; 0; 0; 0].

(** [FONT_DATA[128][7]]: for each character code seven rows of five
    bits. *)
Definition FONT_DATA : list (list Z) :=
  repeat blank 47  (* 0-46 *)
  ++ [ [0x01; 0x01; 0x02; 0x04; 0x08; 0x10; 0x10];
       [0x0E; 0x11; 0x13; 0x15; 0x19; 0x11; 0x0E];
       [0x04; 0x0C; 0x04; 0x04; 0x04; 0x04; 0x0E];
       [0x0E; 0x11; 0x01; 0x02; 0x04; 0x08; 0x1F];
       [0x1F; 0x02; 0x04; 0x02; 0x01; 0x11; 0x0E];
       [0x02; 0x06; 0x0A; 0x12; 0x1F; 0x02; 0x02];
       [0x1F; 0x10; 0x1E; 0x01; 0x01; 0x11; 0x0E];
       [0x06; 0x08; 0x10; 0x1E; 0x11; 0x11; 0x0E];
       [0x1F; 0x01; 0x02; 0x04; 0x08; 0x08; 0x08];
       [0x0E; 0x11; 0x11; 0x0E; 0x11; 0x11; 0x0E];
       [0x0E; 0x11; 0x11; 0x0F; 0x01; 0x02; 0x0C] ]  (* 47-57 *)
  ++ repeat blank 7  (* 58-64 *)
  ++ [ [0x0E; 0x11; 0x11; 0x1F; 0x11; 0x11; 0x11];
       [0x1E; 0x11; 0x11; 0x1E; 0x11; 0x11; 0x1E];
       [0x0E; 0x11; 0x10; 0x10; 0x10; 0x11; 0x0E];
       [0x1C; 0x12; 0x11; 0x11; 0x11; 0x12; 0x1C];
       [0x1F; 0x10; 0x10; 0x1E; 0x10; 0x10; 0x1F];
       [0x1F; 0x10; 0x10; 0x1E; 0x10; 0x10; 0x10];
       [0x0E; 0x11; 0x10; 0x17; 0x11; 0x11; 0x0F];
       [0x11; 0x11; 0x11; 0x1F; 0x11; 0x11; 0x11];
       [0x0E; 0x04; 0x04; 0x04; 0x04; 0x04; 0x0E];
       [0x07; 0x02; 0x02; 0x02; 0x02; 0x12; 0x0C];
       [0x11; 0x12; 0x14; 0x18; 0x14; 0x12; 0x11];
       [0x10; 0x10; 0x10; 0x10; 0x10; 0x10; 0x1F];
       [0x11; 0x1B; 0x15; 0x15; 0x11; 0x11; 0x11];
       [0x11; 0x11; 0x19; 0x15; 0x13; 0x11; 0x11];
       [0x0E; 0x11; 0x11; 0x11; 0x11; 0x11; 0x0E];
       [0x1E; 0x11; 0x11; 0x1E; 0x10; 0x10; 0x10];
       [0x0E; 0x11; 0x11; 0x11; 0x15; 0x12; 0x0D];
       [0x1E; 0x11; 0x11; 0x1E; 0x14; 0x12; 0x11];
       [0x0F; 0x10; 0x10; 0x0E; 0x01; 0x01; 0x1E];
       [0x1F; 0x04; 0x04; 0x04; 0x04; 0x04; 0x04];
       [0x11; 0x11; 0x11; 0x11; 0x11; 0x11; 0x0E];
       [0x11; 0x11; 0x11; 0x11; 0x11; 0x0A; 0x04];
       [0x11; 0x11; 0x11; 0x15; 0x15; 0x15; 0x0A];
       [0x11; 0x11; 0x0A; 0x04; 0x0A; 0x11; 0x11];
       [0x11; 0x11; 0x11; 0x0A; 0x04; 0x04; 0x04];
       [0x1F; 0x01; 0x02; 0x04; 0x08; 0x10; 0x1F] ]  (* 65-90 *)
  ++ repeat blank 6  (* 91-96 *)
  ++ [ [0x00; 0x00; 0x0E; 0x01; 0x0F; 0x11; 0x0F];
       [0x10; 0x10; 0x16; 0x19; 0x11; 0x11; 0x1E];
       [0x00; 0x00; 0x0E; 0x10; 0x10; 0x11; 0x0E];
       [0x01; 0x01; 0x0D; 0x13; 0x11; 0x11; 0x0F];
       [0x00; 0x00; 0x0E; 0x11; 0x1F; 0x10; 0x0E];
       [0x06; 0x09; 0x08; 0x1C; 0x08; 0x08; 0x08];
       [0x00; 0x00; 0x0F; 0x11; 0x0F; 0x01; 0x0E];
       [0x10; 0x10; 0x16; 0x19; 0x11; 0x11; 0x11];
       [0x04; 0x00; 0x0C; 0x04; 0x04; 0x04; 0x0E];
       [0x02; 0x00; 0x06; 0x02; 0x02; 0x12; 0x0C];
       [0x10; 0x10; 0x12; 0x14; 0x18; 0x14; 0x12];
       [0x0C; 0x04; 0x04; 0x04; 0x04; 0x04; 0x0E];
       [0x00; 0x00; 0x1A; 0x15; 0x15; 0x11; 0x11];
       [0x00; 0x00; 0x16; 0x19; 0x11; 0x11; 0x11];
       [0x00; 0x00; 0x0E; 0x11; 0x11; 0x11; 0x0E];
       [0x00; 0x00; 0x1E; 0x11; 0x1E; 0x10; 0x10];
       [0x00; 0x00; 0x0D; 0x13; 0x0F; 0x01; 0x01];
       [0x00; 0x00; 0x16; 0x19; 0x10; 0x10; 0x10];
       [0x00; 0x00; 0x0E; 0x10; 0x0E; 0x01; 0x1E];
       [0x08; 0x08; 0x1C; 0x08; 0x08; 0x09; 0x06];
       [0x00; 0x00; 0x11; 0x11; 0x11; 0x13; 0x0D];
       [0x00; 0x00; 0x11; 0x11; 0x11; 0x0A; 0x04];
       [0x00; 0x00; 0x11; 0x11; 0x15; 0x15; 0x0A];
       [0x00; 0x00; 0x11; 0x0A; 0x04; 0x0A; 0x11];
       [0x00; 0x00; 0x11; 0x11; 0x0F; 0x01; 0x0E];
       [0x00; 0x00; 0x1F; 0x02; 0x04; 0x08; 0x1F] ]  (* 97-122 *)
  ++ repeat blank 5  (* 123-127 *).

(** [FONT_DATA[idx][row]] *)
Definition font_row (idx row : Z) : Z :=
  nth (Z.to_nat row) (nth (Z.to_nat idx) FONT_DATA []) 0.

(** [(unsigned char)c] *)
Definition code (c : ascii) : Z := Z.of_nat (nat_of_ascii c).

Section Texture.

Variables width height : Z.

(** The lambda [drawChar], for what it draws; it returns [6 * scale]. *)
Definition drawChar (c : ascii) (startX startY scale r g b : Z)
    : Digits.buffer -> option Digits.buffer :=
  let idx := code c in
  if idx >=? 128 then fun data => Some data
  else
    Digits.for_range 0 7 (fun row =>
      let rowData := font_row idx row in
      Digits.for_range 0 5 (fun col =>
        if negb (Z.land rowData (Z.shiftr 0x10 col) =? 0) then
          Digits.for_range 0 scale (fun sy =>
            Digits.for_range 0 scale (fun sx =>
              Digits.setPixel width height
                (startX + col * scale + sx) (startY - row * scale - sy)
                r g b))
        else fun data => Some data)).

Definition advance (scale : Z) : Z := 6 * scale.

(** The lambda [drawString]: the characters up to the first NUL, each
    [advance scale] to the right of the one before. *)
Fixpoint drawString (str : string) (x startY scale r g b : Z)
    : Digits.buffer -> option Digits.buffer :=
  match str with
  | EmptyString => fun data => Some data
  | String c str' =>
      if Ascii.eqb c Ascii.zero then fun data => Some data
      else fun data =>
        Digits.bind (drawChar c x startY scale r g b data)
          (drawString str' (x + advance scale) startY scale r g b)
  end.

End Texture.

(** [createStudentInfoTexture()] up to the texture upload. *)
Definition createStudentInfoTexture (fill : Z) : option Digits.buffer :=
  let width := 256 in
  let height := 64 in
  let data := repeat fill (Z.to_nat (width * height * 4)) in
  let scale := 2 in
  Digits.bind
    (Digits.bind
       (Digits.for_step 0 (width * height * 4) 4 (fun i data =>
          Digits.bind (Digits.bind (Digits.bind (Digits.store i 30 data)
            (Digits.store (i + 1) 30)) (Digits.store (i + 2) 50))
            (Digits.store (i + 3) 180)) data)
       (drawString width height "Nikola Bandulaja" 10 50 scale 255 255 255))
    (drawString width height "SV74/2022" 55 22 scale 200 200 220).

(** The box of one character drawn at ([startX], [startY]): five columns
    and seven rows of [scale] pixels, going down from [startY]. *)
Definition cell (startX startY scale : Z) (x y : Z) : Prop :=
  startX <= x < startX + 5 * scale /\ startY - 7 * scale < y <= startY.

(** The box of a line of [n] characters. *)
Definition line_box (startX startY scale n : Z) (x y : Z) : Prop :=
  startX <= x < startX + advance scale * n /\
  startY - 7 * scale < y <= startY.

End Font.

(** ** The other generated textures

    [createArrowTexture], [createHeartTexture], [createGroundTexture],
    [createRoadTexture] and [createBuildingTexture] up to the texture
    upload.  The last four store into [data] without a bounds check. *)

Module Textures.

(** An [int] stored into an [unsigned char]. *)
Definition uchar (v : Z) : Z := v mod 256.

(** [createArrowTexture(pointRight)]; its [setPixel] is the one of the
    digit texture with the colour fixed to white. *)
Definition createArrowTexture (fill : Z) (pointRight : bool)
    : option Digits.buffer :=
  let size := 64 in
  let data := repeat fill (Z.to_nat (size * size * 4)) in
  let setPixel x y := Digits.setPixel size size x y 255 255 255 in
  let cy := size / 2 in
  Digits.bind
    (Digits.for_step 0 (size * size * 4) 4 (fun i data =>
       Digits.bind (Digits.bind (Digits.bind (Digits.store i 0 data)
         (Digits.store (i + 1) 0)) (Digits.store (i + 2) 0))
         (Digits.store (i + 3) 0)) data)
    (Digits.for_range (-3) (3 + 1) (fun thickness data =>
       Digits.bind
         (Digits.for_range 15 50 (fun x => setPixel x (cy + thickness)) data)
         (Digits.for_range 0 15 (fun i data =>
            if pointRight then
              Digits.bind (setPixel (49 - i) (cy - i + thickness) data)
                (setPixel (49 - i) (cy + i + thickness))
            else
              Digits.bind (setPixel (15 + i) (cy - i + thickness) data)
                (setPixel (15 + i) (cy + i + thickness)))))).

(** [createHeartTexture()].  [negative x y] stands for the test
    [val < 0] on the [float] computed for pixel ([x], [y]); which pixels
    pass it is left open. *)
Definition createHeartTexture (negative : Z -> Z -> bool) (fill : Z)
    : option Digits.buffer :=
  let size := 32 in
  let data := repeat fill (Z.to_nat (size * size * 4)) in
  Digits.bind
    (Digits.for_step 0 (size * size * 4) 4 (fun i data =>
       Digits.bind (Digits.bind (Digits.bind (Digits.store i 0 data)
         (Digits.store (i + 1) 0)) (Digits.store (i + 2) 0))
         (Digits.store (i + 3) 0)) data)
    (Digits.for_range 0 size (fun y =>
       Digits.for_range 0 size (fun x data =>
         if negative x y then
           let idx := (y * size + x) * 4 in
           Digits.bind (Digits.bind (Digits.bind (Digits.store idx 255 data)
             (Digits.store (idx + 1) 50)) (Digits.store (idx + 2) 80))
             (Digits.store (idx + 3) 255)
         else Some data))).

(** The three bytes of a ground texel, from its two [rand()] values. *)
Definition groundTexel (r1 r2 : Z) : Z * Z * Z :=
  let base := 60 + Z.rem r1 30 in
  (uchar base, uchar (base + 20 + Z.rem r2 20), uchar (base - 20)).

(** [createGroundTexture()]; [rand x y] gives the two values [rand()]
    returns for pixel ([x], [y]). *)
Definition createGroundTexture (rand : Z -> Z -> Z * Z) (fill : Z)
    : option Digits.buffer :=
  let size := 256 in
  let data := repeat fill (Z.to_nat (size * size * 3)) in
  Digits.for_range 0 size (fun y =>
    Digits.for_range 0 size (fun x data =>
      let idx := (y * size + x) * 3 in
      let '(r, g, b) := groundTexel (fst (rand x y)) (snd (rand x y)) in
      Digits.bind (Digits.bind (Digits.store idx r data)
        (Digits.store (idx + 1) g)) (Digits.store (idx + 2) b))) data.

(** The grey level of a road texel. *)
Definition roadTexel (r1 : Z) : Z := uchar (50 + Z.rem r1 15).

(** [createRoadTexture()]; [rand x y] is the value [rand()] returns for
    pixel ([x], [y]). *)
Definition createRoadTexture (rand : Z -> Z -> Z) (fill : Z)
    : option Digits.buffer :=
  let width := 256 in
  let height := 256 in
  let data := repeat fill (Z.to_nat (width * height * 3)) in
  Digits.bind
    (Digits.for_range 0 height (fun y =>
       Digits.for_range 0 width (fun x data =>
         let idx := (y * width + x) * 3 in
         let base := roadTexel (rand x y) in
         Digits.bind (Digits.bind (Digits.store idx base data)
           (Digits.store (idx + 1) base)) (Digits.store (idx + 2) base)))
       data)
    (Digits.for_range 0 height (fun y =>
       Digits.for_range (width / 2 - 4) (width / 2 + 4) (fun x data =>
         if Z.rem (Z.quot y 32) 2 =? 0 then
           let idx := (y * width + x) * 3 in
           Digits.bind (Digits.bind (Digits.store idx 255 data)
             (Digits.store (idx + 1) 255)) (Digits.store (idx + 2) 200)
         else Some data))).

(** [createBuildingTexture()] *)
Definition createBuildingTexture (fill : Z) : option Digits.buffer :=
  let size := 128 in
  let data := repeat fill (Z.to_nat (size * size * 3)) in
  Digits.bind
    (Digits.for_range 0 size (fun y =>
       Digits.for_range 0 size (fun x data =>
         let idx := (y * size + x) * 3 in
         Digits.bind (Digits.bind (Digits.store idx 120 data)
           (Digits.store (idx + 1) 110)) (Digits.store (idx + 2) 100)))
       data)
    (Digits.for_range 0 4 (fun wy =>
       Digits.for_range 0 4 (fun wx =>
         let startX := 8 + wx * 30 in
         let startY := 8 + wy * 30 in
         Digits.for_range 0 20 (fun dy =>
           Digits.for_range 0 18 (fun dx data =>
             let idx := ((startY + dy) * size + (startX + dx)) * 3 in
             if idx <? size * size * 3 then
               Digits.bind (Digits.bind (Digits.store idx 180 data)
                 (Digits.store (idx + 1) 200)) (Digits.store (idx + 2) 220)
             else Some data))))).

(** The values [rand()] can return. *)
Definition rand_value (r : Z) : Prop := 0 <= r.

End Textures.

(** * Properties *)

(** ** Boolean comparisons against their propositions *)

Lemma Qgeb_spec a b : Qgeb a b = true <-> (b <= a)%Q.
Proof. unfold Qgeb. apply Qle_bool_iff. Qed.

Lemma Qleb_spec a b : Qleb a b = true <-> (a <= b)%Q.
Proof. unfold Qleb. apply Qle_bool_iff. Qed.

Lemma Qgtb_spec a b : Qgtb a b = true <-> (b < a)%Q.
Proof.
  unfold Qgtb. rewrite negb_true_iff. split; intros H.
  - apply Qnot_le_lt. intros Hle. apply Qle_bool_iff in Hle. congruence.
  - destruct (Qle_bool a b) eqn:E; [|reflexivity].
    apply Qle_bool_iff in E. exfalso. exact (Qlt_not_le _ _ H E).
Qed.

Lemma Qltb_spec a b : Qltb a b = true <-> (a < b)%Q.
Proof. exact (Qgtb_spec b a). Qed.

Lemma Qgeb_false a b : Qgeb a b = false <-> (a < b)%Q.
Proof.
  unfold Qgeb. split; intros H.
  - apply Qnot_le_lt. intros Hle. apply Qle_bool_iff in Hle. congruence.
  - destruct (Qle_bool b a) eqn:E; [|reflexivity].
    apply Qle_bool_iff in E. exfalso. exact (Qlt_not_le _ _ H E).
Qed.

Lemma Qgtb_false a b : Qgtb a b = false <-> (a <= b)%Q.
Proof.
  unfold Qgtb. rewrite negb_false_iff. apply Qle_bool_iff.
Qed.

Lemma Qltb_false a b : Qltb a b = false <-> (b <= a)%Q.
Proof. exact (Qgtb_false b a). Qed.

Lemma std_min_cases a b :
  ((b < a)%Q /\ std_min a b = b) \/ ((a <= b)%Q /\ std_min a b = a).
Proof.
  unfold std_min. destruct (Qltb b a) eqn:E.
  - left. split; [now apply Qltb_spec | reflexivity].
  - right. split; [now apply Qltb_false | reflexivity].
Qed.

Lemma std_max_cases a b :
  ((a < b)%Q /\ std_max a b = b) \/ ((b <= a)%Q /\ std_max a b = a).
Proof.
  unfold std_max. destruct (Qltb a b) eqn:E.
  - left. split; [now apply Qltb_spec | reflexivity].
  - right. split; [now apply Qltb_false | reflexivity].
Qed.

(** ** Rounding *)

Lemma two_pow_pos (e : Z) : (0 < 2 ^ e)%Q.
Proof. apply Qpower_0_lt. reflexivity. Qed.

Lemma two_pow_add (a b : Z) : (2 ^ (a + b) == 2 ^ a * 2 ^ b)%Q.
Proof. apply Qpower_plus. discriminate. Qed.

Lemma two_pow_lt_inv (a b : Z) : (2 ^ a < 2 ^ b)%Q -> a < b.
Proof. intros H. apply (Qpower_lt_compat_l_inv 2); [exact H | reflexivity]. Qed.

Lemma two_pow_le (a b : Z) : a <= b -> (2 ^ a <= 2 ^ b)%Q.
Proof. intros H. apply Qpower_le_compat_l; [exact H | discriminate]. Qed.

Lemma two_pow_Z (a : Z) : 0 <= a -> (2 ^ a == inject_Z (2 ^ a))%Q.
Proof. intros H. symmetry. apply (Zpower_Qpower 2 a H). Qed.

Lemma rne_floor (s : Q) : Qfloor s <= IEEE.rne s <= Qfloor s + 1.
Proof.
  unfold IEEE.rne. destruct (_ ?= _)%Q; [destruct (Z.even _)| |]; lia.
Qed.

Lemma rne_error (s : Q) :
  (- (1 # 2) <= inject_Z (IEEE.rne s) - s <= 1 # 2)%Q.
Proof.
  pose proof (Qfloor_le s) as Hlo. pose proof (Qlt_floor s) as Hhi.
  rewrite inject_Z_plus in Hhi. change (inject_Z 1) with 1%Q in Hhi.
  unfold IEEE.rne.
  destruct (s - inject_Z (Qfloor s) ?= 1 # 2)%Q eqn:C.
  - apply Qeq_alt in C.
    destruct (Z.even (Qfloor s)).
    + lra.
    + rewrite inject_Z_plus. change (inject_Z 1) with 1%Q. lra.
  - apply Qlt_alt in C. lra.
  - apply Qgt_alt in C. rewrite inject_Z_plus.
    change (inject_Z 1) with 1%Q. lra.
Qed.

Lemma rne_ge (s : Q) (k : Z) : (inject_Z k <= s)%Q -> k <= IEEE.rne s.
Proof.
  intros H. pose proof (rne_floor s) as [Hf _].
  assert (k <= Qfloor s); [|lia].
  rewrite <- (Qfloor_Z k). now apply Qfloor_resp_le.
Qed.

Lemma binade_spec (x : Q) :
  (0 < x)%Q ->
  (2 ^ IEEE.binade x <= x)%Q /\ (x < 2 ^ (IEEE.binade x + 1))%Q.
Proof.
  intros Hx. destruct x as [n d]. unfold IEEE.binade. cbn [Qnum Qden].
  assert (Hn : 0 < n) by (unfold Qlt in Hx; cbn in Hx; lia).
  pose proof (Z.log2_spec n Hn) as [Ln1 Ln2].
  pose proof (Z.log2_spec (Z.pos d) (Pos2Z.is_pos d)) as [Ld1 Ld2].
  pose proof (Z.log2_nonneg n) as Pn.
  pose proof (Z.log2_nonneg (Z.pos d)) as Pd.
  set (ln := Z.log2 n) in *. set (ld := Z.log2 (Z.pos d)) in *.
  assert (Hlow : (2 ^ (ln - ld - 1) <= n # d)%Q).
  { replace (ln - ld - 1) with (ln - (ld + 1)) by lia.
    rewrite Qpower_minus by discriminate.
    rewrite (two_pow_Z ln), (two_pow_Z (ld + 1)) by lia.
    apply Qle_shift_div_r.
    - change 0%Q with (inject_Z 0). rewrite <- Zlt_Qlt. lia.
    - unfold Qle, Qmult, inject_Z. cbn [Qnum Qden].
      rewrite Pos.mul_1_r. unfold Z.succ in *. nia. }
  assert (Hhigh : (n # d < 2 ^ (ln - ld + 1))%Q).
  { replace (ln - ld + 1) with (ln + 1 - ld) by lia.
    rewrite Qpower_minus by discriminate.
    rewrite (two_pow_Z (ln + 1)), (two_pow_Z ld) by lia.
    apply Qlt_shift_div_l.
    - change 0%Q with (inject_Z 0). rewrite <- Zlt_Qlt. lia.
    - unfold Qlt, Qmult, inject_Z. cbn [Qnum Qden].
      rewrite Pos.mul_1_r. unfold Z.succ in *. nia. }
  destruct (Qle_bool (2 ^ (ln - ld)) (n # d)) eqn:T.
  - apply Qle_bool_iff in T. split; [exact T | exact Hhigh].
  - split; [exact Hlow|].
    replace (ln - ld - 1 + 1) with (ln - ld) by lia.
    apply Qnot_le_lt. intros H. apply Qle_bool_iff in H. congruence.
Qed.

Lemma binade_unique (x : Q) (E : Z) :
  (2 ^ E <= x)%Q -> (x < 2 ^ (E + 1))%Q -> IEEE.binade x = E.
Proof.
  intros H1 H2.
  assert (Hx : (0 < x)%Q)
    by (eapply Qlt_le_trans; [apply (two_pow_pos E) | exact H1]).
  destruct (binade_spec x Hx) as [B1 B2].
  assert (E < IEEE.binade x + 1)
    by (apply two_pow_lt_inv; eapply Qle_lt_trans; eassumption).
  assert (IEEE.binade x < E + 1)
    by (apply two_pow_lt_inv; eapply Qle_lt_trans; eassumption).
  lia.
Qed.

Lemma binade_le (x y : Q) :
  (0 < x)%Q -> (x <= y)%Q -> IEEE.binade x <= IEEE.binade y.
Proof.
  intros Hx Hxy.
  destruct (binade_spec x Hx) as [B1 _].
  destruct (binade_spec y (Qlt_le_trans _ _ _ Hx Hxy)) as [_ B2].
  assert (IEEE.binade x < IEEE.binade y + 1); [|lia].
  apply two_pow_lt_inv. eapply Qle_lt_trans; [exact B1|].
  eapply Qle_lt_trans; eassumption.
Qed.

(** The value is off by at most half a unit in the last place. *)
Lemma round_error (prec emin : Z) (x : Q) :
  (- ((1 # 2) * 2 ^ IEEE.exponent prec emin x)
     <= IEEE.round prec emin x - x
     <= (1 # 2) * 2 ^ IEEE.exponent prec emin x)%Q.
Proof.
  unfold IEEE.round. set (e := IEEE.exponent prec emin x).
  pose proof (two_pow_pos e) as He.
  pose proof (rne_error (x / 2 ^ e)) as [H1 H2].
  set (m := inject_Z (IEEE.rne (x / 2 ^ e))) in *.
  assert (Ex : (x == x / 2 ^ e * 2 ^ e)%Q) by (field; lra).
  set (s := (x / 2 ^ e)%Q) in *. set (w := (2 ^ e)%Q) in *.
  assert (G1 : (0 <= (m - s + (1 # 2)) * w)%Q)
    by (apply Qmult_le_0_compat; lra).
  assert (G2 : (0 <= ((1 # 2) - (m - s)) * w)%Q)
    by (apply Qmult_le_0_compat; lra).
  lra.
Qed.

Lemma rne_zero (s : Q) : (s == 0)%Q -> IEEE.rne s = 0.
Proof.
  intros H. unfold IEEE.rne. rewrite (Qfloor_comp s 0 H).
  change (Qfloor 0) with 0. rewrite H. reflexivity.
Qed.

Lemma round_zero (prec emin : Z) (x : Q) :
  (x == 0)%Q -> (IEEE.round prec emin x == 0)%Q.
Proof.
  intros H. unfold IEEE.round.
  generalize (IEEE.exponent prec emin x). intros e.
  rewrite rne_zero; [ring|].
  rewrite H. field. pose proof (two_pow_pos e). lra.
Qed.

Lemma exponent_normal (prec emin : Z) (x : Q) :
  (2 ^ (emin + prec - 1) <= Qabs x)%Q ->
  IEEE.exponent prec emin x = IEEE.binade (Qabs x) - (prec - 1).
Proof.
  intros Hn. unfold IEEE.exponent.
  assert (Hx : (0 < Qabs x)%Q)
    by (eapply Qlt_le_trans; [apply two_pow_pos | exact Hn]).
  destruct (binade_spec _ Hx) as [_ B2].
  assert (emin + prec - 1 < IEEE.binade (Qabs x) + 1)
    by (apply two_pow_lt_inv; eapply Qle_lt_trans; eassumption).
  lia.
Qed.

Lemma exponent_subnormal (prec emin : Z) (x : Q) :
  (0 < Qabs x)%Q -> (Qabs x < 2 ^ (emin + prec - 1))%Q ->
  IEEE.exponent prec emin x = emin.
Proof.
  intros Hx Hs. unfold IEEE.exponent.
  destruct (binade_spec _ Hx) as [B1 _].
  assert (IEEE.binade (Qabs x) < emin + prec - 1)
    by (apply two_pow_lt_inv; eapply Qle_lt_trans; eassumption).
  lia.
Qed.

(** In the normal range the error is at most [2^-prec] of the value. *)
Lemma round_relative (prec emin : Z) (x : Q) :
  (2 ^ (emin + prec - 1) <= Qabs x)%Q ->
  (- (2 ^ (- prec) * Qabs x) <= IEEE.round prec emin x - x
     <= 2 ^ (- prec) * Qabs x)%Q.
Proof.
  intros Hn. pose proof (round_error prec emin x) as Herr.
  rewrite (exponent_normal _ _ _ Hn) in Herr.
  assert (Hx : (0 < Qabs x)%Q)
    by (eapply Qlt_le_trans; [apply two_pow_pos | exact Hn]).
  destruct (binade_spec _ Hx) as [B1 _].
  set (E := IEEE.binade (Qabs x)) in *.
  assert (Eq : ((1 # 2) * 2 ^ (E - (prec - 1)) == 2 ^ (- prec) * 2 ^ E)%Q).
  { replace (E - (prec - 1)) with (1 + (- prec + E)) by lia.
    rewrite !two_pow_add. change (2 ^ 1)%Q with 2%Q. ring. }
  rewrite Eq in Herr.
  pose proof (two_pow_pos (- prec)) as Hu.
  set (u := (2 ^ (- prec))%Q) in *. set (w := (2 ^ E)%Q) in *.
  set (a := Qabs x) in *.
  assert (G : (0 <= u * (a - w))%Q) by (apply Qmult_le_0_compat; lra).
  lra.
Qed.

(** Everywhere it is at most that, or half the smallest step. *)
Lemma round_absolute (prec emin : Z) (x : Q) :
  (- (2 ^ (- prec) * Qabs x + 2 ^ (emin - 1)) <= IEEE.round prec emin x - x
     <= 2 ^ (- prec) * Qabs x + 2 ^ (emin - 1))%Q.
Proof.
  pose proof (two_pow_pos (- prec)) as Hu.
  pose proof (two_pow_pos (emin - 1)) as Heta.
  pose proof (Qabs_nonneg x) as Ha.
  assert (Hp : (0 <= 2 ^ (- prec) * Qabs x)%Q).
  { apply Qmult_le_0_compat; [|exact Ha]. apply Qlt_le_weak, Hu. }
  destruct (Qlt_le_dec 0 (Qabs x)) as [Hx|Hx].
  2:{ assert (E0 : (x == 0)%Q).
      { destruct (Qlt_le_dec x 0) as [Hneg|Hpos].
        - rewrite (Qabs_neg x) in Hx by lra. lra.
        - rewrite (Qabs_pos x) in Hx by lra. lra. }
      assert (Ez : (IEEE.round prec emin x - x == 0)%Q)
        by (rewrite (round_zero _ _ _ E0), E0; ring).
      set (u := (2 ^ (- prec) * Qabs x)%Q) in *.
      set (eta := (2 ^ (emin - 1))%Q) in *. lra. }
  destruct (Qlt_le_dec (Qabs x) (2 ^ (emin + prec - 1))) as [Hs|Hn].
  - pose proof (round_error prec emin x) as Herr.
    rewrite (exponent_subnormal _ _ _ Hx Hs) in Herr.
    replace (emin - 1) with (-1 + emin) in * by lia.
    rewrite two_pow_add in *. change (2 ^ (-1))%Q with (1 # 2)%Q in *.
    set (u := (2 ^ (- prec) * Qabs x)%Q) in *.
    set (w := (2 ^ emin)%Q) in *. lra.
  - pose proof (round_relative prec emin x Hn) as Hr.
    set (u := (2 ^ (- prec) * Qabs x)%Q) in *.
    set (eta := (2 ^ (emin - 1))%Q) in *. lra.
Qed.

Lemma binade_abs (x : Q) : (0 < x)%Q -> IEEE.binade (Qabs x) = IEEE.binade x.
Proof.
  intros Hx. destruct (binade_spec x Hx) as [B1 B2].
  apply binade_unique; rewrite Qabs_pos by lra; assumption.
Qed.

(** Rounding does not step over a number of the format: a positive normal
    [k * 2^j] at or below [x] is at or below the rounded [x]. *)
Lemma round_ge (prec emin : Z) (k j : Z) (x : Q) :
  0 < prec -> 2 ^ (prec - 1) <= k < 2 ^ prec -> emin <= j ->
  (inject_Z k * 2 ^ j <= x)%Q ->
  (inject_Z k * 2 ^ j <= IEEE.round prec emin x)%Q.
Proof.
  intros Hp Hk Hj Hcx. set (c := (inject_Z k * 2 ^ j)%Q) in *.
  pose proof (two_pow_pos j) as Hwj.
  assert (Hk1 : (inject_Z (2 ^ (prec - 1)) <= inject_Z k)%Q)
    by (rewrite <- Zle_Qle; lia).
  assert (Hk2 : (inject_Z k < inject_Z (2 ^ prec))%Q)
    by (rewrite <- Zlt_Qlt; lia).
  rewrite <- !two_pow_Z in * by lia.
  assert (Hc1 : (2 ^ (j + prec - 1) <= c)%Q).
  { replace (j + prec - 1) with (prec - 1 + j) by lia. rewrite two_pow_add.
    subst c. apply Qmult_le_compat_r; [exact Hk1 | lra]. }
  assert (Hc2 : (c < 2 ^ (j + prec - 1 + 1))%Q).
  { replace (j + prec - 1 + 1) with (prec + j) by lia. rewrite two_pow_add.
    subst c. apply Qmult_lt_compat_r; [exact Hwj | exact Hk2]. }
  assert (Hc0 : (0 < c)%Q)
    by (eapply Qlt_le_trans; [apply two_pow_pos | exact Hc1]).
  assert (Hx0 : (0 < x)%Q) by lra.
  assert (Ec : IEEE.binade c = j + prec - 1) by now apply binade_unique.
  pose proof (binade_le c x Hc0 Hcx) as Hle. rewrite Ec in Hle.
  destruct (binade_spec x Hx0) as [B1 B2].
  unfold IEEE.round, IEEE.exponent. rewrite (binade_abs x Hx0).
  set (E := IEEE.binade x) in *.
  destruct (Z.eq_dec E (j + prec - 1)) as [Eeq|Ene].
  - replace (Z.max (E - (prec - 1)) emin) with j by lia.
    assert (Hs : (inject_Z k <= x / 2 ^ j)%Q).
    { apply Qle_shift_div_l; [exact Hwj | exact Hcx]. }
    apply rne_ge in Hs. rewrite Zle_Qle in Hs.
    subst c. apply Qmult_le_compat_r; [exact Hs | lra].
  - replace (Z.max (E - (prec - 1)) emin) with (E - (prec - 1)) by lia.
    set (e := E - (prec - 1)).
    pose proof (two_pow_pos e) as Hwe.
    assert (Hs : (inject_Z (2 ^ (prec - 1)) <= x / 2 ^ e)%Q).
    { apply Qle_shift_div_l; [exact Hwe|].
      rewrite <- two_pow_Z by lia. rewrite <- two_pow_add.
      replace (prec - 1 + e) with E by (subst e; lia). exact B1. }
    apply rne_ge in Hs. rewrite Zle_Qle in Hs.
    rewrite <- two_pow_Z in Hs by lia.
    assert (Hbig : (2 ^ (j + prec - 1 + 1) <= 2 ^ E)%Q)
      by (apply two_pow_le; lia).
    assert (HE : (2 ^ E == 2 ^ (prec - 1) * 2 ^ e)%Q).
    { rewrite <- two_pow_add. replace (prec - 1 + e) with E
        by (subst e; lia). reflexivity. }
    apply Qle_trans with (2 ^ E)%Q; [lra|].
    rewrite HE. apply Qmult_le_compat_r; [exact Hs | lra].
Qed.

Lemma rne_le (s : Q) (k : Z) : (s <= inject_Z k)%Q -> IEEE.rne s <= k.
Proof.
  intros H. pose proof (rne_floor s) as [_ Hf].
  assert (Hk : Qfloor s <= k)
    by (rewrite <- (Qfloor_Z k); now apply Qfloor_resp_le).
  destruct (Z.eq_dec (Qfloor s) k) as [E|E]; [|lia].
  pose proof (Qfloor_le s) as Hlo. rewrite E in Hlo.
  unfold IEEE.rne. rewrite E.
  assert (C : (s - inject_Z k ?= 1 # 2)%Q = Lt).
  { apply (proj1 (Qlt_alt _ _)). set (q := inject_Z k) in *. lra. }
  rewrite C. lia.
Qed.

Lemma round_nonneg (prec emin : Z) (x : Q) :
  (0 <= x)%Q -> (0 <= IEEE.round prec emin x)%Q.
Proof.
  intros Hx. unfold IEEE.round.
  pose proof (two_pow_pos (IEEE.exponent prec emin x)) as He.
  set (w := (2 ^ _)%Q) in *.
  apply Qmult_le_0_compat; [|lra].
  change 0%Q with (inject_Z 0). rewrite <- Zle_Qle. apply rne_ge.
  change (inject_Z 0) with 0%Q. apply Qle_shift_div_l; lra.
Qed.

Lemma round_nonpos (prec emin : Z) (x : Q) :
  (x <= 0)%Q -> (IEEE.round prec emin x <= 0)%Q.
Proof.
  intros Hx. unfold IEEE.round.
  pose proof (two_pow_pos (IEEE.exponent prec emin x)) as He.
  set (w := (2 ^ _)%Q) in *.
  assert (Hm : (inject_Z (IEEE.rne (x / w)) <= 0)%Q).
  { change 0%Q with (inject_Z 0). rewrite <- Zle_Qle. apply rne_le.
    change (inject_Z 0) with 0%Q. apply Qle_shift_div_r; lra. }
  set (m := inject_Z _) in *.
  assert (G : (0 <= (- m) * w)%Q) by (apply Qmult_le_0_compat; lra).
  lra.
Qed.

Lemma tiny_pow (e : Z) : e <= -100 -> (2 ^ e <= 1 # 1000000000000000000000000000000)%Q.
Proof.
  intros He. apply Qle_trans with (2 ^ (-100))%Q; [now apply two_pow_le|].
  vm_compute. discriminate.
Qed.

(** *** binary32: 24 digits, least exponent -149 *)



(** *** binary64: 53 digits, least exponent -1074 *)

Lemma binary64_ge_10 (x : Q) : (10 <= x)%Q -> (10 <= IEEE.binary64 x)%Q.
Proof.
  intros Hx.
  assert (E : (10 == inject_Z 5629499534213120 * 2 ^ (-49))%Q) by reflexivity.
  rewrite E in *. apply round_ge; [lia | | lia | exact Hx].
  vm_compute. split; [discriminate | reflexivity].
Qed.

Lemma binary64_ge_1 (x : Q) : (1 <= x)%Q -> (1 <= IEEE.binary64 x)%Q.
Proof.
  intros Hx.
  assert (E : (1 == inject_Z 4503599627370496 * 2 ^ (-52))%Q) by reflexivity.
  rewrite E in *. apply round_ge; [lia | | lia | exact Hx].
  vm_compute. split; [discriminate | reflexivity].
Qed.

(** A rounded value of at least [c >= 1] comes from an exact value of at
    least [c / (1 + 2^-53)]. *)
Lemma binary64_reaches (c x : Q) :
  (1 <= c)%Q -> (c <= IEEE.binary64 x)%Q ->
  (c <= x * (9007199254740993 # 9007199254740992))%Q.
Proof.
  intros Hc Hr. unfold IEEE.binary64 in Hr.
  destruct (Qlt_le_dec x 0) as [Hneg|Hpos].
  - pose proof (round_nonpos 53 (-1074) x ltac:(lra)). lra.
  - destruct (Qlt_le_dec (Qabs x) (2 ^ (-1074 + 53 - 1))) as [Hs|Hn].
    + pose proof (round_absolute 53 (-1074) x) as H.
      rewrite (Qabs_pos x) in H, Hs by exact Hpos.
      pose proof (tiny_pow (-1074 - 1) ltac:(lia)) as Heta.
      pose proof (tiny_pow (-1074 + 53 - 1) ltac:(lia)) as Htau.
      cbn [Z.opp] in H.
      change (2 ^ (-53))%Q with (1 # 9007199254740992)%Q in H.
      set (eta := (2 ^ (-1074 - 1))%Q) in *.
      set (tau := (2 ^ (-1074 + 53 - 1))%Q) in *.
      set (r := IEEE.round 53 (-1074) x) in *. lra.
    + pose proof (round_relative 53 (-1074) x Hn) as H.
      rewrite (Qabs_pos x) in H by exact Hpos.
      cbn [Z.opp] in H.
      change (2 ^ (-53))%Q with (1 # 9007199254740992)%Q in H.
      set (r := IEEE.round 53 (-1074) x) in *. lra.
Qed.

(** *** Against the operations of [SpecFloat] *)

Lemma binary64_agrees_on_samples :
  forall a b, In (a, b) [(F32.double_ratio 102 10, F32.double_ratio 2 10); (F32.double_ratio 12 10, F32.double_ratio 2 10);
                         (F32.double_ratio 7 10, F32.double_ratio 1 3);
     (F32.double_ratio 1000001 7, F32.double_ratio 22 7)]%list ->
  (IEEE.value (SFsub 53 1024 a b) == IEEE.binary64 (IEEE.value a - IEEE.value b))%Q /\
  (IEEE.value (SFadd 53 1024 a b) == IEEE.binary64 (IEEE.value a + IEEE.value b))%Q /\
  (IEEE.value (SFmul 53 1024 a b) == IEEE.binary64 (IEEE.value a * IEEE.value b))%Q /\
  (IEEE.value (SFdiv 53 1024 a b) == IEEE.binary64 (IEEE.value a / IEEE.value b))%Q.
Proof.
  intros a b H. cbn in H.
  repeat destruct H as [H|H]; try contradiction; injection H as <- <-;
    repeat split; vm_compute; reflexivity.
Qed.

(** ** The clock *)











(** ** The battery *)

Lemma updateBattery_drain currentTime b :
  (10 <= currentTime - Battery.lastBatteryDrain b)%Q ->
  0 < Battery.batteryPercent b ->
  Battery.updateBattery currentTime b
  = Battery.mk (Battery.batteryPercent b - 1) currentTime.
Proof.
  intros Hge Hpos. unfold Battery.updateBattery.
  apply Qgeb_spec in Hge. rewrite Hge.
  replace (Battery.batteryPercent b >? 0) with true; [reflexivity|].
  symmetry. apply Z.gtb_lt. exact Hpos.
Qed.

Lemma updateBattery_keep currentTime b :
  ~ ((10 <= currentTime - Battery.lastBatteryDrain b)%Q /\
     0 < Battery.batteryPercent b) ->
  Battery.updateBattery currentTime b = b.
Proof.
  intros Hn. unfold Battery.updateBattery.
  destruct (Qgeb _ _) eqn:E1; [|reflexivity].
  destruct (Battery.batteryPercent b >? 0) eqn:E2; [|reflexivity].
  exfalso. apply Hn. split; [now apply Qgeb_spec | now apply Z.gtb_lt].
Qed.

Lemma updateBattery_step_ok currentTime b :
  Battery.step_ok currentTime b (Battery.updateBattery currentTime b).
Proof.
  split.
  - intros [Hge Hpos]. rewrite (updateBattery_drain _ _ Hge Hpos). now cbn.
  - apply updateBattery_keep.
Qed.

Lemma updateBattery_level currentTime b :
  0 <= Battery.batteryPercent b ->
  0 <= Battery.batteryPercent (Battery.updateBattery currentTime b)
    <= Battery.batteryPercent b.
Proof.
  intros H0. unfold Battery.updateBattery.
  destruct (Qgeb _ _); cbn [andb]; [|lia].
  destruct (Z.gtb_spec (Battery.batteryPercent b) 0); cbn; lia.
Qed.

Lemma last_indep {A} (l : list A) : forall a d d',
  last (a :: l) d = last (a :: l) d'.
Proof.
  induction l as [|x l IH]; intros a d d'; [reflexivity|].
  change (last (x :: l) d = last (x :: l) d'). apply IH.
Qed.

Lemma last_cons_shift {A} (l : list A) (a d : A) :
  last (a :: l) d = last l a.
Proof.
  destruct l as [|x l]; [reflexivity|].
  change (last (x :: l) d = last (x :: l) a). apply last_indep.
Qed.

Lemma last_default_le (ts : list Q) (q c : Q) :
  (q <= c)%Q -> (last ts q <= last ts c)%Q.
Proof.
  intros Hle. destruct ts as [|a ts]; [exact Hle|].
  rewrite (last_indep ts a q c). apply Qle_refl.
Qed.

Lemma nondecreasing_weaken ts (t0 t1 : Q) :
  (t0 <= t1)%Q -> Battery.nondecreasing t1 ts -> Battery.nondecreasing t0 ts.
Proof.
  intros Hle Hnd. destruct ts as [|a ts]; [exact I|].
  destruct Hnd as [Ha Hnd]. split; [|exact Hnd].
  eapply Qle_trans; eassumption.
Qed.

Lemma battery_run_trace ts : forall b,
  Battery.run ts b = last (Battery.trace ts b) b.
Proof.
  induction ts as [|currentTime ts IH]; intros b; [reflexivity|].
  cbn [Battery.run fold_left Battery.trace].
  change (fold_left _ ts ?x) with (Battery.run ts x).
  rewrite IH. symmetry. apply last_cons_shift.
Qed.

Lemma battery_trace_ok ts : forall b,
  0 <= Battery.batteryPercent b ->
  Battery.steps_ok b ts (Battery.trace ts b) /\
  Battery.nonincreasing_nonneg (Battery.batteryPercent b) (Battery.trace ts b).
Proof.
  induction ts as [|currentTime ts IH]; intros b H0; cbn; [tauto|].
  pose proof (updateBattery_level currentTime b H0) as Hl.
  destruct (IH (Battery.updateBattery currentTime b)) as [IH1 IH2]; [lia|].
  split; [split; [apply updateBattery_step_ok | exact IH1]|].
  split; [exact Hl | exact IH2].
Qed.

(** Every decrement is at least 10 s after the timer was restarted, so the
    decrements made so far fit, 10 s each, before the timer value. *)
Lemma battery_drains_fit ts : forall b t0 p0,
  (t0 + 10 * inject_Z (p0 - Battery.batteryPercent b)
     <= Battery.lastBatteryDrain b)%Q ->
  Battery.nondecreasing (Battery.lastBatteryDrain b) ts ->
  (t0 + 10 * inject_Z (p0 - Battery.batteryPercent (Battery.run ts b))
     <= Battery.lastBatteryDrain (Battery.run ts b))%Q /\
  (Battery.lastBatteryDrain (Battery.run ts b)
     <= last ts (Battery.lastBatteryDrain b))%Q.
Proof.
  induction ts as [|currentTime ts IH]; intros b t0 p0 Hfit Hnd.
  - cbn. split; [exact Hfit | apply Qle_refl].
  - cbn [Battery.run fold_left].
    change (fold_left _ ts ?x) with (Battery.run ts x).
    destruct Hnd as [Hle Hnd]. rewrite last_cons_shift.
    assert (Hkeep : Battery.updateBattery currentTime b = b ->
      (t0 + 10 * inject_Z (p0 - Battery.batteryPercent
             (Battery.run ts (Battery.updateBattery currentTime b)))
         <= Battery.lastBatteryDrain
              (Battery.run ts (Battery.updateBattery currentTime b)))%Q /\
      (Battery.lastBatteryDrain
         (Battery.run ts (Battery.updateBattery currentTime b))
         <= last ts currentTime)%Q).
    { intros ->.
      destruct (IH b t0 p0 Hfit (nondecreasing_weaken _ _ _ Hle Hnd))
        as [IH1 IH2].
      split; [exact IH1|].
      eapply Qle_trans; [exact IH2 | now apply last_default_le]. }
    destruct (Qlt_le_dec (currentTime - Battery.lastBatteryDrain b) 10)
      as [Hlt|Hge];
      [|destruct (Z_lt_le_dec 0 (Battery.batteryPercent b)) as [Hpos|Hz]].
    + apply Hkeep, updateBattery_keep.
      intros [Hge _]. exact (Qlt_not_le _ _ Hlt Hge).
    + rewrite (updateBattery_drain _ _ Hge Hpos).
      apply (IH (Battery.mk (Battery.batteryPercent b - 1) currentTime) t0 p0);
        [|exact Hnd].
      cbn. replace (p0 - (Battery.batteryPercent b - 1))
        with ((p0 - Battery.batteryPercent b) + 1) by lia.
      rewrite inject_Z_plus. change (inject_Z 1) with 1%Q.
      clear Hkeep. set (k := inject_Z (p0 - Battery.batteryPercent b)) in *.
      lra.
    + apply Hkeep, updateBattery_keep. intros [_ Hpos]. lia.
Qed.

(** C4, as stated, fails: with calls at 6, 12, 18, 24 and 30 s after the
    timer start the level drops at 12 s and at 24 s only, two decrements in
    30 s of elapsed time. *)
Lemma battery_not_one_decrement_per_10s : ~ Battery.one_decrement_per_10s.
Proof.
  intros H.
  specialize (H (Battery.mk 100 0) [6; 12; 18; 24; 30]%Q).
  assert (Hnd : Battery.nondecreasing 0 [6; 12; 18; 24; 30]%Q).
  { cbn. repeat split; unfold Qle; cbn; lia. }
  specialize (H Hnd). vm_compute in H.
  specialize (H eq_refl). discriminate H.
Qed.

Lemma updateBattery64_drain currentTime b :
  (10 <= Battery64.gap currentTime b)%Q ->
  0 < Battery.batteryPercent b ->
  Battery64.updateBattery currentTime b
  = Battery.mk (Battery.batteryPercent b - 1) currentTime.
Proof.
  intros Hge Hpos. unfold Battery64.updateBattery.
  apply Qgeb_spec in Hge. rewrite Hge.
  replace (Battery.batteryPercent b >? 0) with true; [reflexivity|].
  symmetry. apply Z.gtb_lt. exact Hpos.
Qed.

Lemma updateBattery64_keep currentTime b :
  ~ ((10 <= Battery64.gap currentTime b)%Q /\
     0 < Battery.batteryPercent b) ->
  Battery64.updateBattery currentTime b = b.
Proof.
  intros Hn. unfold Battery64.updateBattery.
  destruct (Qgeb _ _) eqn:E1; [|reflexivity].
  destruct (Battery.batteryPercent b >? 0) eqn:E2; [|reflexivity].
  exfalso. apply Hn. split; [now apply Qgeb_spec | now apply Z.gtb_lt].
Qed.

(** A rounded gap of at least 10.0 is a real gap of at least [period]. *)
Lemma gap_reaches_10 currentTime b :
  (10 <= Battery64.gap currentTime b)%Q ->
  (Battery64.period <= currentTime - Battery.lastBatteryDrain b)%Q.
Proof.
  intros H. apply binary64_reaches in H; [|lra].
  unfold Battery64.period.
  set (x := (currentTime - Battery.lastBatteryDrain b)%Q) in *. lra.
Qed.

Lemma updateBattery64_step_ok currentTime b :
  Battery64.step_ok currentTime b (Battery64.updateBattery currentTime b).
Proof.
  split; [|split; [|split]].
  - intros [Hge Hpos]. rewrite (updateBattery64_drain _ _ Hge Hpos). now cbn.
  - apply updateBattery64_keep.
  - apply binary64_ge_10.
  - intros Hlt. apply Qnot_le_lt. intros Hge.
    apply gap_reaches_10 in Hge. lra.
Qed.

Lemma updateBattery64_level currentTime b :
  0 <= Battery.batteryPercent b ->
  0 <= Battery.batteryPercent (Battery64.updateBattery currentTime b)
    <= Battery.batteryPercent b.
Proof.
  intros H0. unfold Battery64.updateBattery.
  destruct (Qgeb _ _); cbn [andb]; [|lia].
  destruct (Z.gtb_spec (Battery.batteryPercent b) 0); cbn; lia.
Qed.

Lemma battery64_trace_ok ts : forall b,
  0 <= Battery.batteryPercent b ->
  Battery64.steps_ok b ts (Battery64.trace ts b) /\
  Battery.nonincreasing_nonneg (Battery.batteryPercent b)
    (Battery64.trace ts b).
Proof.
  induction ts as [|currentTime ts IH]; intros b H0; cbn; [tauto|].
  pose proof (updateBattery64_level currentTime b H0) as Hl.
  destruct (IH (Battery64.updateBattery currentTime b)) as [IH1 IH2]; [lia|].
  split; [split; [apply updateBattery64_step_ok | exact IH1]|].
  split; [exact Hl | exact IH2].
Qed.

(** Every decrement is at least [period] after the timer was restarted, so
    the decrements made so far fit, one [period] each, before the timer
    value. *)
Lemma battery64_drains_fit ts : forall b t0 p0,
  (t0 + Battery64.period * inject_Z (p0 - Battery.batteryPercent b)
     <= Battery.lastBatteryDrain b)%Q ->
  Battery.nondecreasing (Battery.lastBatteryDrain b) ts ->
  (t0 + Battery64.period
        * inject_Z (p0 - Battery.batteryPercent (Battery64.run ts b))
     <= Battery.lastBatteryDrain (Battery64.run ts b))%Q /\
  (Battery.lastBatteryDrain (Battery64.run ts b)
     <= last ts (Battery.lastBatteryDrain b))%Q.
Proof.
  induction ts as [|currentTime ts IH]; intros b t0 p0 Hfit Hnd.
  - cbn. split; [exact Hfit | apply Qle_refl].
  - cbn [Battery64.run fold_left].
    change (fold_left _ ts ?x) with (Battery64.run ts x).
    destruct Hnd as [Hle Hnd]. rewrite last_cons_shift.
    destruct (Qlt_le_dec (Battery64.gap currentTime b) 10) as [Hlt|Hge];
      [|destruct (Z_lt_le_dec 0 (Battery.batteryPercent b)) as [Hpos|Hz]].
    1,3: rewrite updateBattery64_keep
           by (intros [Hge' Hpos']; try lia;
               exact (Qlt_not_le _ _ Hlt Hge'));
         destruct (IH b t0 p0 Hfit (nondecreasing_weaken _ _ _ Hle Hnd))
           as [IH1 IH2];
         (split; [exact IH1|]);
         eapply Qle_trans; [exact IH2 | now apply last_default_le].
    rewrite (updateBattery64_drain _ _ Hge Hpos).
    apply (IH (Battery.mk (Battery.batteryPercent b - 1) currentTime) t0 p0);
      [|exact Hnd].
    apply gap_reaches_10 in Hge. unfold Battery64.period in *.
    cbn [Battery.batteryPercent Battery.lastBatteryDrain].
    replace (p0 - (Battery.batteryPercent b - 1))
      with ((p0 - Battery.batteryPercent b) + 1) by lia.
    rewrite inject_Z_plus. change (inject_Z 1) with 1%Q.
    set (k := inject_Z (p0 - Battery.batteryPercent b)) in *.
    lra.
Qed.

(** C4, amended.  Starting from a nonnegative level, along every sequence
    of [updateBattery] calls at non-decreasing times, with the subtraction
    of the test rounded to [double]: the level never rises and never goes
    below 0; a call lowers it by exactly one, and restarts the drain timer
    at the call time, when the rounded gap since the timer was restarted is
    at least 10.0 and the level is positive, and changes nothing
    otherwise; the rounded gap is at least 10.0 whenever 10 s have passed
    and below 10.0 whenever less than 10 / (1 + 2^-53) s have; so there is
    at most one decrement per 10 / (1 + 2^-53) s of elapsed time. *)
Theorem battery_drains_at_most_once_per_10s (b : Battery.t) (ts : list Q) :
  0 <= Battery.batteryPercent b ->
  Battery.nondecreasing (Battery.lastBatteryDrain b) ts ->
  Battery64.steps_ok b ts (Battery64.trace ts b) /\
  Battery.nonincreasing_nonneg (Battery.batteryPercent b)
    (Battery64.trace ts b) /\
  (Battery64.period
     * inject_Z (Battery.batteryPercent b
                 - Battery.batteryPercent (Battery64.run ts b))
     <= last ts (Battery.lastBatteryDrain b) - Battery.lastBatteryDrain b)%Q.
Proof.
  intros H0 Hnd.
  destruct (battery64_trace_ok ts b H0) as [H1 H2].
  split; [exact H1 | split; [exact H2|]].
  destruct (battery64_drains_fit ts b (Battery.lastBatteryDrain b)
              (Battery.batteryPercent b)) as [F1 F2]; [|exact Hnd|].
  - rewrite Z.sub_diag. change (inject_Z 0) with 0%Q. lra.
  - unfold Battery64.period in *. set (k := inject_Z _) in *. lra.
Qed.

Lemma battery_drains_at_most_once_per_10s_witness :
  let b := Battery.mk 100 (IEEE.binary64 (2 # 10)) in
  let ts := [IEEE.binary64 (102 # 10); IEEE.binary64 (153 # 10);
             IEEE.binary64 (204 # 10)] in
  (Battery64.steps_ok b ts (Battery64.trace ts b) /\
   Battery.nonincreasing_nonneg (Battery.batteryPercent b)
     (Battery64.trace ts b) /\
   (Battery64.period
      * inject_Z (Battery.batteryPercent b
                  - Battery.batteryPercent (Battery64.run ts b))
      <= last ts (Battery.lastBatteryDrain b)
         - Battery.lastBatteryDrain b)%Q) /\
  Battery.batteryPercent (Battery64.run ts b) = 98 /\
  (IEEE.binary64 (102 # 10) - IEEE.binary64 (2 # 10) < 10)%Q.
Proof.
  intros b ts. split; [|split].
  - apply battery_drains_at_most_once_per_10s.
    + cbn. lia.
    + cbn. repeat split; vm_compute; discriminate.
  - vm_compute. reflexivity.
  - vm_compute. reflexivity.
Defined.

(** On the calls at 6, 12, 18, 24 and 30 s no subtraction is rounded: the
    run is that of the exact model. *)
Lemma battery64_run_at_6s_calls :
  Battery64.run [6; 12; 18; 24; 30]%Q (Battery.mk 100 0)
  = Battery.run [6; 12; 18; 24; 30]%Q (Battery.mk 100 0).
Proof. vm_compute. reflexivity. Qed.

(** *** Frames at a fixed step that divides 10 s *)

Lemma frame_times_S t0 d k :
  Battery.frame_times t0 d (S k)
  = Battery.frame_times t0 d k
      ++ [(t0 + inject_Z (Z.of_nat (S k)) * d)%Q].
Proof.
  unfold Battery.frame_times. rewrite seq_S, map_app. reflexivity.
Qed.

Lemma battery_run_snoc ts currentTime b :
  Battery.run (ts ++ [currentTime]) b
  = Battery.updateBattery currentTime (Battery.run ts b).
Proof. unfold Battery.run. now rewrite fold_left_app. Qed.

Lemma Qmult_inject_le (d : Q) (a b : Z) :
  (0 < d)%Q -> (inject_Z a * d <= inject_Z b * d)%Q <-> a <= b.
Proof.
  intros Hd. rewrite (Qmult_le_r _ _ _ Hd), <- Zle_Qle. reflexivity.
Qed.

Section RegularFrames.

Variables (t0 d : Q) (n p0 : Z).
Hypothesis n_pos : 0 < n.
Hypothesis d_pos : (0 < d)%Q.
Hypothesis n_frames_are_10s : (inject_Z n * d == 10)%Q.
Hypothesis p0_nonneg : 0 <= p0.

(** After [k] frames the level has dropped once per [n] frames, down to 0,
    and while it is positive the timer holds the time of the last multiple
    of [n] frames. *)
Lemma battery_regular_invariant (k : nat) :
  let b := Battery.run (Battery.frame_times t0 d k) (Battery.mk p0 t0) in
  Battery.batteryPercent b = Z.max 0 (p0 - Z.of_nat k / n) /\
  (Z.of_nat k / n <= p0 ->
   (Battery.lastBatteryDrain b
      == t0 + inject_Z (Z.of_nat k / n * n) * d)%Q).
Proof.
  induction k as [|k IH].
  - change (Z.of_nat 0) with 0. rewrite Z.div_0_l by lia.
    cbn. split; [lia|]. intros _. ring.
  - cbn zeta in IH |- *. rewrite frame_times_S, battery_run_snoc.
    set (b := Battery.run _ _) in *.
    destruct IH as [IHp IHt].
    set (K := Z.of_nat k) in *.
    replace (Z.of_nat (S k)) with (K + 1) by (subst K; lia).
    assert (HK : 0 <= K) by (subst K; lia).
    pose proof (Z.div_mod K n ltac:(lia)) as Hdm.
    pose proof (Z.mod_pos_bound K n n_pos) as Hr.
    set (q := K / n) in *. set (r := K mod n) in *.
    assert (Hq : 0 <= q) by (subst q; apply Z.div_pos; lia).
    destruct (Z_lt_le_dec q p0) as [Hlive|Hdead].
    + (* the level is still positive *)
      assert (Hp : Battery.batteryPercent b = p0 - q) by lia.
      specialize (IHt ltac:(lia)).
      assert (Hgap : (t0 + inject_Z (K + 1) * d - Battery.lastBatteryDrain b
                      == inject_Z (r + 1) * d)%Q).
      { rewrite IHt. replace (K + 1) with ((q * n) + (r + 1)) by lia.
        rewrite inject_Z_plus. ring. }
      destruct (Z.eq_dec (r + 1) n) as [Hfull|Hpart].
      * assert (Hq' : (K + 1) / n = q + 1).
        { symmetry. apply Z.div_unique with 0; lia. }
        rewrite Hq'.
        rewrite updateBattery_drain.
        -- cbn. split; [lia|]. intros _.
           replace ((q + 1) * n) with (K + 1) by lia. reflexivity.
        -- rewrite Hgap, Hfull, n_frames_are_10s. apply Qle_refl.
        -- lia.
      * assert (Hq' : (K + 1) / n = q).
        { symmetry. apply Z.div_unique with (r + 1); lia. }
        rewrite Hq'.
        rewrite updateBattery_keep.
        -- split; [lia | intros _; exact IHt].
        -- intros [Hge _]. rewrite Hgap, <- n_frames_are_10s in Hge.
           apply (Qmult_inject_le d n (r + 1) d_pos) in Hge. lia.
    + (* the level has reached 0 *)
      assert (Hp : Battery.batteryPercent b = 0) by lia.
      rewrite updateBattery_keep by (intros [_ Hpos]; lia).
      assert (Hmono : q <= (K + 1) / n).
      { subst q. apply Z.div_le_mono; lia. }
      split; [lia|].
      intros Hle. assert (Hq' : (K + 1) / n = q) by lia.
      rewrite Hq'. apply IHt. lia.
Qed.

Lemma battery_regular_level (k : nat) :
  Battery.batteryPercent
    (Battery.run (Battery.frame_times t0 d k) (Battery.mk p0 t0))
  = Z.max 0 (p0 - Z.of_nat k / n).
Proof. apply (battery_regular_invariant k). Qed.

End RegularFrames.

(** C2, as stated, fails: at 64 frames per second for 1000 s, from a level
    of 100 with the timer started at 0, the level ends at 0 (one decrement
    in each of the 100 periods of 10 s), not at 90. *)
Lemma battery_after_1000s_is_not_90 :
  Battery.batteryPercent
    (Battery.run (Battery.frame_times 0 (1 # 64) (Z.to_nat 64000))
       (Battery.mk 100 0))
  <> 90.
Proof.
  rewrite (battery_regular_level 0 (1 # 64) 640 100);
    [|lia|reflexivity|reflexivity|lia].
  rewrite Z2Nat.id by lia. change (64000 / 640) with 100.
  cbn. discriminate.
Qed.

(** C2, amended.  If the level starts at 100 and [updateBattery] is called
    once per frame, the frames a fixed step [d] apart with [n] frames to
    10 s, the level after [k] frames is [max 0 (100 - k / n)]: it is 0
    after 1000 s and 90 after 100 s. *)
Theorem battery_after_regular_frames (t0 d : Q) (n : Z) :
  0 < n -> (0 < d)%Q -> (inject_Z n * d == 10)%Q ->
  (forall k : nat,
     Battery.batteryPercent
       (Battery.run (Battery.frame_times t0 d k) (Battery.mk 100 t0))
     = Z.max 0 (100 - Z.of_nat k / n)) /\
  Battery.batteryPercent
    (Battery.run (Battery.frame_times t0 d (Z.to_nat (100 * n)))
       (Battery.mk 100 t0)) = 0 /\
  Battery.batteryPercent
    (Battery.run (Battery.frame_times t0 d (Z.to_nat (10 * n)))
       (Battery.mk 100 t0)) = 90.
Proof.
  intros Hn Hd Hnd.
  assert (H : forall k : nat,
     Battery.batteryPercent
       (Battery.run (Battery.frame_times t0 d k) (Battery.mk 100 t0))
     = Z.max 0 (100 - Z.of_nat k / n)).
  { intros k. apply battery_regular_level; [assumption..|lia]. }
  split; [exact H|].
  rewrite !H, !Z2Nat.id by lia.
  rewrite !Z.div_mul by lia. split; reflexivity.
Qed.

Lemma battery_after_regular_frames_witness :
  (forall k : nat,
     Battery.batteryPercent
       (Battery.run (Battery.frame_times 0 (1 # 64) k) (Battery.mk 100 0))
     = Z.max 0 (100 - Z.of_nat k / 640)) /\
  Battery.batteryPercent
    (Battery.run (Battery.frame_times 0 (1 # 64) (Z.to_nat (100 * 640)))
       (Battery.mk 100 0)) = 0 /\
  Battery.batteryPercent
    (Battery.run (Battery.frame_times 0 (1 # 64) (Z.to_nat (10 * 640)))
       (Battery.mk 100 0)) = 90.
Proof.
  apply (battery_after_regular_frames 0 (1 # 64) 640).
  - lia.
  - reflexivity.
  - reflexivity.
Defined.

(** ** The heart rate *)

Lemma step_targetBpm_running c h :
  Heart.running c = true ->
  Heart.targetBpm (Heart.step c h)
  = std_min (Heart.targetBpm h + 30 * Heart.deltaTime c) 220.
Proof. intros Hr. unfold Heart.step. cbn. now rewrite Hr. Qed.

Lemma step_targetBpm_resting c h :
  Heart.running c = false ->
  Heart.targetBpm (Heart.step c h)
  = std_max (Heart.targetBpm h - 20 * Heart.deltaTime c)
            (60 + inject_Z (Z.rem (Heart.rnd c) 20)).
Proof. intros Hr. unfold Heart.step. cbn. now rewrite Hr. Qed.

Lemma step_bpm c h :
  Heart.bpm (Heart.step c h)
  = (Heart.bpm h
     + (Heart.targetBpm (Heart.step c h) - Heart.bpm h) * 2
       * Heart.deltaTime c)%Q.
Proof. reflexivity. Qed.

Lemma step_ekgOffset c h :
  Heart.ekgOffset (Heart.step c h)
  = let e := (Heart.ekgOffset h
              + Heart.bpm (Heart.step c h) / 60 * Heart.deltaTime c * (1 # 2))%Q
    in if Qgtb e 1 then (e - 1)%Q else e.
Proof. reflexivity. Qed.

Lemma heart_run_trace cs : forall h,
  Heart.run cs h = last (Heart.trace cs h) h.
Proof.
  induction cs as [|c cs IH]; intros h; [reflexivity|].
  cbn [Heart.run fold_left Heart.trace].
  change (fold_left _ cs ?x) with (Heart.run cs x).
  rewrite IH. symmetry. apply last_cons_shift.
Qed.

(** [rand() % 20] is below 20. *)
Lemma resting_target_bounds (rnd : Z) :
  0 <= rnd ->
  (60 <= 60 + inject_Z (Z.rem rnd 20))%Q /\
  (60 + inject_Z (Z.rem rnd 20) < 80)%Q.
Proof.
  intros H0. pose proof (Z.rem_bound_pos rnd 20 H0 ltac:(lia)) as [Hlo Hhi].
  assert (H1 : (inject_Z 0 <= inject_Z (Z.rem rnd 20))%Q)
    by (rewrite <- Zle_Qle; exact Hlo).
  assert (H2 : (inject_Z (Z.rem rnd 20) < inject_Z 20)%Q)
    by (rewrite <- Zlt_Qlt; exact Hhi).
  change (inject_Z 0) with 0%Q in H1. change (inject_Z 20) with 20%Q in H2.
  set (r := inject_Z _) in *. split; lra.
Qed.

Lemma step_targetBpm_range c h :
  Heart.valid_call c ->
  (60 <= Heart.targetBpm h)%Q -> (Heart.targetBpm h <= 220)%Q ->
  (60 <= Heart.targetBpm (Heart.step c h))%Q /\
  (Heart.targetBpm (Heart.step c h) <= 220)%Q.
Proof.
  intros [Hdt Hrnd] Hlo Hhi.
  destruct (Heart.running c) eqn:Hr.
  - rewrite (step_targetBpm_running c h Hr).
    destruct (std_min_cases (Heart.targetBpm h + 30 * Heart.deltaTime c) 220)
      as [[Hc ->]|[Hc ->]]; split; lra.
  - rewrite (step_targetBpm_resting c h Hr).
    destruct (resting_target_bounds _ Hrnd) as [R1 R2].
    destruct (std_max_cases (Heart.targetBpm h - 20 * Heart.deltaTime c)
                (60 + inject_Z (Z.rem (Heart.rnd c) 20)))
      as [[Hc ->]|[Hc ->]]; set (r := inject_Z _) in *; split; lra.
Qed.

Lemma step_targetBpm_le c h :
  Heart.valid_call c ->
  (Heart.targetBpm h <= 220)%Q ->
  (Heart.targetBpm (Heart.step c h) <= 220)%Q.
Proof.
  intros [Hdt Hrnd] Hhi.
  destruct (Heart.running c) eqn:Hr.
  - rewrite (step_targetBpm_running c h Hr).
    destruct (std_min_cases (Heart.targetBpm h + 30 * Heart.deltaTime c) 220)
      as [[Hc ->]|[Hc ->]]; lra.
  - rewrite (step_targetBpm_resting c h Hr).
    destruct (resting_target_bounds _ Hrnd) as [R1 R2].
    destruct (std_max_cases (Heart.targetBpm h - 20 * Heart.deltaTime c)
                (60 + inject_Z (Z.rem (Heart.rnd c) 20)))
      as [[Hc ->]|[Hc ->]]; set (r := inject_Z _) in *; lra.
Qed.

Lemma targetBpm_trace_le cs : forall h,
  Forall Heart.valid_call cs ->
  (Heart.targetBpm h <= 220)%Q ->
  Forall (fun h' => (Heart.targetBpm h' <= 220)%Q) (Heart.trace cs h).
Proof.
  induction cs as [|c cs IH]; intros h Hv Hh; cbn; [constructor|].
  inversion Hv as [|? ? Hc Hcs]; subst.
  pose proof (step_targetBpm_le c h Hc Hh) as Hh'.
  constructor; [exact Hh' | now apply IH].
Qed.

(** C10.  Starting from the initial state ([targetBpm] = 70), along every
    finite sequence of [updateHeartRate] calls with nonnegative
    [deltaTime], whatever [isRunning] is at each call, [targetBpm] is at
    most 220 after every call. *)
Theorem targetBpm_never_exceeds_220 (cs : list Heart.call) :
  Forall Heart.valid_call cs ->
  Forall (fun h => (Heart.targetBpm h <= 220)%Q) (Heart.trace cs Heart.init).
Proof.
  intros Hv. apply targetBpm_trace_le; [exact Hv|].
  cbn. lra.
Qed.

Lemma targetBpm_never_exceeds_220_witness :
  Forall (fun h => (Heart.targetBpm h <= 220)%Q)
    (Heart.trace
       [Heart.mkcall true 8 0; Heart.rest (1 # 60) 32767; Heart.hold]
       Heart.init).
Proof.
  apply targetBpm_never_exceeds_220.
  repeat constructor; cbn; try lia; unfold Qle; cbn; lia.
Defined.

(** In a frame of at most half a second [bpm] moves part of the way to the
    new target, and the offset advances by less than one period. *)
Lemma step_short_bounded c h :
  Heart.short_call c -> Heart.bounded h -> Heart.bounded (Heart.step c h).
Proof.
  intros [Hv Hdt] ([T1 T2] & [B1 B2] & [E1 E2]).
  destruct (step_targetBpm_range c h Hv T1 T2) as [T1' T2'].
  destruct Hv as [Hdt0 _].
  pose proof (step_bpm c h) as Eb.
  pose proof (step_ekgOffset c h) as Ee.
  unfold Heart.bounded, Heart.ekg_in_closed_unit.
  set (T' := Heart.targetBpm (Heart.step c h)) in *.
  set (b' := Heart.bpm (Heart.step c h)) in *.
  set (e' := Heart.ekgOffset (Heart.step c h)) in *.
  set (dt := Heart.deltaTime c) in *.
  set (b := Heart.bpm h) in *. set (e := Heart.ekgOffset h) in *.
  clearbody T' b' e' dt b e.
  assert (P1 : (0 <= (b - 60) * (1 - 2 * dt))%Q)
    by (apply Qmult_le_0_compat; lra).
  assert (P2 : (0 <= (T' - 60) * (2 * dt))%Q)
    by (apply Qmult_le_0_compat; lra).
  assert (P3 : (0 <= (220 - b) * (1 - 2 * dt))%Q)
    by (apply Qmult_le_0_compat; lra).
  assert (P4 : (0 <= (220 - T') * (2 * dt))%Q)
    by (apply Qmult_le_0_compat; lra).
  assert (Hb' : (60 <= b')%Q /\ (b' <= 220)%Q) by (subst b'; split; lra).
  destruct Hb' as [B1' B2'].
  assert (P5 : (0 <= b' * dt)%Q) by (apply Qmult_le_0_compat; lra).
  assert (P6 : (0 <= (220 - b') * dt)%Q) by (apply Qmult_le_0_compat; lra).
  split; [split; assumption|]. split; [split; assumption|].
  cbn zeta in Ee. subst e'.
  set (e1 := (e + b' / 60 * dt * (1 # 2))%Q).
  assert (Ee1 : (e1 == e + b' * dt * (1 # 120))%Q) by (subst e1; field).
  clearbody e1.
  destruct (Qgtb e1 1) eqn:Hw.
  - apply Qgtb_spec in Hw. split; lra.
  - apply Qgtb_false in Hw. split; lra.
Qed.

Lemma short_trace_bounded cs : forall h,
  Forall Heart.short_call cs -> Heart.bounded h ->
  Forall Heart.bounded (Heart.trace cs h).
Proof.
  induction cs as [|c cs IH]; intros h Hs Hh; cbn; [constructor|].
  inversion Hs as [|? ? Hc Hcs]; subst.
  pose proof (step_short_bounded c h Hc Hh) as Hh'.
  constructor; [exact Hh' | now apply IH].
Qed.

(** C1, as stated, fails in two ways.  Four resting frames of half a
    second with [rand() % 20 = 0] bring [bpm] to 60 and add a quarter to
    the offset each, which then equals 1 and is not wrapped ([>] is
    strict); and one running frame of 2 s adds 31/6 to the offset, of which
    the single subtraction removes 1. *)
Lemma ekgOffset_leaves_unit_interval :
  ~ Heart.ekg_in_unit
      (Heart.run [Heart.rest (1 # 2) 0; Heart.rest (1 # 2) 0;
                  Heart.rest (1 # 2) 0; Heart.rest (1 # 2) 0] Heart.init) /\
  ~ Heart.ekg_in_unit (Heart.run [Heart.mkcall true 2 0] Heart.init).
Proof.
  split; intros [_ H]; vm_compute in H; discriminate H.
Qed.

(** C1, amended.  Starting from the initial state ([bpm] = [targetBpm] =
    70, [ekgOffset] = 0), along every finite sequence of [updateHeartRate]
    calls with [deltaTime] between 0 and half a second, [ekgOffset] lies in
    the closed interval from 0 to 1 after every call. *)
Theorem ekgOffset_stays_in_closed_unit_interval (cs : list Heart.call) :
  Forall Heart.short_call cs ->
  Forall Heart.ekg_in_closed_unit (Heart.trace cs Heart.init).
Proof.
  intros Hs.
  assert (Hinit : Heart.bounded Heart.init).
  { unfold Heart.bounded, Heart.ekg_in_closed_unit. cbn.
    repeat split; lra. }
  pose proof (short_trace_bounded cs Heart.init Hs Hinit) as Hb.
  eapply Forall_impl; [|exact Hb].
  intros h (_ & _ & He). exact He.
Qed.

Lemma ekgOffset_stays_in_closed_unit_interval_witness :
  Forall Heart.ekg_in_closed_unit
    (Heart.trace [Heart.rest (1 # 2) 0; Heart.rest (1 # 2) 0;
                  Heart.rest (1 # 2) 0; Heart.rest (1 # 2) 0; Heart.hold]
       Heart.init).
Proof.
  apply ekgOffset_stays_in_closed_unit_interval.
  repeat constructor; cbn; try lia; unfold Qle; cbn; lia.
Defined.

(** *** Holding the run key *)

Lemma step_hold h :
  (Heart.targetBpm h + (1 # 2) <= 220)%Q ->
  (Heart.bpm h <= Heart.targetBpm h)%Q ->
  (Heart.targetBpm (Heart.step Heart.hold h) == Heart.targetBpm h + (1 # 2))%Q /\
  (Heart.bpm h < Heart.bpm (Heart.step Heart.hold h))%Q /\
  (Heart.bpm (Heart.step Heart.hold h)
     < Heart.targetBpm (Heart.step Heart.hold h))%Q.
Proof.
  intros Hcap Hlag.
  pose proof (step_bpm Heart.hold h) as Eb.
  pose proof (step_targetBpm_running Heart.hold h eq_refl) as ET.
  change (Heart.deltaTime Heart.hold) with (1 # 60) in *.
  set (T' := Heart.targetBpm (Heart.step Heart.hold h)) in *.
  set (b' := Heart.bpm (Heart.step Heart.hold h)) in *.
  set (T := Heart.targetBpm h) in *. set (b := Heart.bpm h) in *.
  clearbody T' b' T b.
  destruct (std_min_cases (T + 30 * (1 # 60)) 220) as [[Hc E]|[Hc E]];
    rewrite E in ET; subst T' b'; repeat split; lra.
Qed.

(** [k] frames of 1/60 s with the key held, from a state whose [bpm] does
    not lead the target and whose target has room for [k] half steps. *)
Lemma hold_frames k : forall h,
  (Heart.targetBpm h + inject_Z (Z.of_nat k) * (1 # 2) <= 220)%Q ->
  (Heart.bpm h <= Heart.targetBpm h)%Q ->
  Heart.bpm_increasing (Heart.bpm h) (Heart.trace (repeat Heart.hold k) h) /\
  (Heart.targetBpm (Heart.run (repeat Heart.hold k) h)
     == Heart.targetBpm h + inject_Z (Z.of_nat k) * (1 # 2))%Q /\
  (Heart.bpm (Heart.run (repeat Heart.hold k) h)
     <= Heart.targetBpm (Heart.run (repeat Heart.hold k) h))%Q /\
  ((0 < k)%nat ->
   (Heart.bpm (Heart.run (repeat Heart.hold k) h)
      < Heart.targetBpm (Heart.run (repeat Heart.hold k) h))%Q).
Proof.
  induction k as [|k IH]; intros h Hcap Hlag.
  - cbn [repeat Heart.trace Heart.run fold_left Heart.bpm_increasing].
    change (inject_Z (Z.of_nat 0)) with 0%Q.
    split; [exact I|]. split; [ring|]. split; [exact Hlag|].
    intros Hk. inversion Hk.
  - rewrite Nat2Z.inj_succ in *. unfold Z.succ in *.
    rewrite inject_Z_plus in *. change (inject_Z 1) with 1%Q in *.
    assert (Hk0 : (0 <= inject_Z (Z.of_nat k))%Q).
    { change 0%Q with (inject_Z 0). rewrite <- Zle_Qle. lia. }
    set (kq := inject_Z (Z.of_nat k)) in *.
    destruct (step_hold h) as (ET & Hup & Hbelow); [lra | exact Hlag |].
    cbn [repeat Heart.trace Heart.run fold_left].
    change (fold_left _ ?l ?x) with (Heart.run l x).
    destruct (IH (Heart.step Heart.hold h)) as (I1 & I2 & I3 & I4);
      [fold kq; lra | lra |].
    fold kq in I2.
    split; [split; [exact Hup | exact I1]|].
    split; [rewrite I2, ET; ring|].
    split; [exact I3|].
    intros _. destruct k as [|k]; [exact Hbelow | apply I4; lia].
Qed.

(** C8.  From [bpm] = [targetBpm] = 70, after 180 calls of
    [updateHeartRate] with [deltaTime] = 1/60 and [isRunning] set,
    [targetBpm] is min(70 + 90, 220) = 160; [bpm] has gone up at every one
    of the calls and is still below 160. *)
Theorem running_three_seconds :
  let h := Heart.run (repeat Heart.hold 180) Heart.init in
  (Heart.targetBpm h == std_min (70 + 90) 220)%Q /\
  (Heart.targetBpm h == 160)%Q /\
  Heart.bpm_increasing 70 (Heart.trace (repeat Heart.hold 180) Heart.init) /\
  (Heart.bpm h < 160)%Q.
Proof.
  cbn zeta.
  destruct (hold_frames 180 Heart.init) as (I1 & I2 & I3 & I4).
  - vm_compute. discriminate.
  - cbn. lra.
  - specialize (I4 ltac:(lia)).
    assert (E : (Heart.targetBpm (Heart.run (repeat Heart.hold 180) Heart.init)
                 == 160)%Q).
    { rewrite I2. reflexivity. }
    split; [rewrite E; reflexivity|]. split; [exact E|].
    split; [exact I1|]. rewrite E in I4. exact I4.
Qed.

(** ** Screen navigation *)

Lemma set_currentScreen_same u :
  Nav.set_currentScreen (Nav.currentScreen u) u = u.
Proof. destruct u; reflexivity. Qed.

Lemma render_on_clock u :
  Nav.currentScreen u = 0 ->
  Nav.renderWatchScreen u = Nav.drawClockScreen u.
Proof. unfold Nav.renderWatchScreen. now intros ->. Qed.

Lemma render_on_heart u :
  Nav.currentScreen u = 1 ->
  Nav.renderWatchScreen u = Nav.drawHeartRateScreen u.
Proof. unfold Nav.renderWatchScreen. now intros ->. Qed.

Lemma render_on_battery u :
  Nav.currentScreen u = 2 ->
  Nav.renderWatchScreen u = Nav.drawBatteryScreen u.
Proof. unfold Nav.renderWatchScreen. now intros ->. Qed.

Lemma render_elsewhere u :
  Nav.currentScreen u <> 0 -> Nav.currentScreen u <> 1 ->
  Nav.currentScreen u <> 2 ->
  Nav.renderWatchScreen u = u.
Proof.
  unfold Nav.renderWatchScreen.
  destruct (Nav.currentScreen u) as [|[[p|p|]|[p|p|]|]|p];
    intros H0 H1 H2; try reflexivity; congruence.
Qed.

(** The two arrow icons do not overlap. *)
Lemma arrows_disjoint u :
  Nav.inLeftArrow u = true -> Nav.inRightArrow u = false.
Proof.
  unfold Nav.inLeftArrow, Nav.inRightArrow, Nav.isPointInRect.
  intros H. apply andb_prop in H as [H _]. apply andb_prop in H as [H _].
  apply andb_prop in H as [_ H]. apply Qleb_spec in H.
  destruct (Qgeb (Nav.normMouseX u) (Nav.rightArrowX - Nav.arrowSize)) eqn:E;
    [|reflexivity].
  apply Qgeb_spec in E. exfalso.
  unfold Nav.leftArrowX, Nav.rightArrowX, Nav.arrowSize in *.
  set (px := Nav.normMouseX u) in *. lra.
Qed.

(** Without watch-view mode or without a click nothing changes. *)
Lemma render_without_click u :
  Nav.watchViewMode u && Nav.mouseClicked u = false ->
  Nav.renderWatchScreen u = u.
Proof.
  intros H. unfold Nav.renderWatchScreen, Nav.drawClockScreen,
    Nav.drawHeartRateScreen, Nav.drawBatteryScreen. rewrite H.
  destruct (Nav.currentScreen u) as [|[[p|p|]|[p|p|]|]|p]; reflexivity.
Qed.

(** A click on neither arrow changes nothing. *)
Lemma render_off_arrows u :
  Nav.inLeftArrow u = false -> Nav.inRightArrow u = false ->
  Nav.renderWatchScreen u = u.
Proof.
  intros HL HR. unfold Nav.renderWatchScreen, Nav.drawClockScreen,
    Nav.drawHeartRateScreen, Nav.drawBatteryScreen. rewrite HL, HR.
  destruct (Nav.watchViewMode u && Nav.mouseClicked u);
    destruct (Nav.currentScreen u) as [|[[p|p|]|[p|p|]|]|p]; reflexivity.
Qed.

(** [renderWatchScreen] writes [currentScreen] and nothing else. *)
Lemma render_writes_screen_only u :
  Nav.renderWatchScreen u
  = Nav.set_currentScreen (Nav.currentScreen (Nav.renderWatchScreen u)) u.
Proof.
  unfold Nav.renderWatchScreen, Nav.drawClockScreen,
    Nav.drawHeartRateScreen, Nav.drawBatteryScreen.
  destruct (Nav.currentScreen u) as [|[[p|p|]|[p|p|]|]|p] eqn:E;
    rewrite <- ?E; try (symmetry; apply set_currentScreen_same);
    destruct (Nav.watchViewMode u && Nav.mouseClicked u);
    try (symmetry; apply set_currentScreen_same);
    destruct (Nav.inLeftArrow u), (Nav.inRightArrow u);
    try (symmetry; apply set_currentScreen_same); reflexivity.
Qed.

Lemma navigation_step_to_heart u :
  Nav.currentScreen u = 0 ->
  Nav.watchViewMode u && Nav.mouseClicked u = true ->
  Nav.inRightArrow u = true ->
  Nav.currentScreen (Nav.renderWatchScreen u) = 1.
Proof.
  intros Hs Hc Hr. rewrite (render_on_clock u Hs).
  unfold Nav.drawClockScreen. now rewrite Hc, Hr.
Qed.

(** C5.  With 0 = Clock, 1 = HeartRate, 2 = Battery, and a click meaning
    [mouseClicked] in watch-view mode: from Clock a click on the right
    arrow leads to HeartRate and nothing else leaves Clock; from HeartRate
    a click on the left arrow leads to Clock and one on the right arrow to
    Battery, and nothing else leaves HeartRate; from Battery a click on the
    left arrow leads to HeartRate and nothing else leaves Battery, a click
    on the right arrow in particular; a click on neither arrow, or
    anything outside watch-view mode, leaves [currentScreen] as it is, as
    does every call with another screen index; and [currentScreen] is all
    that [renderWatchScreen] writes. *)
Theorem navigation_transitions (u : Nav.t) :
  let s := Nav.currentScreen u in
  let s' := Nav.currentScreen (Nav.renderWatchScreen u) in
  let click := Nav.watchViewMode u && Nav.mouseClicked u in
  (s = 0 -> click = true -> Nav.inRightArrow u = true -> s' = 1) /\
  (s = 0 -> s' <> 0 ->
     s' = 1 /\ Nav.watchViewMode u = true /\ Nav.mouseClicked u = true /\
     Nav.inRightArrow u = true) /\
  (s = 1 -> click = true -> Nav.inLeftArrow u = true -> s' = 0) /\
  (s = 1 -> click = true -> Nav.inRightArrow u = true -> s' = 2) /\
  (s = 2 -> click = true -> Nav.inLeftArrow u = true -> s' = 1) /\
  (Nav.inLeftArrow u = false -> Nav.inRightArrow u = false -> s' = s) /\
  (Nav.watchViewMode u = false -> s' = s) /\
  (s = 0 -> click = true -> Nav.inLeftArrow u = true -> s' = 0) /\
  (s = 2 -> click = true -> Nav.inRightArrow u = true -> s' = 2) /\
  (s = 1 -> s' <> 1 ->
     Nav.watchViewMode u = true /\ Nav.mouseClicked u = true /\
     ((s' = 0 /\ Nav.inLeftArrow u = true) \/
      (s' = 2 /\ Nav.inRightArrow u = true))) /\
  (s = 2 -> s' <> 2 ->
     s' = 1 /\ Nav.watchViewMode u = true /\ Nav.mouseClicked u = true /\
     Nav.inLeftArrow u = true) /\
  (s <> 0 -> s <> 1 -> s <> 2 -> s' = s) /\
  Nav.renderWatchScreen u = Nav.set_currentScreen s' u.
Proof.
  cbn zeta. repeat apply conj.
  - apply navigation_step_to_heart.
  - intros Hs. rewrite (render_on_clock u Hs). unfold Nav.drawClockScreen.
    destruct (Nav.watchViewMode u) eqn:Hv, (Nav.mouseClicked u) eqn:Hm;
      cbn [andb]; try (intros Hn; congruence).
    destruct (Nav.inRightArrow u); [cbn; auto | intros Hn; congruence].
  - intros Hs Hc Hl. rewrite (render_on_heart u Hs).
    unfold Nav.drawHeartRateScreen.
    now rewrite Hc, Hl, (arrows_disjoint u Hl).
  - intros Hs Hc Hr. rewrite (render_on_heart u Hs).
    unfold Nav.drawHeartRateScreen. rewrite Hc, Hr.
    now destruct (Nav.inLeftArrow u).
  - intros Hs Hc Hl. rewrite (render_on_battery u Hs).
    unfold Nav.drawBatteryScreen. now rewrite Hc, Hl.
  - intros Hl Hr. now rewrite (render_off_arrows u Hl Hr).
  - intros Hv. rewrite render_without_click; [reflexivity|].
    now rewrite Hv.
  - intros Hs Hc Hl. rewrite (render_on_clock u Hs).
    unfold Nav.drawClockScreen. now rewrite Hc, (arrows_disjoint u Hl).
  - intros Hs Hc Hr. rewrite (render_on_battery u Hs).
    unfold Nav.drawBatteryScreen. rewrite Hc.
    destruct (Nav.inLeftArrow u) eqn:Hl; [|exact Hs].
    rewrite (arrows_disjoint u Hl) in Hr. discriminate Hr.
  - intros Hs. rewrite (render_on_heart u Hs).
    unfold Nav.drawHeartRateScreen.
    destruct (Nav.watchViewMode u) eqn:Hv, (Nav.mouseClicked u) eqn:Hm;
      cbn [andb]; try (intros Hn; congruence).
    destruct (Nav.inLeftArrow u) eqn:Hl.
    + rewrite (arrows_disjoint u Hl). cbn. auto.
    + destruct (Nav.inRightArrow u); [cbn; auto | intros Hn; congruence].
  - intros Hs. rewrite (render_on_battery u Hs).
    unfold Nav.drawBatteryScreen.
    destruct (Nav.watchViewMode u) eqn:Hv, (Nav.mouseClicked u) eqn:Hm;
      cbn [andb]; try (intros Hn; congruence).
    destruct (Nav.inLeftArrow u); [cbn; auto | intros Hn; congruence].
  - intros H0 H1 H2. now rewrite (render_elsewhere u H0 H1 H2).
  - apply render_writes_screen_only.
Qed.

Lemma navigation_transitions_witness :
  Nav.currentScreen
    (Nav.renderWatchScreen (Nav.pointer_at 0 true true 1728 540)) = 1 /\
  Nav.currentScreen
    (Nav.renderWatchScreen (Nav.pointer_at 1 true true 192 540)) = 0 /\
  Nav.currentScreen
    (Nav.renderWatchScreen (Nav.pointer_at 1 true true 1728 540)) = 2 /\
  Nav.currentScreen
    (Nav.renderWatchScreen (Nav.pointer_at 2 true true 192 540)) = 1 /\
  Nav.currentScreen
    (Nav.renderWatchScreen (Nav.pointer_at 2 false true 192 540)) = 2 /\
  Nav.currentScreen
    (Nav.renderWatchScreen (Nav.pointer_at 0 true true 192 540)) = 0 /\
  Nav.currentScreen
    (Nav.renderWatchScreen (Nav.pointer_at 2 true true 1728 540)) = 2.
Proof.
  repeat apply conj.
  - pose proof (navigation_transitions (Nav.pointer_at 0 true true 1728 540))
      as (H & _).
    apply H; reflexivity.
  - pose proof (navigation_transitions (Nav.pointer_at 1 true true 192 540))
      as (_ & _ & H & _).
    apply H; reflexivity.
  - pose proof (navigation_transitions (Nav.pointer_at 1 true true 1728 540))
      as (_ & _ & _ & H & _).
    apply H; reflexivity.
  - pose proof (navigation_transitions (Nav.pointer_at 2 true true 192 540))
      as (_ & _ & _ & _ & H & _).
    apply H; reflexivity.
  - pose proof (navigation_transitions (Nav.pointer_at 2 false true 192 540))
      as (_ & _ & _ & _ & _ & _ & H & _).
    apply H; reflexivity.
  - pose proof (navigation_transitions (Nav.pointer_at 0 true true 192 540))
      as (_ & _ & _ & _ & _ & _ & _ & H & _).
    apply H; reflexivity.
  - pose proof (navigation_transitions (Nav.pointer_at 2 true true 1728 540))
      as (_ & _ & _ & _ & _ & _ & _ & _ & H & _).
    apply H; reflexivity.
Defined.

(** ** The click flag in the frame loop *)

Lemma dispatch_currentScreen u e :
  Nav.currentScreen (Nav.dispatch u e) = Nav.currentScreen u.
Proof.
  destruct e as [button action|xpos ypos|key action]; cbn;
    unfold Nav.mouse_button_callback, Nav.key_callback;
    try reflexivity;
    match goal with |- context [if ?c then _ else _] => destruct c end;
    reflexivity.
Qed.

Lemma pollEvents_currentScreen es : forall u,
  Nav.currentScreen (Nav.pollEvents es u) = Nav.currentScreen u.
Proof.
  induction es as [|e es IH]; intros u; [reflexivity|].
  cbn [Nav.pollEvents fold_left].
  change (fold_left Nav.dispatch es ?x) with (Nav.pollEvents es x).
  now rewrite IH, dispatch_currentScreen.
Qed.

Lemma dispatch_mouseClicked u e :
  Nav.mouseClicked (Nav.dispatch u e)
  = Nav.mouseClicked u || Nav.is_left_press e.
Proof.
  destruct e as [button action|xpos ypos|key action]; cbn;
    unfold Nav.mouse_button_callback, Nav.key_callback.
  - destruct ((button =? _) && (action =? _)); cbn;
      [now rewrite orb_true_r | now rewrite orb_false_r].
  - now rewrite orb_false_r.
  - destruct ((key =? _) && (action =? _)); cbn; now rewrite orb_false_r.
Qed.

Lemma pollEvents_mouseClicked es : forall u,
  Nav.mouseClicked (Nav.pollEvents es u)
  = Nav.mouseClicked u || existsb Nav.is_left_press es.
Proof.
  induction es as [|e es IH]; intros u; [cbn; now rewrite orb_false_r|].
  cbn [Nav.pollEvents fold_left existsb].
  change (fold_left Nav.dispatch es ?x) with (Nav.pollEvents es x).
  now rewrite IH, dispatch_mouseClicked, orb_assoc.
Qed.

(** Any number of queued presses leaves the same state as one press. *)
Lemma pollEvents_presses n : forall u,
  Nav.pollEvents (repeat Nav.left_press (S n)) u = Nav.set_mouseClicked true u.
Proof.
  induction n as [|n IH]; intros u; [reflexivity|].
  change (repeat Nav.left_press (S (S n)))
    with (Nav.left_press :: repeat Nav.left_press (S n)).
  cbn [Nav.pollEvents fold_left].
  change (fold_left Nav.dispatch ?l ?x) with (Nav.pollEvents l x).
  rewrite IH. reflexivity.
Qed.

Lemma render_mouseClicked u :
  Nav.mouseClicked (Nav.renderWatchScreen u) = Nav.mouseClicked u.
Proof. now rewrite render_writes_screen_only. Qed.

Lemma frame_body_resets i w :
  Nav.mouseClicked (Loop.ui (Loop.frame_body i w)) = false.
Proof. reflexivity. Qed.

Lemma frame_mouseClicked i w :
  Nav.mouseClicked (Loop.ui (Loop.frame i w))
  = existsb Nav.is_left_press (Loop.events i).
Proof.
  unfold Loop.frame. cbn [Loop.ui Loop.with_ui].
  now rewrite pollEvents_mouseClicked, frame_body_resets.
Qed.

Lemma frame_currentScreen i w :
  Nav.currentScreen (Loop.ui (Loop.frame i w))
  = Nav.currentScreen (Nav.renderWatchScreen (Loop.ui w)).
Proof.
  unfold Loop.frame. cbn [Loop.ui Loop.with_ui].
  now rewrite pollEvents_currentScreen.
Qed.

(** With the flag down and no press arriving, frames leave the screen
    alone. *)
Lemma quiet_frames_keep_screen ins : forall w,
  Nav.mouseClicked (Loop.ui w) = false ->
  Forall Loop.quiet ins ->
  Nav.currentScreen (Loop.ui (Loop.frames ins w))
  = Nav.currentScreen (Loop.ui w).
Proof.
  induction ins as [|i ins IH]; intros w Hm Hq; [reflexivity|].
  inversion Hq as [|? ? Hi Hins]; subst.
  cbn [Loop.frames fold_left].
  change (fold_left _ ins ?x) with (Loop.frames ins x).
  rewrite IH; [|now rewrite frame_mouseClicked|exact Hins].
  rewrite frame_currentScreen, render_without_click; [reflexivity|].
  rewrite Hm. apply andb_false_r.
Qed.

(** C6.  Every iteration of the frame loop ends its body with the click
    flag down, whatever the draw functions did with the click, and the
    draw functions do not touch the flag; after the poll the flag is up
    exactly when a left press arrived.  So when one or more presses queue
    in one poll while the Clock screen is shown in watch-view mode with the
    pointer on the right arrow, the next iteration moves to HeartRate, and
    [currentScreen] is still HeartRate after any further iterations in
    which no new press arrives. *)
Theorem click_flag_single_shot :
  (forall (i : Loop.input) (w : Loop.world),
     Nav.mouseClicked (Loop.ui (Loop.frame_body i w)) = false /\
     Nav.mouseClicked (Nav.renderWatchScreen (Loop.ui w))
       = Nav.mouseClicked (Loop.ui w) /\
     Nav.mouseClicked (Loop.ui (Loop.frame i w))
       = existsb Nav.is_left_press (Loop.events i)) /\
  (forall (w : Loop.world) (n : nat) (i : Loop.input) (ins : list Loop.input),
     Nav.currentScreen (Loop.ui w) = 0 ->
     Nav.watchViewMode (Loop.ui w) = true ->
     Nav.inRightArrow (Loop.ui w) = true ->
     Forall Loop.quiet (i :: ins) ->
     let w0 :=
       Loop.with_ui
         (Nav.pollEvents (repeat Nav.left_press (S n)) (Loop.ui w)) w in
     Nav.currentScreen (Loop.ui (Loop.frame i w0)) = 1 /\
     Nav.currentScreen (Loop.ui (Loop.frames (i :: ins) w0)) = 1).
Proof.
  split.
  - intros i w. split; [apply frame_body_resets|].
    split; [apply render_mouseClicked | apply frame_mouseClicked].
  - intros w n i ins Hs Hv Hr Hq. cbn zeta.
    inversion Hq as [|? ? Hi Hins]; subst.
    rewrite pollEvents_presses.
    assert (H1 : Nav.currentScreen
                   (Loop.ui (Loop.frame i
                      (Loop.with_ui (Nav.set_mouseClicked true (Loop.ui w)) w)))
                 = 1).
    { rewrite frame_currentScreen. cbn [Loop.ui Loop.with_ui].
      apply (navigation_step_to_heart (Nav.set_mouseClicked true (Loop.ui w)));
        cbn; [exact Hs | now rewrite Hv | exact Hr]. }
    split; [exact H1|].
    cbn [Loop.frames fold_left].
    change (fold_left _ ins ?x) with (Loop.frames ins x).
    rewrite quiet_frames_keep_screen; [exact H1| |exact Hins].
    now rewrite frame_mouseClicked.
Qed.

Lemma click_flag_single_shot_witness :
  let w := Loop.start (Nav.pointer_at 0 true false 1728 540) in
  let i := Loop.mkinput (1 # 60) (1 # 60) false 0
             [Nav.CursorPos 1700 500; Nav.MouseButton 1 1] in
  let ins := [Loop.mkinput (2 # 60) (2 # 60) false 0 []] in
  let w0 :=
    Loop.with_ui (Nav.pollEvents (repeat Nav.left_press 3) (Loop.ui w)) w in
  Nav.currentScreen (Loop.ui (Loop.frame i w0)) = 1 /\
  Nav.currentScreen (Loop.ui (Loop.frames (i :: ins) w0)) = 1.
Proof.
  intros w i ins.
  pose proof click_flag_single_shot as (_ & H).
  apply (H w 2%nat i ins).
  - reflexivity.
  - reflexivity.
  - reflexivity.
  - repeat constructor.
Defined.

(** ** Building placement *)

Lemma span_is_100 : (Scene.span == 100)%Q.
Proof. reflexivity. Qed.

Lemma far_edge_is_minus_100 : (Scene.far_edge == - (100))%Q.
Proof. reflexivity. Qed.

(** When the first loop ends, [pos.z] is at most 10; it has not moved if it
    was at most 10, and is above -90 otherwise. *)
Lemma wrap_back_result fuel : forall pz r,
  Scene.wrap_back fuel pz = Some r ->
  (r <= 10)%Q /\ ((pz <= 10)%Q -> r = pz) /\ ((10 < pz)%Q -> (-90 < r)%Q).
Proof.
  pose proof span_is_100 as Hs.
  induction fuel as [|fuel IH]; intros pz r; cbn;
    destruct (Qgtb pz 10) eqn:E; intros H; try discriminate H.
  - injection H as <-. apply Qgtb_false in E.
    repeat split; [exact E | lra].
  - apply Qgtb_spec in E. destruct (IH _ _ H) as (I1 & I2 & I3).
    split; [exact I1|]. split; [lra|]. intros _.
    destruct (Qlt_le_dec 10 (pz - Scene.span)) as [Hfar|Hnear].
    + now apply I3.
    + rewrite (I2 Hnear). lra.
  - injection H as <-. apply Qgtb_false in E.
    repeat split; [exact E | lra].
Qed.

Lemma wrap_back_terminates fuel : forall pz,
  (pz <= 10 + inject_Z (Z.of_nat fuel) * 100)%Q ->
  exists r, Scene.wrap_back fuel pz = Some r.
Proof.
  pose proof span_is_100 as Hs.
  induction fuel as [|fuel IH]; intros pz Hpz; cbn;
    destruct (Qgtb pz 10) eqn:E; eauto.
  - apply Qgtb_spec in E. change (inject_Z (Z.of_nat 0)) with 0%Q in Hpz. lra.
  - apply IH. rewrite Nat2Z.inj_succ in Hpz. unfold Z.succ in Hpz.
    rewrite inject_Z_plus in Hpz. change (inject_Z 1) with 1%Q in Hpz.
    set (k := inject_Z (Z.of_nat fuel)) in *. lra.
Qed.

(** When the second loop ends, [pos.z] is at least -100; it has not moved
    if it was at least -100, and is below 0 otherwise. *)
Lemma wrap_forward_result fuel : forall pz r,
  Scene.wrap_forward fuel pz = Some r ->
  (-100 <= r)%Q /\ ((-100 <= pz)%Q -> r = pz) /\ ((pz < -100)%Q -> (r < 0)%Q).
Proof.
  pose proof span_is_100 as Hs. pose proof far_edge_is_minus_100 as Hf.
  induction fuel as [|fuel IH]; intros pz r; cbn;
    destruct (Qltb pz Scene.far_edge) eqn:E; intros H; try discriminate H.
  - injection H as <-. apply Qltb_false in E.
    repeat split; [lra | lra].
  - apply Qltb_spec in E. destruct (IH _ _ H) as (I1 & I2 & I3).
    split; [exact I1|]. split; [lra|]. intros _.
    destruct (Qlt_le_dec (pz + Scene.span) (-100)) as [Hfar|Hnear].
    + now apply I3.
    + rewrite (I2 Hnear). lra.
  - injection H as <-. apply Qltb_false in E.
    repeat split; [lra | lra].
Qed.

Lemma wrap_forward_terminates fuel : forall pz,
  (- (100) - inject_Z (Z.of_nat fuel) * 100 <= pz)%Q ->
  exists r, Scene.wrap_forward fuel pz = Some r.
Proof.
  pose proof span_is_100 as Hs. pose proof far_edge_is_minus_100 as Hf.
  induction fuel as [|fuel IH]; intros pz Hpz; cbn;
    destruct (Qltb pz Scene.far_edge) eqn:E; eauto.
  - apply Qltb_spec in E. change (inject_Z (Z.of_nat 0)) with 0%Q in Hpz. lra.
  - apply IH. rewrite Nat2Z.inj_succ in Hpz. unfold Z.succ in Hpz.
    rewrite inject_Z_plus in Hpz. change (inject_Z 1) with 1%Q in Hpz.
    set (k := inject_Z (Z.of_nat fuel)) in *. lra.
Qed.












(** ** The digit texture *)

Lemma upd_length i v data :
  List.length (Digits.upd i v data) = List.length data.
Proof.
  revert i. induction data as [|a data IH]; intros [|i]; cbn;
    try reflexivity.
  now rewrite IH.
Qed.

Lemma store_in_bounds n idx v :
  0 <= idx < n -> Digits.in_bounds n (Digits.store idx v).
Proof.
  intros Hidx data Hn. unfold Digits.sized in *. unfold Digits.store.
  replace (0 <=? idx) with true by (symmetry; apply Z.leb_le; lia).
  replace (idx <? Z.of_nat (List.length data)) with true
    by (symmetry; apply Z.ltb_lt; lia).
  cbn. eexists. split; [reflexivity|]. now rewrite upd_length.
Qed.

Lemma skip_in_bounds n : Digits.in_bounds n (fun data => Some data).
Proof. intros data Hn. eauto. Qed.

Lemma bind_in_bounds n f g :
  Digits.in_bounds n f -> Digits.in_bounds n g ->
  Digits.in_bounds n (fun data => Digits.bind (f data) g).
Proof.
  intros Hf Hg data Hn. destruct (Hf data Hn) as (d1 & E1 & H1).
  rewrite E1. cbn. apply Hg, H1.
Qed.

(** A loop is in bounds when its body is, at every value the counter
    takes. *)
Lemma iterate_in_bounds n step body k : forall i,
  (forall j, 0 <= j < Z.of_nat k ->
             Digits.in_bounds n (body (i + j * step))) ->
  Digits.in_bounds n (Digits.iterate k i step body).
Proof.
  induction k as [|k IH]; intros i Hbody; cbn [Digits.iterate].
  - apply skip_in_bounds.
  - apply (bind_in_bounds n (body i)).
    + replace i with (i + 0 * step) by lia. apply Hbody. lia.
    + apply IH. intros j Hj.
      replace (i + step + j * step) with (i + (j + 1) * step) by lia.
      apply Hbody. lia.
Qed.

Lemma for_range_in_bounds n lo hi body :
  (forall i, Digits.in_bounds n (body i)) ->
  Digits.in_bounds n (Digits.for_range lo hi body).
Proof.
  intros Hbody. unfold Digits.for_range, Digits.for_step.
  apply iterate_in_bounds. intros j _. apply Hbody.
Qed.

(** The bounds check of [setPixel] keeps its four stores inside the
    buffer. *)
Lemma setPixel_in_bounds width height x y r g b :
  0 <= width -> 0 <= height ->
  Digits.in_bounds (width * height * 4)
    (Digits.setPixel width height x y r g b).
Proof.
  intros Hw Hh. unfold Digits.setPixel.
  destruct ((x >=? 0) && (x <? width) && (y >=? 0) && (y <? height)) eqn:E;
    [|apply skip_in_bounds].
  apply andb_prop in E as [E Hy2]. apply andb_prop in E as [E Hy1].
  apply andb_prop in E as [Hx1 Hx2].
  rewrite Z.geb_leb in Hx1, Hy1.
  apply Z.leb_le in Hx1, Hy1. apply Z.ltb_lt in Hx2, Hy2.
  assert (Hidx : 0 <= (y * width + x) * 4
                 /\ (y * width + x) * 4 + 3 < width * height * 4) by nia.
  repeat apply bind_in_bounds; apply store_in_bounds; lia.
Qed.

(** Outside the texture [setPixel] stores nothing. *)
Lemma setPixel_clipped width height x y r g b data :
  ~ (0 <= x < width /\ 0 <= y < height) ->
  Digits.setPixel width height x y r g b data = Some data.
Proof.
  intros Hout. unfold Digits.setPixel.
  destruct ((x >=? 0) && (x <? width) && (y >=? 0) && (y <? height)) eqn:E;
    [|reflexivity].
  exfalso. apply Hout.
  apply andb_prop in E as [E Hy2]. apply andb_prop in E as [E Hy1].
  apply andb_prop in E as [Hx1 Hx2].
  rewrite Z.geb_leb in Hx1, Hy1.
  apply Z.leb_le in Hx1, Hy1. apply Z.ltb_lt in Hx2, Hy2. lia.
Qed.

Section TextureBounds.

Variables width height : Z.
Hypothesis width_nonneg : 0 <= width.
Hypothesis height_nonneg : 0 <= height.

Lemma px_in_bounds x y :
  Digits.in_bounds (width * height * 4) (Digits.px width height x y).
Proof. now apply setPixel_in_bounds. Qed.

Lemma drawSegment_in_bounds offsetX seg :
  Digits.in_bounds (width * height * 4)
    (Digits.drawSegment width height offsetX seg).
Proof.
  unfold Digits.drawSegment.
  destruct seg as [|[[p|p|]|[p|p|]|]|p];
    try apply skip_in_bounds;
    try destruct p as [p|p|]; try apply skip_in_bounds;
    (apply for_range_in_bounds; intros t;
     apply for_range_in_bounds; intros i; apply px_in_bounds).
Qed.

Lemma drawColon_in_bounds offsetX :
  Digits.in_bounds (width * height * 4)
    (Digits.drawColon width height offsetX).
Proof.
  unfold Digits.drawColon.
  apply for_range_in_bounds; intros dy.
  apply for_range_in_bounds; intros dx.
  apply (bind_in_bounds _ (Digits.px width height _ _)); apply px_in_bounds.
Qed.

Lemma drawChar_in_bounds digitStr i :
  Digits.in_bounds (width * height * 4)
    (Digits.drawChar width height digitStr i).
Proof.
  unfold Digits.drawChar.
  destruct (Digits.char_at digitStr i =? 58); [apply drawColon_in_bounds|].
  destruct ((_ >=? 48) && (_ <=? 57)); [|apply skip_in_bounds].
  apply for_range_in_bounds; intros s.
  destruct (Digits.segment_on _ s);
    [apply drawSegment_in_bounds | apply skip_in_bounds].
Qed.

End TextureBounds.

Lemma strlen_nonneg s : 0 <= Digits.strlen s.
Proof.
  induction s as [|c s IH]; cbn [Digits.strlen]; [lia|].
  destruct (Ascii.eqb c Ascii.zero); lia.
Qed.

(** The clearing loop stays inside the buffer: its size is a multiple of
    the step. *)
Lemma clear_in_bounds pixels :
  0 <= pixels ->
  Digits.in_bounds (pixels * 4)
    (Digits.for_step 0 (pixels * 4) 4 (fun i data =>
       Digits.bind (Digits.bind (Digits.bind (Digits.store i 0 data)
         (Digits.store (i + 1) 0)) (Digits.store (i + 2) 0))
         (Digits.store (i + 3) 0))).
Proof.
  intros Hp. unfold Digits.for_step.
  replace ((pixels * 4 - 0 + 4 - 1) / 4) with pixels
    by (apply Z.div_unique with 3; lia).
  apply iterate_in_bounds. intros j Hj. rewrite Z2Nat.id in Hj by lia.
  repeat apply bind_in_bounds; apply store_in_bounds; lia.
Qed.

Lemma createDigitTexture_in_bounds fill digitStr :
  exists data,
    Digits.createDigitTexture fill digitStr = Some data /\
    Digits.sized (Digits.charWidth * Digits.strlen digitStr
                  * Digits.charHeight * 4) data.
Proof.
  unfold Digits.createDigitTexture.
  pose proof (strlen_nonneg digitStr) as Hlen.
  set (width := Digits.charWidth * Digits.strlen digitStr).
  assert (Hw : 0 <= width) by (subst width; unfold Digits.charWidth; lia).
  assert (Hh : 0 <= Digits.charHeight) by (unfold Digits.charHeight; lia).
  assert (Hsize : 0 <= width * Digits.charHeight) by lia.
  apply (bind_in_bounds (width * Digits.charHeight * 4)
           (Digits.for_step 0 (width * Digits.charHeight * 4) 4 _)
           (Digits.for_range 0 (Digits.strlen digitStr)
              (Digits.drawChar width Digits.charHeight digitStr))).
  - apply (clear_in_bounds (width * Digits.charHeight) Hsize).
  - apply for_range_in_bounds. intros i. now apply drawChar_in_bounds.
  - unfold Digits.sized. rewrite repeat_length, Z2Nat.id by lia. reflexivity.
Qed.

Lemma for_range_in_bounds_within n lo hi body :
  (forall i, lo <= i < hi -> Digits.in_bounds n (body i)) ->
  Digits.in_bounds n (Digits.for_range lo hi body).
Proof.
  intros Hbody. unfold Digits.for_range, Digits.for_step.
  apply iterate_in_bounds. intros j Hj. apply Hbody.
  replace ((hi - lo + 1 - 1) / 1) with (hi - lo) in Hj
    by (rewrite Z.div_1_r; lia).
  lia.
Qed.

Lemma repeat_sized fill n : 0 <= n -> Digits.sized n (repeat fill (Z.to_nat n)).
Proof.
  intros Hn. unfold Digits.sized. now rewrite repeat_length, Z2Nat.id.
Qed.

(** *** The same with 32-bit [int]s *)

(** ** 32-bit integers *)

Lemma wrap_fits (v : Z) :
  -2147483648 <= v <= Digits.INT_MAX -> Int32.wrap v = v.
Proof.
  unfold Int32.wrap, Digits.INT_MAX. intros H.
  rewrite Z.mod_small by lia. lia.
Qed.

Lemma wrap_once (v : Z) :
  2147483648 <= v < 6442450944 -> Int32.wrap v = v - 4294967296.
Proof.
  unfold Int32.wrap. intros H.
  replace (v + 2147483648) with (v - 2147483648 + 1 * 4294967296) by lia.
  rewrite Z.mod_add by lia. rewrite Z.mod_small by lia. lia.
Qed.

Ltac unwrap :=
  unfold Int32.add, Int32.sub, Int32.mul;
  repeat match goal with
  | |- context [Int32.wrap ?v] =>
      rewrite (wrap_fits v)
        by (unfold Digits32.height, Digits.INT_MAX, Digits.charWidth,
              Digits.charHeight in *; nia)
  end.

Lemma iterate_ext step f g k : forall i data,
  (forall j d, 0 <= j < Z.of_nat k -> f (i + j * step) d = g (i + j * step) d) ->
  Digits.iterate k i step f data = Digits.iterate k i step g data.
Proof.
  induction k as [|k IH]; intros i data H; cbn [Digits.iterate];
    [reflexivity|].
  replace (f i data) with (g i data).
  2:{ replace i with (i + 0 * step) by lia. symmetry. apply H. lia. }
  destruct (g i data) as [d1|]; cbn [Digits.bind]; [|reflexivity].
  apply IH. intros j d Hj.
  replace (i + step + j * step) with (i + (j + 1) * step) by lia.
  apply H. lia.
Qed.

Lemma for_range_ext lo hi f g data :
  (forall i d, lo <= i < hi -> f i d = g i d) ->
  Digits.for_range lo hi f data = Digits.for_range lo hi g data.
Proof.
  intros H. unfold Digits.for_range, Digits.for_step.
  apply iterate_ext. intros j d Hj. apply H.
  replace ((hi - lo + 1 - 1) / 1) with (hi - lo) in Hj
    by (rewrite Z.div_1_r; lia).
  lia.
Qed.

(** While the buffer size fits an [int], so do the indices. *)
Lemma setPixel32_exact width x y r g b data :
  0 <= width -> width * Digits32.height * 4 <= Digits.INT_MAX ->
  Digits32.setPixel width x y r g b data
  = Digits.setPixel width Digits32.height x y r g b data.
Proof.
  intros Hw Hsize. unfold Digits32.setPixel, Digits.setPixel.
  destruct ((x >=? 0) && (x <? width) && (y >=? 0) && (y <? Digits32.height))
    eqn:E; [|reflexivity].
  apply andb_prop in E as [E Hy2]. apply andb_prop in E as [E Hy1].
  apply andb_prop in E as [Hx1 Hx2].
  rewrite Z.geb_leb in Hx1, Hy1.
  apply Z.leb_le in Hx1, Hy1. apply Z.ltb_lt in Hx2, Hy2.
  cbv zeta. unwrap. reflexivity.
Qed.

Section Exact.

Variables (width : Z) (offsetX : Z).
Hypothesis width_nonneg : 0 <= width.
Hypothesis size_fits : width * Digits32.height * 4 <= Digits.INT_MAX.
Hypothesis offsetX_small : 0 <= offsetX <= 1073741824.

Lemma px32_exact x y data :
  Digits32.px width x y data = Digits.px width Digits32.height x y data.
Proof. now apply setPixel32_exact. Qed.

Lemma drawSegment32_exact seg data :
  Digits32.drawSegment width offsetX seg data
  = Digits.drawSegment width Digits32.height offsetX seg data.
Proof.
  unfold Digits32.drawSegment, Digits.drawSegment.
  destruct seg as [|[[p|p|]|[p|p|]|]|p];
    try reflexivity;
    try destruct p as [p|p|]; try reflexivity;
    (apply for_range_ext; intros t d Ht;
     apply for_range_ext; intros i d' Hi;
     rewrite px32_exact; unwrap; reflexivity).
Qed.

Lemma drawColon32_exact data :
  Digits32.drawColon width offsetX data
  = Digits.drawColon width Digits32.height offsetX data.
Proof.
  unfold Digits32.drawColon, Digits.drawColon.
  apply for_range_ext; intros dy d Hdy.
  apply for_range_ext; intros dx d' Hdx.
  cbn in Hdy, Hdx.
  change (Digits.charWidth / 2) with 15.
  unwrap. rewrite px32_exact.
  destruct (Digits.px _ _ _ _ d') as [d1|]; cbn [Digits.bind];
    [rewrite px32_exact|]; reflexivity.
Qed.

End Exact.

Lemma drawChar32_exact width digitStr i data :
  0 <= width -> width * Digits32.height * 4 <= Digits.INT_MAX ->
  0 <= i <= 35791394 ->
  Digits32.drawChar width digitStr i data
  = Digits.drawChar width Digits32.height digitStr i data.
Proof.
  intros Hw Hsize Hi. unfold Digits32.drawChar, Digits.drawChar. cbv zeta.
  unwrap.
  assert (Ho : 0 <= i * Digits.charWidth <= 1073741824)
    by (unfold Digits.charWidth; lia).
  destruct (Digits.char_at digitStr i =? 58);
    [now apply drawColon32_exact|].
  destruct ((_ >=? 48) && (_ <=? 57)); [|reflexivity].
  apply for_range_ext. intros s d _.
  destruct (Digits.segment_on _ s); [|reflexivity].
  now apply drawSegment32_exact.
Qed.

(** For strings of up to 357913 characters no [int] of
    [createDigitTexture] leaves the 32-bit range: the function is the one
    computed with unbounded integers. *)
Lemma createDigitTexture32_exact fill digitStr :
  Digits.strlen digitStr <= 357913 ->
  Digits32.createDigitTexture fill digitStr
  = Digits.createDigitTexture fill digitStr.
Proof.
  intros Hlen. pose proof (strlen_nonneg digitStr) as H0.
  unfold Digits32.createDigitTexture, Digits.createDigitTexture. cbv zeta.
  unwrap. unfold Digits32.height.
  destruct (Digits.for_step _ _ _ _ _) as [d|]; cbn [Digits.bind];
    [|reflexivity].
  apply for_range_ext. intros i d' Hi.
  apply (drawChar32_exact _ digitStr i d');
    unfold Digits.charWidth, Digits32.height, Digits.charHeight,
      Digits.INT_MAX; lia.
Qed.

(** *** A string too long for 32-bit indices *)

Lemma fails_bind_l n f g :
  Digits32.fails n f -> Digits32.fails n (fun data => Digits.bind (f data) g).
Proof. intros Hf data Hn. now rewrite (Hf data Hn). Qed.

Lemma fails_bind_r n f g :
  Digits.in_bounds n f -> Digits32.fails n g ->
  Digits32.fails n (fun data => Digits.bind (f data) g).
Proof.
  intros Hf Hg data Hn. destruct (Hf data Hn) as (d1 & E & H1).
  rewrite E. cbn. apply Hg, H1.
Qed.

Lemma for_range_first lo hi body data :
  lo < hi ->
  Digits.for_range lo hi body data
  = Digits.bind (body lo data) (Digits.for_range (lo + 1) hi body).
Proof.
  intros H. unfold Digits.for_range, Digits.for_step.
  rewrite !Z.div_1_r.
  replace (Z.to_nat (hi - lo + 1 - 1)) with (S (Z.to_nat (hi - (lo + 1) + 1 - 1)))
    by lia.
  reflexivity.
Qed.

Lemma fails_first n lo hi body :
  lo < hi -> Digits32.fails n (body lo) -> Digits32.fails n (Digits.for_range lo hi body).
Proof.
  intros H Hf data Hn. rewrite (for_range_first _ _ _ _ H).
  now rewrite (Hf data Hn).
Qed.

Lemma fails_later n lo hi body :
  lo < hi -> Digits.in_bounds n (body lo) ->
  Digits32.fails n (Digits.for_range (lo + 1) hi body) ->
  Digits32.fails n (Digits.for_range lo hi body).
Proof.
  intros H Hb Hf data Hn. rewrite (for_range_first _ _ _ _ H).
  destruct (Hb data Hn) as (d1 & E & H1). rewrite E. cbn. apply Hf, H1.
Qed.

Lemma strlen_eights n : Digits.strlen (Digits32.eights n) = Z.of_nat n.
Proof.
  induction n as [|n IH]; [reflexivity|].
  cbn [Digits32.eights Digits.strlen].
  change (Ascii.eqb "8" Ascii.zero) with false. cbv iota. lia.
Qed.

Lemma char_at_eights n : Digits.char_at (Digits32.eights (S n)) 0 = 56.
Proof. reflexivity. Qed.

(** In a texture 24000000 wide the pixels of rows 45 to 47 are stored at
    wrapped indices that still lie in the buffer of 505032704 bytes; a
    pixel of row 44 is not: its index is negative. *)
Lemma setPixel32_row_45_47 x y r g b :
  0 <= x < 30 -> 45 <= y <= 47 ->
  Digits.in_bounds 505032704 (Digits32.setPixel 24000000 x y r g b).
Proof.
  intros Hx Hy. unfold Digits32.setPixel.
  destruct ((x >=? 0) && (x <? 24000000) && (y >=? 0) && (y <? Digits32.height));
    [|apply skip_in_bounds].
  cbv zeta. unfold Int32.mul, Int32.add.
  rewrite (wrap_fits (y * 24000000)) by (unfold Digits.INT_MAX; lia).
  rewrite (wrap_fits (y * 24000000 + x)) by (unfold Digits.INT_MAX; lia).
  rewrite (wrap_once ((y * 24000000 + x) * 4)) by lia.
  set (idx := (y * 24000000 + x) * 4 - 4294967296).
  assert (Hidx : 0 <= idx /\ idx + 3 < 505032704) by (subst idx; lia).
  rewrite !wrap_fits by (unfold Digits.INT_MAX; lia).
  repeat apply bind_in_bounds; apply store_in_bounds; lia.
Qed.

Lemma setPixel32_row_44 r g b :
  Digits32.fails 505032704 (Digits32.setPixel 24000000 3 44 r g b).
Proof. intros data Hn. reflexivity. Qed.

Lemma digit_texture_800000_fails fill :
  Digits32.createDigitTexture fill (Digits32.eights (Z.to_nat 800000)) = None.
Proof.
  unfold Digits32.createDigitTexture. cbv zeta.
  rewrite strlen_eights, Z2Nat.id by lia.
  change (Int32.wrap 800000) with 800000.
  change (Int32.mul Digits.charWidth 800000) with 24000000.
  change (Int32.mul (Int32.mul 24000000 Digits32.height) 4) with 505032704.
  destruct (clear_in_bounds 126258176 ltac:(lia) _
              (repeat_sized fill (126258176 * 4) ltac:(lia)))
    as (d & E & Hd).
  change (126258176 * 4) with 505032704 in *.
  rewrite E. cbn [Digits.bind]. clear E. revert d Hd.
  change (Digits32.fails 505032704
            (Digits.for_range 0 800000
               (Digits32.drawChar 24000000
                  (Digits32.eights (Z.to_nat 800000))))).
  apply fails_first; [lia|].
  unfold Digits32.drawChar. cbv zeta.
  replace (Z.to_nat 800000) with (S (Z.to_nat 799999)) by lia.
  rewrite char_at_eights.
  change (56 =? 58) with false. change ((56 >=? 48) && (56 <=? 57)) with true.
  cbv iota. change (Int32.mul 0 Digits.charWidth) with 0.
  apply fails_first; [lia|].
  change (Digits.segment_on (56 - 48) 0) with true. cbv iota.
  unfold Digits32.drawSegment. cbv zeta. cbv iota.
  change (Digits.charWidth - 2 * 3) with 24. change (3 + 24) with 27.
  change Digits32.height with 50.
  assert (Hrow : forall t, 0 <= t <= 2 ->
            Digits.in_bounds 505032704
              (Digits.for_range 3 27 (fun x =>
                 Digits32.px 24000000 (Int32.add 0 x) (50 - 3 - t)))).
  { intros t Ht. apply for_range_in_bounds_within. intros x Hx.
    unfold Int32.add. rewrite wrap_fits by (unfold Digits.INT_MAX; lia).
    apply setPixel32_row_45_47; lia. }
  apply fails_later; [lia | apply Hrow; lia|].
  apply fails_later; [lia | apply Hrow; lia|].
  apply fails_later; [lia | apply Hrow; lia|].
  apply fails_first; [lia|].
  apply fails_first; [lia|].
  apply setPixel32_row_44.
Qed.

(** C9, as stated for every string, fails with 32-bit [int]s: for a string
    of 800000 eights the buffer size 4800000000 wraps to 505032704 and the
    index of pixel (3, 44), which passes the bounds check of [setPixel],
    wraps to -70967284; the store leaves the buffer. *)
Lemma digit_texture_writes_outside : ~ Digits32.never_writes_outside.
Proof.
  intros H.
  destruct (H 0 (Digits32.eights (Z.to_nat 800000))) as (data & E).
  rewrite digit_texture_800000_fails in E. discriminate E.
Qed.

(** C9, amended.  For every input string of at most 357913 characters, for
    which the buffer size [width * height * 4] fits an [int],
    [createDigitTexture] makes no store outside the bytes it allocated, and
    hands over a buffer of that size; every pixel it draws goes through
    [setPixel], whose four stores are inside the buffer for every [x], [y]
    while the buffer size fits an [int], and which stores nothing when
    [x], [y] is not a pixel of the texture. *)
Theorem digit_texture_writes_in_bounds :
  (forall (fill : Z) (digitStr : string),
     Digits.strlen digitStr <= 357913 ->
     exists data,
       Digits32.createDigitTexture fill digitStr = Some data /\
       Z.of_nat (List.length data)
       = Digits.charWidth * Digits.strlen digitStr * Digits.charHeight * 4) /\
  (forall (width x y r g b : Z) (data : Digits.buffer),
     0 <= width -> width * Digits32.height * 4 <= Digits.INT_MAX ->
     Z.of_nat (List.length data) = width * Digits32.height * 4 ->
     exists data',
       Digits32.setPixel width x y r g b data = Some data' /\
       List.length data' = List.length data /\
       (~ (0 <= x < width /\ 0 <= y < Digits32.height) -> data' = data)).
Proof.
  split.
  - intros fill digitStr Hlen. rewrite createDigitTexture32_exact by exact Hlen.
    apply createDigitTexture_in_bounds.
  - intros width x y r g b data Hw Hsize Hn.
    rewrite (setPixel32_exact _ _ _ _ _ _ _ Hw Hsize).
    assert (Hh : 0 <= Digits32.height) by (vm_compute; discriminate).
    destruct (setPixel_in_bounds width Digits32.height x y r g b Hw Hh data Hn)
      as (data' & E & Hn').
    exists data'. split; [exact E|]. unfold Digits.sized in Hn'.
    split; [lia|].
    intros Hout. rewrite (setPixel_clipped _ _ _ _ _ _ _ _ Hout) in E.
    now injection E.
Qed.

Lemma digit_texture_writes_in_bounds_witness :
  (exists data,
     Digits32.createDigitTexture 205 "12:34:56"%string = Some data /\
     Z.of_nat (List.length data)
     = Digits.charWidth * Digits.strlen "12:34:56"%string
       * Digits.charHeight * 4) /\
  (exists data',
     Digits32.setPixel 30 30 12 200 230 255 (repeat 0 (Z.to_nat 6000))
       = Some data' /\
     List.length data' = List.length (repeat 0 (Z.to_nat 6000)) /\
     (~ (0 <= 30 < 30 /\ 0 <= 12 < Digits32.height) ->
      data' = repeat 0 (Z.to_nat 6000))).
Proof.
  pose proof digit_texture_writes_in_bounds as [Htexture Hpixel].
  split.
  - apply Htexture. vm_compute. discriminate.
  - apply Hpixel; [lia | vm_compute; discriminate | reflexivity].
Defined.

(** The [int]s of [createDigitTexture] are as large as the buffer size at
    most: for strings of up to 357913 characters none of them leaves the
    32-bit range, and the integers of the model are those of the
    program. *)
Lemma digit_texture_ints_fit (digitStr : string) (x y : Z) :
  Digits.strlen digitStr <= 357913 ->
  let width := Digits.charWidth * Digits.strlen digitStr in
  let height := Digits.charHeight in
  width * height * 4 <= Digits.INT_MAX /\
  (0 <= x < width -> 0 <= y < height ->
   0 <= y * width + x <= Digits.INT_MAX /\
   0 <= (y * width + x) * 4 /\ (y * width + x) * 4 + 3 <= Digits.INT_MAX).
Proof.
  intros Hlen. cbn zeta.
  pose proof (strlen_nonneg digitStr) as H0.
  unfold Digits.charWidth, Digits.charHeight, Digits.INT_MAX.
  split; [lia|]. intros Hx Hy. nia.
Qed.

(** ** Drift of the drain timer

    At a fixed 0.75 s per frame the level drops every 14th frame, 10.5 s
    apart: after 280 frames, 210 s, it has dropped 20 times. *)
Lemma battery_drift_at_fixed_rate :
  Battery.batteryPercent
    (Battery.run (Battery.frame_times 0 (3 # 4) 280) (Battery.mk 100 0)) = 80.
Proof. vm_compute. reflexivity. Qed.

(** ** Replays in binary32 arithmetic *)

(** Three seconds of running with the machine's rounding: after 180 calls
    with [deltaTime = 1.0 / 60] and [isRunning] set, [targetBpm] is exactly
    160.0f, and [bpm] has gone up at every call and is below 160.0f (it is
    9537616 * 2^-16, about 145.53). *)
Lemma binary32_three_seconds_of_running :
  let hs := F32.trace 180 (F32.double_ratio 1 60) 0 (F32.init true) in
  let h := last hs (F32.init true) in
  F32.targetBpm h = F32.of_int 160 /\
  F32.bpm_increasing (F32.of_int 70) hs = true /\
  F32.ltb (F32.bpm h) (F32.of_int 160) = true /\
  F32.bpm h = F32.lit 9537616 (-16).
Proof. vm_compute. repeat split. Qed.

(** Four resting calls with [deltaTime = 0.5] and [rand() % 20 = 0], with
    the machine's rounding: every intermediate value is exact, and
    [ekgOffset] ends at exactly 1.0f, which [ekgOffset > 1.0f] does not
    wrap. *)
Lemma binary32_ekgOffset_reaches_one :
  let hs := F32.trace 4 (F32.double_ratio 1 2) 0 (F32.init false) in
  let h := last hs (F32.init false) in
  F32.ekgOffset h = F32.of_int 1 /\
  F32.ltb (F32.ekgOffset h) (F32.of_int 1) = false.
Proof. vm_compute. split; reflexivity. Qed.

(** * Further properties of the simulation *)

(** ** How [bpm] follows its target *)



(** X2.  From the initial state, along every sequence of calls with frame
    times between 0 and half a second, [bpm] stays between 60 and 220, and
    so does the integer [(int)bpm] that the screen prints with three
    digits. *)
Theorem bpm_stays_between_60_and_220 (cs : list Heart.call) :
  Forall Heart.short_call cs ->
  Forall (fun h => ((60 <= Heart.bpm h)%Q /\ (Heart.bpm h <= 220)%Q) /\
                   60 <= HeartScreen.bpmShown h <= 220)
         (Heart.trace cs Heart.init).
Proof.
  intros Hs.
  assert (Hinit : Heart.bounded Heart.init).
  { unfold Heart.bounded, Heart.ekg_in_closed_unit. cbn. repeat split; lra. }
  pose proof (short_trace_bounded cs Heart.init Hs Hinit) as Hb.
  eapply Forall_impl; [|exact Hb].
  intros h (_ & [B1 B2] & _). split; [split; assumption|].
  unfold HeartScreen.bpmShown, int_of_float.
  destruct (Qltb (Heart.bpm h) 0) eqn:E.
  - apply Qltb_spec in E. lra.
  - split.
    + apply (Qfloor_resp_le 60 (Heart.bpm h)) in B1. exact B1.
    + apply (Qfloor_resp_le (Heart.bpm h) 220) in B2. exact B2.
Qed.

Lemma bpm_stays_between_60_and_220_witness :
  Forall (fun h => ((60 <= Heart.bpm h)%Q /\ (Heart.bpm h <= 220)%Q) /\
                   60 <= HeartScreen.bpmShown h <= 220)
         (Heart.trace [Heart.hold; Heart.rest (1 # 2) 7; Heart.hold]
            Heart.init).
Proof.
  apply bpm_stays_between_60_and_220.
  repeat constructor; cbn; try lia; unfold Qle; cbn; lia.
Defined.

(** ** The EKG scale *)

Lemma step_ekgScale c h :
  Heart.ekgScale (Heart.step c h)
  = (Heart.ekgScale h
     + (60 / Heart.bpm (Heart.step c h) - Heart.ekgScale h) * 2
       * Heart.deltaTime c)%Q.
Proof. reflexivity. Qed.

Lemma step_short_scale c h :
  Heart.short_call c -> Heart.bounded h ->
  (3 # 11 <= Heart.ekgScale h)%Q -> (Heart.ekgScale h <= 1)%Q ->
  (3 # 11 <= Heart.ekgScale (Heart.step c h))%Q /\
  (Heart.ekgScale (Heart.step c h) <= 1)%Q.
Proof.
  intros Hc Hb S1 S2.
  destruct (step_short_bounded c h Hc Hb) as (_ & [B1 B2] & _).
  destruct Hc as [[Hdt0 _] Hdt].
  rewrite step_ekgScale.
  set (b' := Heart.bpm (Heart.step c h)) in *.
  set (s := Heart.ekgScale h) in *. set (dt := Heart.deltaTime c) in *.
  clearbody b' s dt.
  assert (Hpos : (0 < b')%Q) by lra.
  assert (L : (3 # 11 <= 60 / b')%Q) by (apply Qle_shift_div_l; lra).
  assert (U : (60 / b' <= 1)%Q) by (apply Qle_shift_div_r; lra).
  set (ts := (60 / b')%Q) in *. clearbody ts.
  assert (P1 : (0 <= (s - (3 # 11)) * (1 - 2 * dt))%Q)
    by (apply Qmult_le_0_compat; lra).
  assert (P2 : (0 <= (ts - (3 # 11)) * (2 * dt))%Q)
    by (apply Qmult_le_0_compat; lra).
  assert (P3 : (0 <= (1 - s) * (1 - 2 * dt))%Q)
    by (apply Qmult_le_0_compat; lra).
  assert (P4 : (0 <= (1 - ts) * (2 * dt))%Q)
    by (apply Qmult_le_0_compat; lra).
  split; lra.
Qed.

Lemma short_trace_scale cs : forall h,
  Forall Heart.short_call cs -> Heart.bounded h ->
  (3 # 11 <= Heart.ekgScale h)%Q -> (Heart.ekgScale h <= 1)%Q ->
  Forall (fun h' => (3 # 11 <= Heart.ekgScale h')%Q /\
                    (Heart.ekgScale h' <= 1)%Q)
         (Heart.trace cs h).
Proof.
  induction cs as [|c cs IH]; intros h Hs Hb S1 S2; cbn; [constructor|].
  inversion Hs as [|? ? Hc Hcs]; subst.
  destruct (step_short_scale c h Hc Hb S1 S2) as [S1' S2'].
  constructor; [split; assumption|].
  apply IH; try assumption. now apply step_short_bounded.
Qed.

(** X3.  From the initial state, along every sequence of calls with frame
    times between 0 and half a second, [ekgScale] stays between 3/11 and
    1, so the number of EKG periods drawn, [3.0f / ekgScale], stays
    between 3 and 11 and never divides by zero. *)
Theorem ekgScale_stays_between_3_11_and_1 (cs : list Heart.call) :
  Forall Heart.short_call cs ->
  Forall (fun h => ((3 # 11 <= Heart.ekgScale h)%Q /\
                    (Heart.ekgScale h <= 1)%Q) /\
                   (3 <= HeartScreen.numRepeats h)%Q /\
                   (HeartScreen.numRepeats h <= 11)%Q)
         (Heart.trace cs Heart.init).
Proof.
  intros Hs.
  assert (Hinit : Heart.bounded Heart.init).
  { unfold Heart.bounded, Heart.ekg_in_closed_unit. cbn. repeat split; lra. }
  assert (Hsc : Forall (fun h' => (3 # 11 <= Heart.ekgScale h')%Q /\
                                  (Heart.ekgScale h' <= 1)%Q)
                  (Heart.trace cs Heart.init)).
  { apply short_trace_scale; try assumption; cbn; lra. }
  eapply Forall_impl; [|exact Hsc].
  intros h [S1 S2]. split; [split; assumption|].
  unfold HeartScreen.numRepeats.
  split; [apply Qle_shift_div_l | apply Qle_shift_div_r]; lra.
Qed.

Lemma ekgScale_stays_between_3_11_and_1_witness :
  Forall (fun h => ((3 # 11 <= Heart.ekgScale h)%Q /\
                    (Heart.ekgScale h <= 1)%Q) /\
                   (3 <= HeartScreen.numRepeats h)%Q /\
                   (HeartScreen.numRepeats h <= 11)%Q)
         (Heart.trace [Heart.hold; Heart.rest (1 # 2) 7] Heart.init).
Proof.
  apply ekgScale_stays_between_3_11_and_1.
  repeat constructor; cbn; try lia; unfold Qle; cbn; lia.
Defined.

(** ** The target while running and at rest *)








(** ** The warning overlay *)




(** ** Running: ground scroll and camera bob *)

Lemma camera_forget_bob sin c r :
  Camera.forget_bob (Camera.updateRunning sin c r)
  = Running.updateRunning (Camera.deltaTime c) (Camera.isRunning c)
      (Camera.currentScreen c) (Camera.forget_bob r).
Proof.
  unfold Camera.updateRunning, Running.updateRunning, Camera.forget_bob.
  cbn. destruct (Camera.isRunning c && (Camera.currentScreen c =? 1));
    [|reflexivity].
  destruct (Qgtb _ _); reflexivity.
Qed.

(** X7.  [updateRunning] moves the ground only while [isRunning] is set on
    the HeartRate screen: otherwise [runTime] and [groundOffset] are left
    as they are.  When it moves it, a frame of at most 2.5 s keeps a
    [groundOffset] that lies within one ground segment (0 to 20) within
    it. *)
Theorem groundOffset_stays_in_segment
    (deltaTime : Q) (isRunning : bool) (currentScreen : Z) (r : Running.t) :
  (isRunning && (currentScreen =? 1) = false ->
   Running.updateRunning deltaTime isRunning currentScreen r = r) /\
  ((0 <= deltaTime)%Q -> (deltaTime <= 5 # 2)%Q ->
   (0 <= Running.groundOffset r)%Q ->
   (Running.groundOffset r <= GROUND_SEGMENT_LENGTH)%Q ->
   let r' := Running.updateRunning deltaTime isRunning currentScreen r in
   (0 <= Running.groundOffset r')%Q /\
   (Running.groundOffset r' <= GROUND_SEGMENT_LENGTH)%Q).
Proof.
  unfold Running.updateRunning, GROUND_SEGMENT_LENGTH. split.
  - intros ->. reflexivity.
  - intros H0 H1 G0 G1. cbn zeta.
    destruct (isRunning && (currentScreen =? 1)); [|split; assumption].
    destruct (Qgtb _ 20) eqn:E; cbn [Running.groundOffset].
    + apply Qgtb_spec in E. split; lra.
    + apply Qgtb_false in E. split; lra.
Qed.

Lemma groundOffset_stays_in_segment_witness :
  let r' := Running.updateRunning (1 # 2) true 1 (Running.mk 30 18) in
  (0 <= Running.groundOffset r')%Q /\
  (Running.groundOffset r' <= GROUND_SEGMENT_LENGTH)%Q.
Proof.
  pose proof (groundOffset_stays_in_segment (1 # 2) true 1 (Running.mk 30 18))
    as [_ H].
  apply H; vm_compute; discriminate.
Defined.

Section Bob.

Variable sin : Q -> Q.
Hypothesis sin_bounded : forall x, (- (1) <= sin x)%Q /\ (sin x <= 1)%Q.



End Bob.




(** ** Pointer and key events *)

Lemma clamp_in_range x :
  (- (45) <= Nav.clamp x (- (45)) 45)%Q /\ (Nav.clamp x (- (45)) 45 <= 45)%Q.
Proof.
  unfold Nav.clamp.
  destruct (std_max_cases x (- (45))) as [[H1 E1]|[H1 E1]]; rewrite E1;
    match goal with
    | |- context [std_min ?a 45] =>
        destruct (std_min_cases a 45) as [[H2 E2]|[H2 E2]]; rewrite E2
    end; split; lra.
Qed.

Lemma dispatch_pitch_in_range u e :
  Keys.pitch_in_range u -> Keys.pitch_in_range (Nav.dispatch u e).
Proof.
  unfold Keys.pitch_in_range. intros Hu.
  destruct e as [button action|xpos ypos|key action]; cbn.
  - unfold Nav.mouse_button_callback. now destruct (_ && _).
  - destruct (Nav.watchViewMode u); cbn; [exact Hu | apply clamp_in_range].
  - unfold Nav.key_callback. now destruct (_ && _).
Qed.

(** X9.  The mouse-driven base pitch never leaves its clamp: if
    [cameraBasePitch] is between -45 and 45 it is so after every poll,
    whatever events arrive; a cursor event outside watch-view mode puts it
    there even when it was not; and in watch-view mode a cursor event
    leaves it untouched while still recording the pointer position. *)
Theorem base_pitch_stays_clamped (es : list Nav.event) (u : Nav.t) :
  (Keys.pitch_in_range u -> Keys.pitch_in_range (Nav.pollEvents es u)) /\
  (forall xpos ypos,
     Nav.watchViewMode u = false ->
     Keys.pitch_in_range (Nav.cursor_position_callback xpos ypos u)) /\
  (forall xpos ypos,
     Nav.watchViewMode u = true ->
     let u' := Nav.cursor_position_callback xpos ypos u in
     Nav.cameraBasePitch u' = Nav.cameraBasePitch u /\
     Nav.mouseX u' = xpos /\ Nav.mouseY u' = ypos).
Proof.
  split; [|split].
  - revert u. induction es as [|e es IH]; intros u Hu; [exact Hu|].
    cbn [Nav.pollEvents fold_left].
    change (fold_left Nav.dispatch es ?x) with (Nav.pollEvents es x).
    apply IH. now apply dispatch_pitch_in_range.
  - intros xpos ypos Hv. unfold Keys.pitch_in_range,
      Nav.cursor_position_callback. rewrite Hv. cbn. apply clamp_in_range.
  - intros xpos ypos Hv. unfold Nav.cursor_position_callback.
    rewrite Hv. cbn. auto.
Qed.

Lemma base_pitch_stays_clamped_witness :
  let u := Nav.pointer_at 0 false false 960 540 in
  Keys.pitch_in_range
    (Nav.pollEvents [Nav.CursorPos 960 540; Nav.CursorPos 960 0;
                     Nav.Key 32 1; Nav.CursorPos 960 1080] u).
Proof.
  intros u.
  pose proof (base_pitch_stays_clamped
                [Nav.CursorPos 960 540; Nav.CursorPos 960 0;
                 Nav.Key 32 1; Nav.CursorPos 960 1080] u) as [H _].
  apply H. unfold Keys.pitch_in_range. cbn. split; lra.
Defined.

Lemma dispatch_watchViewMode u e :
  Nav.watchViewMode (Nav.dispatch u e)
  = xorb (Keys.is_space_press e) (Nav.watchViewMode u).
Proof.
  destruct e as [button action|xpos ypos|key action]; cbn.
  - unfold Nav.mouse_button_callback. now destruct (_ && _).
  - reflexivity.
  - unfold Nav.key_callback.
    destruct ((key =? Nav.GLFW_KEY_SPACE) && (action =? Nav.GLFW_PRESS));
      cbn; [reflexivity|]. reflexivity.
Qed.

(** X10.  A poll flips watch-view mode once per SPACE press it delivers:
    after the poll [watchViewMode] has changed exactly when the number of
    SPACE presses among the events is odd, so two presses in one poll
    cancel; key releases, other keys, mouse buttons and cursor moves do
    not count. *)
Theorem watch_view_toggles_by_parity (es : list Nav.event) (u : Nav.t) :
  Nav.watchViewMode (Nav.pollEvents es u)
  = xorb (Keys.odd_presses es) (Nav.watchViewMode u).
Proof.
  revert u. induction es as [|e es IH]; intros u; [reflexivity|].
  cbn [Nav.pollEvents fold_left Keys.odd_presses].
  change (fold_left Nav.dispatch es ?x) with (Nav.pollEvents es x).
  rewrite IH, dispatch_watchViewMode.
  destruct (Keys.is_space_press e), (Keys.odd_presses es),
    (Nav.watchViewMode u); reflexivity.
Qed.

(** ** More on screen navigation *)

Lemma render_index_step u :
  let s := Nav.currentScreen u in
  let s' := Nav.currentScreen (Nav.renderWatchScreen u) in
  (0 <= s <= 2 -> 0 <= s' <= 2 /\ -1 <= s' - s <= 1) /\
  (~ 0 <= s <= 2 -> s' = s).
Proof.
  cbn zeta. split.
  - intros Hs.
    assert (Hcases : Nav.currentScreen u = 0 \/ Nav.currentScreen u = 1
                     \/ Nav.currentScreen u = 2) by lia.
    destruct Hcases as [E|[E|E]].
    + rewrite (render_on_clock u E). unfold Nav.drawClockScreen.
      destruct (_ && _); [destruct (Nav.inRightArrow u)|];
        cbn [Nav.currentScreen Nav.set_currentScreen]; lia.
    + rewrite (render_on_heart u E). unfold Nav.drawHeartRateScreen.
      destruct (_ && _);
        [destruct (Nav.inLeftArrow u), (Nav.inRightArrow u)|];
        cbn [Nav.currentScreen Nav.set_currentScreen]; lia.
    + rewrite (render_on_battery u E). unfold Nav.drawBatteryScreen.
      destruct (_ && _); [destruct (Nav.inLeftArrow u)|];
        cbn [Nav.currentScreen Nav.set_currentScreen]; lia.
  - intros Hs. rewrite render_elsewhere; [reflexivity|lia..].
Qed.

(** X11.  [currentScreen] is always one of the three screens: if it is 0,
    1 or 2 it is so after any number of iterations of the frame loop, and
    one iteration moves it by at most one, so Clock never jumps to Battery
    or back within a frame.  An index outside 0..2 would never change. *)
Theorem screen_index_stays_valid (ins : list Loop.input) (w : Loop.world) :
  (0 <= Nav.currentScreen (Loop.ui w) <= 2 ->
   0 <= Nav.currentScreen (Loop.ui (Loop.frames ins w)) <= 2) /\
  (forall i,
     0 <= Nav.currentScreen (Loop.ui w) <= 2 ->
     -1 <= Nav.currentScreen (Loop.ui (Loop.frame i w))
           - Nav.currentScreen (Loop.ui w) <= 1) /\
  (~ 0 <= Nav.currentScreen (Loop.ui w) <= 2 ->
   Nav.currentScreen (Loop.ui (Loop.frames ins w))
   = Nav.currentScreen (Loop.ui w)).
Proof.
  split; [|split].
  - revert w. induction ins as [|i ins IH]; intros w Hs; [exact Hs|].
    cbn [Loop.frames fold_left].
    change (fold_left _ ins ?x) with (Loop.frames ins x).
    apply IH. rewrite frame_currentScreen.
    now apply (render_index_step (Loop.ui w)).
  - intros i Hs. rewrite frame_currentScreen.
    now apply (render_index_step (Loop.ui w)).
  - revert w. induction ins as [|i ins IH]; intros w Hs; [reflexivity|].
    cbn [Loop.frames fold_left].
    change (fold_left _ ins ?x) with (Loop.frames ins x).
    assert (E : Nav.currentScreen (Loop.ui (Loop.frame i w))
                = Nav.currentScreen (Loop.ui w)).
    { rewrite frame_currentScreen.
      now apply (render_index_step (Loop.ui w)). }
    rewrite IH; [exact E | now rewrite E].
Qed.

Lemma screen_index_stays_valid_witness :
  let w := Loop.start (Nav.pointer_at 1 true true 1728 540) in
  let ins := [Loop.mkinput 1 1 true 3 [Nav.left_press];
              Loop.mkinput 2 2 false 4 []] in
  0 <= Nav.currentScreen (Loop.ui (Loop.frames ins w)) <= 2.
Proof.
  intros w ins.
  pose proof (screen_index_stays_valid ins w) as [H _].
  apply H. cbn. lia.
Defined.






(** X13.  Away from the HeartRate screen the run key does nothing: an
    iteration of the frame loop ends in the same state whether D is held
    or not. *)
Theorem run_key_only_on_heart_screen
    (now afterSleep : Q) (rnd : Z) (events : list Nav.event)
    (w : Loop.world) :
  Nav.currentScreen (Loop.ui w) <> 1 ->
  Loop.frame (Loop.mkinput now afterSleep true rnd events) w
  = Loop.frame (Loop.mkinput now afterSleep false rnd events) w.
Proof.
  intros Hs. unfold Loop.frame, Loop.frame_body. cbn [Loop.keyD Loop.now
    Loop.afterSleep Loop.rnd Loop.events].
  replace (Nav.currentScreen (Loop.ui w) =? 1) with false
    by (symmetry; now apply Z.eqb_neq).
  reflexivity.
Qed.

Lemma run_key_only_on_heart_screen_witness :
  let w := Loop.start (Nav.pointer_at 0 false false 960 540) in
  Loop.frame (Loop.mkinput 1 1 true 5 []) w
  = Loop.frame (Loop.mkinput 1 1 false 5 []) w.
Proof.
  intros w. apply run_key_only_on_heart_screen. cbn. discriminate.
Defined.

(** X14.  Going right and then left comes back: from Clock or HeartRate a
    click on the right arrow followed by a click on the left arrow, and
    from HeartRate or Battery a click on the left arrow followed by one on
    the right arrow, ends on the starting screen. *)
Theorem navigation_round_trip (u v : Nav.t) :
  Nav.watchViewMode u && Nav.mouseClicked u = true ->
  Nav.watchViewMode v && Nav.mouseClicked v = true ->
  Nav.currentScreen v = Nav.currentScreen (Nav.renderWatchScreen u) ->
  (Nav.currentScreen u = 0 \/ Nav.currentScreen u = 1 ->
   Nav.inRightArrow u = true -> Nav.inLeftArrow v = true ->
   Nav.currentScreen (Nav.renderWatchScreen v) = Nav.currentScreen u) /\
  (Nav.currentScreen u = 1 \/ Nav.currentScreen u = 2 ->
   Nav.inLeftArrow u = true -> Nav.inRightArrow v = true ->
   Nav.currentScreen (Nav.renderWatchScreen v) = Nav.currentScreen u).
Proof.
  intros Hu Hv Hlink.
  pose proof (navigation_step_to_heart u) as U0.
  pose proof (navigation_step_to_heart v) as V0.
  assert (U1R : Nav.currentScreen u = 1 -> Nav.inRightArrow u = true ->
                Nav.currentScreen (Nav.renderWatchScreen u) = 2).
  { intros E R. rewrite (render_on_heart u E). unfold Nav.drawHeartRateScreen.
    rewrite Hu, R. now destruct (Nav.inLeftArrow u). }
  assert (U1L : Nav.currentScreen u = 1 -> Nav.inLeftArrow u = true ->
                Nav.currentScreen (Nav.renderWatchScreen u) = 0).
  { intros E L. rewrite (render_on_heart u E). unfold Nav.drawHeartRateScreen.
    now rewrite Hu, L, (arrows_disjoint u L). }
  assert (U2L : Nav.currentScreen u = 2 -> Nav.inLeftArrow u = true ->
                Nav.currentScreen (Nav.renderWatchScreen u) = 1).
  { intros E L. rewrite (render_on_battery u E). unfold Nav.drawBatteryScreen.
    now rewrite Hu, L. }
  assert (V1R : Nav.currentScreen v = 1 -> Nav.inRightArrow v = true ->
                Nav.currentScreen (Nav.renderWatchScreen v) = 2).
  { intros E R. rewrite (render_on_heart v E). unfold Nav.drawHeartRateScreen.
    rewrite Hv, R. now destruct (Nav.inLeftArrow v). }
  assert (V1L : Nav.currentScreen v = 1 -> Nav.inLeftArrow v = true ->
                Nav.currentScreen (Nav.renderWatchScreen v) = 0).
  { intros E L. rewrite (render_on_heart v E). unfold Nav.drawHeartRateScreen.
    now rewrite Hv, L, (arrows_disjoint v L). }
  assert (V2L : Nav.currentScreen v = 2 -> Nav.inLeftArrow v = true ->
                Nav.currentScreen (Nav.renderWatchScreen v) = 1).
  { intros E L. rewrite (render_on_battery v E). unfold Nav.drawBatteryScreen.
    now rewrite Hv, L. }
  split.
  - intros [E|E] R L.
    + rewrite (U0 E Hu R) in Hlink. rewrite (V1L Hlink L). now rewrite E.
    + rewrite (U1R E R) in Hlink. rewrite (V2L Hlink L). now rewrite E.
  - intros [E|E] L R.
    + rewrite (U1L E L) in Hlink. rewrite (V0 Hlink Hv R). now rewrite E.
    + rewrite (U2L E L) in Hlink. rewrite (V1R Hlink R). now rewrite E.
Qed.

Lemma navigation_round_trip_witness :
  let u := Nav.pointer_at 0 true true 1728 540 in
  let v := Nav.pointer_at 1 true true 192 540 in
  Nav.currentScreen (Nav.renderWatchScreen v) = Nav.currentScreen u.
Proof.
  intros u v.
  pose proof (navigation_round_trip u v) as H.
  destruct H as [H _]; [reflexivity | reflexivity | reflexivity |].
  apply H; [left; reflexivity | reflexivity | reflexivity].
Defined.

(** ** The battery gauge *)




Lemma battery_run_level ts : forall b,
  0 <= Battery.batteryPercent b ->
  0 <= Battery.batteryPercent (Battery.run ts b) <= Battery.batteryPercent b.
Proof.
  induction ts as [|currentTime ts IH]; intros b H0; [cbn; lia|].
  cbn [Battery.run fold_left].
  change (fold_left _ ts ?x) with (Battery.run ts x).
  pose proof (updateBattery_level currentTime b H0) as Hl.
  specialize (IH (Battery.updateBattery currentTime b) ltac:(lia)). lia.
Qed.

(** X16.  Whatever the call times of [updateBattery], starting from a
    level of 100 the level shown stays between 0 and 100; the gauge then
    has no fill exactly when the level is 0, and its colour is red up to
    10, amber from 11 to 20 and green from 21. *)
Theorem battery_gauge_follows_level (ts : list Q) (t0 : Q) :
  let p := Battery.batteryPercent (Battery.run ts (Battery.mk 100 t0)) in
  0 <= p <= 100 /\
  (Gauge.fill p = None <-> p = 0) /\
  (Gauge.fillColor p = (1%Q, 2 # 10, 2 # 10) <-> p <= 10) /\
  (Gauge.fillColor p = (1%Q, 8 # 10, 0%Q) <-> 11 <= p <= 20) /\
  (Gauge.fillColor p = (2 # 10, 9 # 10, 3 # 10) <-> 21 <= p).
Proof.
  cbn zeta.
  pose proof (battery_run_level ts (Battery.mk 100 t0)) as Hl.
  cbn [Battery.batteryPercent] in Hl. specialize (Hl ltac:(lia)).
  set (p := Battery.batteryPercent _) in *. clearbody p.
  split; [exact Hl|]. unfold Gauge.fill, Gauge.fillColor.
  split; [|split; [|split]].
  - destruct (Z.gtb_spec p 0); split; intros G; try discriminate G;
      try reflexivity; lia.
  - destruct (Z.leb_spec p 10); [|destruct (Z.leb_spec p 20)];
      split; intros G; try reflexivity; try discriminate G; lia.
  - destruct (Z.leb_spec p 10); [|destruct (Z.leb_spec p 20)];
      split; intros G; try reflexivity; try discriminate G; lia.
  - destruct (Z.leb_spec p 10); [|destruct (Z.leb_spec p 20)];
      split; intros G; try reflexivity; try discriminate G; lia.
Qed.

(** ** Buildings and ground *)
















(** ** The clock against real time *)

Lemma updateClock64_idle currentTime c :
  (Clock64.gap currentTime c < 1)%Q -> Clock64.updateClock currentTime c = c.
Proof.
  intros H. unfold Clock64.updateClock.
  apply Qgeb_false in H. now rewrite H.
Qed.

Lemma clock64_ticks_fit ts : forall c,
  Battery.nondecreasing (Clock.lastSecondTime c) ts ->
  (Clock.lastSecondTime c + Clock64.period * inject_Z (Clock64.ticks ts c)
     <= Clock.lastSecondTime (Clock64.run ts c))%Q /\
  (Clock.lastSecondTime (Clock64.run ts c)
     <= last ts (Clock.lastSecondTime c))%Q /\
  0 <= Clock64.ticks ts c.
Proof.
  induction ts as [|currentTime ts IH]; intros c Hnd.
  - cbn. change (inject_Z 0) with 0%Q.
    split; [lra|]. split; [apply Qle_refl | lia].
  - cbn [Clock64.run fold_left Clock64.ticks].
    change (fold_left _ ts ?x) with (Clock64.run ts x).
    destruct Hnd as [Hle Hnd]. rewrite last_cons_shift.
    destruct (Qgeb (Clock64.gap currentTime c) 1) eqn:E.
    + assert (Elast : Clock.lastSecondTime (Clock64.updateClock currentTime c)
                      = currentTime).
      { unfold Clock64.updateClock. rewrite E.
        repeat match goal with |- context [if ?b then _ else _] =>
          destruct b end; reflexivity. }
      apply Qgeb_spec in E. apply binary64_reaches in E; [|lra].
      destruct (IH (Clock64.updateClock currentTime c)) as (I1 & I2 & I3);
        [rewrite Elast; exact Hnd|].
      rewrite Elast in I1, I2.
      rewrite inject_Z_plus. change (inject_Z 1) with 1%Q.
      unfold Clock64.period in *.
      set (k := inject_Z (Clock64.ticks ts _)) in *.
      split; [lra|]. split; [exact I2 | lia].
    + apply Qgeb_false in E. rewrite (updateClock64_idle _ _ E).
      destruct (IH c (nondecreasing_weaken _ _ _ Hle Hnd)) as (I1 & I2 & I3).
      rewrite inject_Z_plus. change (inject_Z 0) with 0%Q.
      unfold Clock64.period in *.
      set (k := inject_Z (Clock64.ticks ts c)) in *.
      split; [lra|]. split; [|lia].
      eapply Qle_trans; [exact I2 | now apply last_default_le].
Qed.

(** X21.  The clock does not run fast by more than the rounding of its
    test: over calls of [updateClock] at non-decreasing times, with the
    subtraction rounded to [double], a call ticks whenever a full second
    has passed since the last tick and never before 1 / (1 + 2^-53) s have
    passed, so the number of ticks is at most the real time elapsed since
    the last tick before the first call divided by 1 / (1 + 2^-53) s, and
    [lastSecondTime] is never ahead of the last call.  (It can run slow:
    each tick restarts the second at the call time.) *)
Theorem clock_never_runs_fast (ts : list Q) (c : Clock.t) :
  Battery.nondecreasing (Clock.lastSecondTime c) ts ->
  0 <= Clock64.ticks ts c /\
  (Clock64.period * inject_Z (Clock64.ticks ts c) <= Clock.elapsed c ts)%Q /\
  (Clock.lastSecondTime (Clock64.run ts c)
     <= last ts (Clock.lastSecondTime c))%Q /\
  (forall currentTime c0,
     ((1 <= currentTime - Clock.lastSecondTime c0)%Q ->
      (1 <= Clock64.gap currentTime c0)%Q) /\
     ((currentTime - Clock.lastSecondTime c0 < Clock64.period)%Q ->
      Clock64.updateClock currentTime c0 = c0)).
Proof.
  intros Hnd. destruct (clock64_ticks_fit ts c Hnd) as (I1 & I2 & I3).
  unfold Clock.elapsed.
  split; [exact I3|]. split; [|split; [exact I2|]].
  - unfold Clock64.period in *.
    set (k := inject_Z (Clock64.ticks ts c)) in *. lra.
  - intros currentTime c0. split; [apply binary64_ge_1|].
    intros Hlt. apply updateClock64_idle. apply Qnot_le_lt. intros Hge.
    apply binary64_reaches in Hge; [|lra]. unfold Clock64.period in Hlt.
    set (x := (currentTime - Clock.lastSecondTime c0)%Q) in *. lra.
Qed.

(** Calls every 0.7 s: ticks come every 1.4 s, five in 7 s; and a call at
    the [double] 1.2 after a tick at the [double] 0.2 ticks, just under a
    second later. *)
Lemma clock_never_runs_fast_witness :
  let c := Clock.mk 10 0 0 0 in
  let ts := map (fun k => IEEE.binary64 (inject_Z (Z.of_nat k) * (7 # 10))%Q)
              (seq 1 10) in
  (0 <= Clock64.ticks ts c /\
   (Clock64.period * inject_Z (Clock64.ticks ts c) <= Clock.elapsed c ts)%Q /\
   (Clock.lastSecondTime (Clock64.run ts c)
      <= last ts (Clock.lastSecondTime c))%Q) /\
  Clock64.ticks ts c = 5 /\
  Clock64.ticks [IEEE.binary64 (12 # 10)]
    (Clock.mk 10 0 0 (IEEE.binary64 (2 # 10))) = 1 /\
  (IEEE.binary64 (12 # 10) - IEEE.binary64 (2 # 10) < 1)%Q.
Proof.
  intros c ts. split; [|split; [|split]].
  - destruct (clock_never_runs_fast ts c) as (H1 & H2 & H3 & _).
    + cbn. repeat split; vm_compute; discriminate.
    + repeat split; assumption.
  - vm_compute. reflexivity.
  - vm_compute. reflexivity.
  - vm_compute. reflexivity.
Defined.

(** ** Which pixels a drawing step changes *)

Lemma upd_nth_other i v data : forall j,
  j <> i -> nth j (Digits.upd i v data) 0 = nth j data 0.
Proof.
  revert i. induction data as [|a data IH]; intros [|i] [|j] H; cbn;
    try reflexivity; try congruence.
  apply IH. congruence.
Qed.

Lemma store_other idx v data data' i :
  Digits.store idx v data = Some data' -> 0 <= i -> i <> idx ->
  Pixels.byte_at data' i = Pixels.byte_at data i.
Proof.
  unfold Digits.store. intros E Hi Hne.
  destruct ((0 <=? idx) && (idx <? Z.of_nat (List.length data))) eqn:C;
    [|discriminate].
  apply andb_prop in C as [C _]. apply Z.leb_le in C.
  injection E as <-. unfold Pixels.byte_at. apply upd_nth_other. lia.
Qed.

Lemma skip_touches width height inside :
  Pixels.touches_only width height inside (fun data => Some data).
Proof. intros data data' E. now injection E as <-. Qed.

Lemma bind_touches width height inside f g :
  Pixels.touches_only width height inside f ->
  Pixels.touches_only width height inside g ->
  Pixels.touches_only width height inside (fun data => Digits.bind (f data) g).
Proof.
  intros Hf Hg data data' E x y k Hx Hy Hk Hout.
  destruct (f data) as [d1|] eqn:E1; [|discriminate]. cbn in E.
  rewrite (Hg d1 data' E x y k Hx Hy Hk Hout).
  exact (Hf data d1 E1 x y k Hx Hy Hk Hout).
Qed.

Lemma touches_weaken width height (inside inside' : Z -> Z -> Prop) f :
  (forall x y, inside x y -> inside' x y) ->
  Pixels.touches_only width height inside f ->
  Pixels.touches_only width height inside' f.
Proof.
  intros Hsub Hf data data' E x y k Hx Hy Hk Hout.
  apply (Hf data data' E x y k Hx Hy Hk). intros Hin. apply Hout, Hsub, Hin.
Qed.

Lemma iterate_touches width height inside step body k : forall i,
  (forall j, 0 <= j < Z.of_nat k ->
             Pixels.touches_only width height inside (body (i + j * step))) ->
  Pixels.touches_only width height inside (Digits.iterate k i step body).
Proof.
  induction k as [|k IH]; intros i Hbody; cbn [Digits.iterate].
  - apply skip_touches.
  - apply (bind_touches width height inside (body i)).
    + replace i with (i + 0 * step) by lia. apply Hbody. lia.
    + apply IH. intros j Hj.
      replace (i + step + j * step) with (i + (j + 1) * step) by lia.
      apply Hbody. lia.
Qed.

(** The counter of [for_range lo hi] only takes values from [lo] to
    [hi - 1]. *)
Lemma for_range_touches width height inside lo hi body :
  (forall i, lo <= i < hi ->
             Pixels.touches_only width height inside (body i)) ->
  Pixels.touches_only width height inside (Digits.for_range lo hi body).
Proof.
  intros Hbody. unfold Digits.for_range, Digits.for_step.
  apply iterate_touches. intros j Hj. apply Hbody.
  replace ((hi - lo + 1 - 1) / 1) with (hi - lo) in Hj
    by (rewrite Z.div_1_r; lia).
  lia.
Qed.

(** Two pixels of a row-major texture share no byte. *)
Lemma index_apart width x y k x0 y0 j :
  0 <= x < width -> 0 <= x0 < width -> 0 <= k < 4 -> 0 <= j < 4 ->
  x <> x0 \/ y <> y0 ->
  Pixels.index width x y k <> (y0 * width + x0) * 4 + j.
Proof.
  unfold Pixels.index. intros Hx Hx0 Hk Hj Hne E.
  assert (Ep : y * width + x = y0 * width + x0) by lia.
  assert (Ey : y = y0) by nia.
  subst y0. assert (x = x0) by lia. lia.
Qed.

(** [setPixel] changes the pixel it is called on, if that is one of the
    texture, and no other. *)
Lemma setPixel_touches width height (inside : Z -> Z -> Prop) x0 y0 r g b :
  (0 <= x0 < width -> 0 <= y0 < height -> inside x0 y0) ->
  Pixels.touches_only width height inside
    (Digits.setPixel width height x0 y0 r g b).
Proof.
  intros Hin data data' E x y k Hx Hy Hk Hout. unfold Digits.setPixel in E.
  destruct ((x0 >=? 0) && (x0 <? width) && (y0 >=? 0) && (y0 <? height))
    eqn:C; [|now injection E as <-].
  apply andb_prop in C as [C Hy2]. apply andb_prop in C as [C Hy1].
  apply andb_prop in C as [Hx1 Hx2].
  rewrite Z.geb_leb in Hx1, Hy1.
  apply Z.leb_le in Hx1, Hy1. apply Z.ltb_lt in Hx2, Hy2.
  assert (Hne : x <> x0 \/ y <> y0).
  { destruct (Z.eq_dec x x0) as [->|]; [|now left].
    destruct (Z.eq_dec y y0) as [->|]; [|now right].
    exfalso. apply Hout, Hin; lia. }
  assert (Hpos : 0 <= Pixels.index width x y k)
    by (unfold Pixels.index; nia).
  destruct (Digits.store _ r data) as [d1|] eqn:E1; [|discriminate].
  cbn [Digits.bind] in E.
  destruct (Digits.store _ g d1) as [d2|] eqn:E2; [|discriminate].
  cbn [Digits.bind] in E.
  destruct (Digits.store _ b d2) as [d3|] eqn:E3; [|discriminate].
  cbn [Digits.bind] in E.
  rewrite (store_other _ _ _ _ _ E Hpos)
    by (apply index_apart; auto; lia).
  rewrite (store_other _ _ _ _ _ E3 Hpos)
    by (apply index_apart; auto; lia).
  rewrite (store_other _ _ _ _ _ E2 Hpos)
    by (apply index_apart; auto; lia).
  apply (store_other _ _ _ _ _ E1 Hpos).
  replace ((y0 * width + x0) * 4) with ((y0 * width + x0) * 4 + 0) by lia.
  apply index_apart; auto; lia.
Qed.

(** ** The text of the student-info texture *)

Section FontBounds.

Variables width height : Z.
Hypothesis width_nonneg : 0 <= width.
Hypothesis height_nonneg : 0 <= height.

Lemma font_drawChar_in_bounds c startX startY scale r g b :
  Digits.in_bounds (width * height * 4)
    (Font.drawChar width height c startX startY scale r g b).
Proof.
  unfold Font.drawChar. destruct (Font.code c >=? 128);
    [apply skip_in_bounds|].
  apply for_range_in_bounds; intros row.
  apply for_range_in_bounds; intros col.
  destruct (negb _); [|apply skip_in_bounds].
  apply for_range_in_bounds; intros sy.
  apply for_range_in_bounds; intros sx.
  now apply setPixel_in_bounds.
Qed.

Lemma drawString_in_bounds str : forall x startY scale r g b,
  Digits.in_bounds (width * height * 4)
    (Font.drawString width height str x startY scale r g b).
Proof.
  induction str as [|c str IH]; intros x startY scale r g b;
    cbn [Font.drawString]; [apply skip_in_bounds|].
  destruct (Ascii.eqb c Ascii.zero); [apply skip_in_bounds|].
  apply (bind_in_bounds _ (Font.drawChar width height c x startY scale r g b)).
  - apply font_drawChar_in_bounds.
  - apply IH.
Qed.

End FontBounds.

Lemma font_drawChar_touches width height c startX startY scale r g b :
  Pixels.touches_only width height (Font.cell startX startY scale)
    (Font.drawChar width height c startX startY scale r g b).
Proof.
  unfold Font.drawChar. destruct (Font.code c >=? 128);
    [apply skip_touches|].
  apply for_range_touches; intros row Hrow.
  apply for_range_touches; intros col Hcol.
  destruct (negb _); [|apply skip_touches].
  apply for_range_touches; intros sy Hsy.
  apply for_range_touches; intros sx Hsx.
  apply setPixel_touches. intros _ _. unfold Font.cell. nia.
Qed.

Lemma drawString_touches width height str : forall x startY scale r g b,
  Pixels.touches_only width height
    (Font.line_box x startY scale (Digits.strlen str))
    (Font.drawString width height str x startY scale r g b).
Proof.
  induction str as [|c str IH]; intros x startY scale r g b;
    cbn [Font.drawString Digits.strlen]; [apply skip_touches|].
  destruct (Ascii.eqb c Ascii.zero); [apply skip_touches|].
  pose proof (strlen_nonneg str) as Hlen.
  apply (bind_touches _ _ _
           (Font.drawChar width height c x startY scale r g b)).
  - apply (touches_weaken _ _ (Font.cell x startY scale));
      [|apply font_drawChar_touches].
    unfold Font.cell, Font.line_box, Font.advance. intros px py. nia.
  - apply (touches_weaken _ _
             (Font.line_box (x + Font.advance scale) startY scale
                (Digits.strlen str))); [|apply IH].
    unfold Font.line_box, Font.advance. intros px py. nia.
Qed.





(** ** The cells of the seven-segment digits *)

Ltac div_consts :=
  repeat match goal with
  | |- context [Z.pos ?a / Z.pos ?b] =>
      let e := eval vm_compute in (Z.pos a / Z.pos b) in
      change (Z.pos a / Z.pos b) with e
  end.

(** Where the character at position [i] of a digit string is drawn: its
    30 columns less a margin of three on either side, and rows 3 to 47. *)
Lemma drawSegment_touches width offsetX seg :
  Pixels.touches_only width Digits.charHeight
    (fun x y => offsetX + 3 <= x <= offsetX + 27 /\ 3 <= y <= 47)
    (Digits.drawSegment width Digits.charHeight offsetX seg).
Proof.
  unfold Digits.drawSegment.
  destruct seg as [|[[p|p|]|[p|p|]|]|p];
    try apply skip_touches;
    try destruct p as [p|p|]; try apply skip_touches;
    (apply for_range_touches; intros t Ht;
     apply for_range_touches; intros i Hi;
     apply setPixel_touches; intros _ _;
     unfold Digits.charWidth, Digits.charHeight in *; cbn in Hi;
     div_consts; lia).
Qed.

Lemma drawColon_touches width offsetX :
  Pixels.touches_only width Digits.charHeight
    (fun x y => offsetX + 3 <= x <= offsetX + 27 /\ 3 <= y <= 47)
    (Digits.drawColon width Digits.charHeight offsetX).
Proof.
  unfold Digits.drawColon.
  apply for_range_touches; intros dy Hdy.
  apply for_range_touches; intros dx Hdx.
  cbn in Hdy, Hdx.
  apply (bind_touches _ _ _ (Digits.px width Digits.charHeight _ _));
    apply setPixel_touches; intros _ _;
    unfold Digits.charWidth, Digits.charHeight;
    change (50 * 3 / 4) with 37; change (50 * 1 / 4) with 12;
    div_consts; lia.
Qed.

Lemma digit_drawChar_touches width digitStr i :
  Pixels.touches_only width Digits.charHeight
    (fun x y => i * Digits.charWidth + 3 <= x <= i * Digits.charWidth + 27
                /\ 3 <= y <= 47)
    (Digits.drawChar width Digits.charHeight digitStr i).
Proof.
  unfold Digits.drawChar.
  destruct (Digits.char_at digitStr i =? 58); [apply drawColon_touches|].
  destruct ((_ >=? 48) && (_ <=? 57)); [|apply skip_touches].
  apply for_range_touches; intros s _.
  destruct (Digits.segment_on _ s);
    [apply drawSegment_touches | apply skip_touches].
Qed.

(** ** What the clearing loops leave *)

Lemma upd_app (pre : Digits.buffer) : forall j v l,
  Digits.upd (List.length pre + j) v (pre ++ l) = pre ++ Digits.upd j v l.
Proof.
  induction pre as [|p pre IH]; intros j v l; cbn; [reflexivity|].
  now rewrite IH.
Qed.

Lemma store_app pre l j v :
  (j < List.length l)%nat ->
  Digits.store (Z.of_nat (List.length pre) + Z.of_nat j) v (pre ++ l)
  = Some (pre ++ Digits.upd j v l).
Proof.
  intros Hj. unfold Digits.store. rewrite length_app.
  replace (0 <=? _) with true by (symmetry; apply Z.leb_le; lia).
  replace (_ <? _) with true by (symmetry; apply Z.ltb_lt; lia).
  cbn [andb]. rewrite <- Nat2Z.inj_add, Nat2Z.id. now rewrite upd_app.
Qed.

(** One pass of a clearing loop writes the four bytes of one pixel. *)
Lemma clear_step a b c d pre r0 r1 r2 r3 rest :
  Digits.bind (Digits.bind (Digits.bind
    (Digits.store (Z.of_nat (List.length pre)) a
       (pre ++ r0 :: r1 :: r2 :: r3 :: rest))
    (Digits.store (Z.of_nat (List.length pre) + 1) b))
    (Digits.store (Z.of_nat (List.length pre) + 2) c))
    (Digits.store (Z.of_nat (List.length pre) + 3) d)
  = Some (pre ++ a :: b :: c :: d :: rest).
Proof.
  replace (Z.of_nat (List.length pre))
    with (Z.of_nat (List.length pre) + Z.of_nat 0) at 1 by lia.
  rewrite store_app by (cbn; lia). cbn [Digits.bind Digits.upd].
  change 1 with (Z.of_nat 1) at 1.
  rewrite store_app by (cbn; lia). cbn [Digits.bind Digits.upd].
  change 2 with (Z.of_nat 2) at 1.
  rewrite store_app by (cbn; lia). cbn [Digits.bind Digits.upd].
  change 3 with (Z.of_nat 3) at 1.
  rewrite store_app by (cbn; lia). reflexivity.
Qed.

Lemma clear_result a b c d k : forall pre rest,
  List.length rest = (4 * k)%nat ->
  Digits.iterate k (Z.of_nat (List.length pre)) 4 (fun i data =>
    Digits.bind (Digits.bind (Digits.bind (Digits.store i a data)
      (Digits.store (i + 1) b)) (Digits.store (i + 2) c))
      (Digits.store (i + 3) d)) (pre ++ rest)
  = Some (pre ++ List.concat (repeat [a; b; c; d] k)).
Proof.
  induction k as [|k IH]; intros pre rest Hlen.
  - destruct rest; [reflexivity | discriminate].
  - destruct rest as [|r0 [|r1 [|r2 [|r3 rest]]]]; try (cbn in Hlen; lia).
    cbn [Digits.iterate]. rewrite clear_step. cbn [Digits.bind].
    replace (pre ++ a :: b :: c :: d :: rest)
      with ((pre ++ [a; b; c; d]) ++ rest)
      by (rewrite <- app_assoc; reflexivity).
    replace (Z.of_nat (List.length pre) + 4)
      with (Z.of_nat (List.length (pre ++ [a; b; c; d])))
      by (rewrite length_app; cbn [List.length]; lia).
    rewrite IH by (cbn [List.length] in Hlen; lia).
    cbn [repeat List.concat]. rewrite <- app_assoc. reflexivity.
Qed.

(** Whatever the allocated bytes held, after the clearing loop every pixel
    is ([a], [b], [c], [d]). *)
Lemma clear_fill a b c d pixels fill :
  0 <= pixels ->
  Digits.for_step 0 (pixels * 4) 4 (fun i data =>
    Digits.bind (Digits.bind (Digits.bind (Digits.store i a data)
      (Digits.store (i + 1) b)) (Digits.store (i + 2) c))
      (Digits.store (i + 3) d)) (repeat fill (Z.to_nat (pixels * 4)))
  = Some (List.concat (repeat [a; b; c; d] (Z.to_nat pixels))).
Proof.
  intros Hp. unfold Digits.for_step.
  replace ((pixels * 4 - 0 + 4 - 1) / 4) with pixels
    by (apply Z.div_unique with 3; lia).
  assert (Hlen : List.length (repeat fill (Z.to_nat (pixels * 4)))
                 = (4 * Z.to_nat pixels)%nat)
    by (rewrite repeat_length; lia).
  exact (clear_result a b c d (Z.to_nat pixels) [] _ Hlen).
Qed.

Lemma background_nth (a b c d : Z) n : forall m k,
  (m < n)%nat -> (k < 4)%nat ->
  nth (4 * m + k) (List.concat (repeat [a; b; c; d] n)) 0
  = nth k [a; b; c; d] 0.
Proof.
  induction n as [|n IH]; intros m k Hm Hk; [lia|].
  cbn [repeat List.concat app]. destruct m as [|m].
  - destruct k as [|[|[|[|k]]]]; try reflexivity. lia.
  - replace (4 * S m + k)%nat with (S (S (S (S (4 * m + k))))) by lia.
    cbn [nth]. apply IH; lia.
Qed.

Lemma background_byte (a b c d : Z) width height x y k :
  0 <= x < width -> 0 <= y < height -> 0 <= k < 4 ->
  Pixels.byte_at (List.concat (repeat [a; b; c; d] (Z.to_nat (width * height))))
    (Pixels.index width x y k)
  = nth (Z.to_nat k) [a; b; c; d] 0.
Proof.
  intros Hx Hy Hk. unfold Pixels.byte_at, Pixels.index.
  replace (Z.to_nat ((y * width + x) * 4 + k))
    with (4 * Z.to_nat (y * width + x) + Z.to_nat k)%nat by nia.
  apply background_nth; nia.
Qed.

(** X24.  A character of a digit string changes no pixel outside its own
    cell: for a texture whose buffer size fits an [int] and a position [i]
    whose 30 columns lie in the texture, [drawChar] at position [i] of any
    string stores inside the buffer only and leaves every pixel outside
    columns 30*i + 3 to 30*i + 27 and rows 3 to 47 as it was, whether it
    draws a digit, the colon or nothing. *)
Theorem digit_stays_in_its_cell
    (width : Z) (digitStr : string) (i : Z) (data : Digits.buffer) :
  0 <= i -> (i + 1) * Digits.charWidth <= width ->
  width * Digits.charHeight * 4 <= Digits.INT_MAX ->
  Z.of_nat (List.length data) = width * Digits.charHeight * 4 ->
  exists data',
    Digits32.drawChar width digitStr i data = Some data' /\
    List.length data' = List.length data /\
    forall x y k,
      0 <= x < width -> 0 <= y < Digits.charHeight -> 0 <= k < 4 ->
      ~ (i * Digits.charWidth + 3 <= x <= i * Digits.charWidth + 27 /\
         3 <= y <= 47) ->
      Pixels.byte_at data' (Pixels.index width x y k)
      = Pixels.byte_at data (Pixels.index width x y k).
Proof.
  intros Hi Hcell Hsize Hn.
  assert (Hw : 0 <= width) by (unfold Digits.charWidth in Hcell; lia).
  assert (Hh : 0 <= Digits.charHeight) by (unfold Digits.charHeight; lia).
  rewrite drawChar32_exact;
    [|exact Hw | exact Hsize
     |unfold Digits.charWidth, Digits.charHeight, Digits.INT_MAX in *; lia].
  destruct (drawChar_in_bounds width Digits.charHeight Hw Hh digitStr i
              data Hn) as (data' & E & Hn').
  exists data'. split; [exact E|]. unfold Digits.sized in Hn'.
  split; [lia|]. intros x y k Hx Hy Hk Hout.
  exact (digit_drawChar_touches width digitStr i data data' E x y k
           Hx Hy Hk Hout).
Qed.

Lemma digit_stays_in_its_cell_witness :
  exists data',
    Digits32.drawChar 60 "7:" 1 (repeat 9 (Z.to_nat 12000)) = Some data' /\
    List.length data' = List.length (repeat 9 (Z.to_nat 12000)) /\
    forall x y k,
      0 <= x < 60 -> 0 <= y < Digits.charHeight -> 0 <= k < 4 ->
      ~ (1 * Digits.charWidth + 3 <= x <= 1 * Digits.charWidth + 27 /\
         3 <= y <= 47) ->
      Pixels.byte_at data' (Pixels.index 60 x y k)
      = Pixels.byte_at (repeat 9 (Z.to_nat 12000)) (Pixels.index 60 x y k).
Proof.
  apply digit_stays_in_its_cell;
    [lia | vm_compute; discriminate | vm_compute; discriminate |].
  rewrite repeat_length, Z2Nat.id by lia. reflexivity.
Defined.

(** The digit texture after the clearing loop. *)
Lemma createDigitTexture_draws fill digitStr :
  Digits.createDigitTexture fill digitStr
  = Digits.for_range 0 (Digits.strlen digitStr)
      (Digits.drawChar (Digits.charWidth * Digits.strlen digitStr)
         Digits.charHeight digitStr)
      (List.concat (repeat [0; 0; 0; 0]
         (Z.to_nat (Digits.charWidth * Digits.strlen digitStr
                    * Digits.charHeight)))).
Proof.
  unfold Digits.createDigitTexture. cbv zeta.
  pose proof (strlen_nonneg digitStr) as Hlen.
  rewrite (clear_fill 0 0 0 0
             (Digits.charWidth * Digits.strlen digitStr * Digits.charHeight))
    by (unfold Digits.charWidth, Digits.charHeight; lia).
  reflexivity.
Qed.

(** X25.  For every string of at most 357913 characters, for which the
    buffer size fits an [int], the digit texture does not depend on what
    the allocated memory held, and around every character it is
    transparent: each pixel in the first three or the last two columns of
    a 30-column cell, or in the first three or the last two rows, has all
    four bytes zero. *)
Theorem digit_texture_has_clear_margins (digitStr : string) :
  Digits.strlen digitStr <= 357913 ->
  (forall fill fill',
     Digits32.createDigitTexture fill digitStr
     = Digits32.createDigitTexture fill' digitStr) /\
  (forall fill, exists data,
     Digits32.createDigitTexture fill digitStr = Some data /\
     forall x y k,
       0 <= x < Digits.charWidth * Digits.strlen digitStr ->
       0 <= y < Digits.charHeight -> 0 <= k < 4 ->
       x mod Digits.charWidth < 3 \/ 27 < x mod Digits.charWidth \/
       y < 3 \/ 47 < y ->
       Pixels.byte_at data
         (Pixels.index (Digits.charWidth * Digits.strlen digitStr) x y k)
       = 0).
Proof.
  intros Hlen. split.
  - intros fill fill'. rewrite !createDigitTexture32_exact by exact Hlen.
    now rewrite !createDigitTexture_draws.
  - intros fill. rewrite createDigitTexture32_exact by exact Hlen.
    destruct (createDigitTexture_in_bounds fill digitStr) as (data & E & _).
    exists data. split; [exact E|]. intros x y k Hx Hy Hk Hmargin.
    rewrite createDigitTexture_draws in E.
    set (width := Digits.charWidth * Digits.strlen digitStr) in *.
    assert (Ht : Pixels.touches_only width Digits.charHeight
                   (fun x y => exists i,
                      i * Digits.charWidth + 3 <= x
                        <= i * Digits.charWidth + 27 /\ 3 <= y <= 47)
                   (Digits.for_range 0 (Digits.strlen digitStr)
                      (Digits.drawChar width Digits.charHeight digitStr))).
    { apply for_range_touches. intros i _.
      eapply touches_weaken; [|apply digit_drawChar_touches].
      intros px py Hin. exists i. exact Hin. }
    rewrite (Ht _ _ E x y k Hx Hy Hk).
    + rewrite background_byte by assumption.
      assert (Ek : k = 0 \/ k = 1 \/ k = 2 \/ k = 3) by lia.
      destruct Ek as [->|[->|[->| ->]]]; reflexivity.
    + intros (i & Hcol & Hrow). unfold Digits.charWidth in *.
      pose proof (Z.div_mod x 30 ltac:(lia)) as Hdiv.
      pose proof (Z.mod_pos_bound x 30 ltac:(lia)) as Hmod.
      lia.
Qed.

Lemma digit_texture_has_clear_margins_witness :
  Digits32.createDigitTexture 205 "12:34:56"
  = Digits32.createDigitTexture 0 "12:34:56" /\
  exists data,
    Digits32.createDigitTexture 205 "12:34:56" = Some data /\
    Pixels.byte_at data
      (Pixels.index (Digits.charWidth * Digits.strlen "12:34:56") 58 25 3)
    = 0.
Proof.
  assert (Hlen : Digits.strlen "12:34:56" <= 357913)
    by (vm_compute; discriminate).
  pose proof (digit_texture_has_clear_margins "12:34:56" Hlen)
    as [Hfill Hclear].
  split; [apply Hfill|].
  destruct (Hclear 205) as (data & E & Hzero).
  exists data. split; [exact E|].
  apply Hzero; [vm_compute; intuition discriminate
              | vm_compute; intuition discriminate | lia |].
  right. left. reflexivity.
Defined.

(** The student-info texture after the clearing loop. *)
Lemma createStudentInfoTexture_draws fill :
  Font.createStudentInfoTexture fill
  = Digits.bind
      (Font.drawString 256 64 "Nikola Bandulaja" 10 50 2 255 255 255
         (List.concat (repeat [30; 30; 50; 180] (Z.to_nat (256 * 64)))))
      (Font.drawString 256 64 "SV74/2022" 55 22 2 200 200 220).
Proof.
  unfold Font.createStudentInfoTexture. cbv zeta.
  rewrite (clear_fill 30 30 50 180 (256 * 64)) by lia.
  reflexivity.
Qed.

(** X26.  The student-info texture does not depend on what the allocated
    memory held; it has 256 * 64 * 4 bytes; both lines of text lie wholly
    inside it, so that no glyph is clipped; and every pixel outside the
    boxes of the two lines (16 and 9 characters of 12 columns and 14 rows)
    is the background colour (30, 30, 50, 180). *)
Theorem student_info_texture_background :
  (forall fill fill',
     Font.createStudentInfoTexture fill = Font.createStudentInfoTexture fill') /\
  (forall x y,
     Font.line_box 10 50 2 (Digits.strlen "Nikola Bandulaja") x y \/
     Font.line_box 55 22 2 (Digits.strlen "SV74/2022") x y ->
     0 <= x < 256 /\ 0 <= y < 64) /\
  (forall fill, exists data,
     Font.createStudentInfoTexture fill = Some data /\
     Z.of_nat (List.length data) = 256 * 64 * 4 /\
     forall x y k,
       0 <= x < 256 -> 0 <= y < 64 -> 0 <= k < 4 ->
       ~ Font.line_box 10 50 2 (Digits.strlen "Nikola Bandulaja") x y ->
       ~ Font.line_box 55 22 2 (Digits.strlen "SV74/2022") x y ->
       Pixels.byte_at data (Pixels.index 256 x y k)
       = nth (Z.to_nat k) [30; 30; 50; 180] 0).
Proof.
  split; [|split].
  - intros fill fill'. now rewrite !createStudentInfoTexture_draws.
  - intros x y. unfold Font.line_box, Font.advance.
    change (Digits.strlen "Nikola Bandulaja") with 16.
    change (Digits.strlen "SV74/2022") with 9. lia.
  - intros fill. rewrite createStudentInfoTexture_draws.
    set (bg := List.concat _).
    assert (Hbg : Digits.sized (256 * 64 * 4) bg).
    { subst bg. unfold Digits.sized.
      assert (L : forall n, List.length (List.concat (repeat [30; 30; 50; 180] n))
                            = (4 * n)%nat).
      { induction n as [|n IH]; cbn [repeat List.concat List.length app];
          [reflexivity | rewrite IH; lia]. }
      rewrite L. lia. }
    destruct (bind_in_bounds (256 * 64 * 4) _ _
                (drawString_in_bounds 256 64 ltac:(lia) ltac:(lia)
                   "Nikola Bandulaja" 10 50 2 255 255 255)
                (drawString_in_bounds 256 64 ltac:(lia) ltac:(lia)
                   "SV74/2022" 55 22 2 200 200 220) bg Hbg)
      as (data & E & Hn).
    exists data. split; [exact E|]. split; [exact Hn|].
    intros x y k Hx Hy Hk Hout1 Hout2.
    assert (Ht : Pixels.touches_only 256 64
                   (fun x y =>
                      Font.line_box 10 50 2
                        (Digits.strlen "Nikola Bandulaja") x y \/
                      Font.line_box 55 22 2 (Digits.strlen "SV74/2022") x y)
                   (fun data =>
                      Digits.bind
                        (Font.drawString 256 64 "Nikola Bandulaja" 10 50 2
                           255 255 255 data)
                        (Font.drawString 256 64 "SV74/2022" 55 22 2
                           200 200 220))).
    { apply bind_touches.
      - eapply touches_weaken; [|apply drawString_touches].
        intros px py Hin. left. exact Hin.
      - eapply touches_weaken; [|apply drawString_touches].
        intros px py Hin. right. exact Hin. }
    rewrite (Ht bg data E x y k Hx Hy Hk) by tauto.
    subst bg. now apply background_byte.
Qed.

(** ** The arrow, heart, ground, road and building textures *)

(** The arrow texture after the clearing loop. *)
Lemma createArrowTexture_draws fill pointRight :
  exists draw,
    Textures.createArrowTexture fill pointRight
    = draw (List.concat (repeat [0; 0; 0; 0] (Z.to_nat (64 * 64)))) /\
    Digits.in_bounds (64 * 64 * 4) draw /\
    Pixels.touches_only 64 64 (fun x y => 15 <= x <= 49 /\ 15 <= y <= 49) draw.
Proof.
  unfold Textures.createArrowTexture. cbv zeta.
  rewrite (clear_fill 0 0 0 0 (64 * 64)) by lia. cbn [Digits.bind].
  eexists. split; [reflexivity|]. split.
  - apply for_range_in_bounds; intros thickness.
    apply (bind_in_bounds _ (Digits.for_range 15 50 _)).
    + apply for_range_in_bounds; intros x. apply setPixel_in_bounds; lia.
    + apply for_range_in_bounds; intros i.
      destruct pointRight;
        apply (bind_in_bounds _ (Digits.setPixel 64 64 _ _ 255 255 255));
        apply setPixel_in_bounds; lia.
  - change (64 / 2) with 32.
    apply for_range_touches; intros thickness Hth.
    apply (bind_touches _ _ _ (Digits.for_range 15 50 _)).
    + apply for_range_touches; intros x Hx.
      apply setPixel_touches. intros _ _. lia.
    + apply for_range_touches; intros i Hi.
      destruct pointRight;
        apply (bind_touches _ _ _ (Digits.setPixel 64 64 _ _ 255 255 255));
        apply setPixel_touches; intros _ _; lia.
Qed.

(** X27.  Either arrow is drawn wholly inside the square of columns and
    rows 15 to 49 of its 64 x 64 texture, so the bounds check of its
    [setPixel] never fails: the texture has 64 * 64 * 4 bytes, does not
    depend on what the allocated memory held, and every pixel outside the
    square is transparent. *)
Theorem arrow_fits_its_square (pointRight : bool) :
  (forall fill fill',
     Textures.createArrowTexture fill pointRight
     = Textures.createArrowTexture fill' pointRight) /\
  (forall fill, exists data,
     Textures.createArrowTexture fill pointRight = Some data /\
     Z.of_nat (List.length data) = 64 * 64 * 4 /\
     forall x y k,
       0 <= x < 64 -> 0 <= y < 64 -> 0 <= k < 4 ->
       ~ (15 <= x <= 49 /\ 15 <= y <= 49) ->
       Pixels.byte_at data (Pixels.index 64 x y k) = 0).
Proof.
  split.
  - intros fill fill'. unfold Textures.createArrowTexture. cbv zeta.
    now rewrite !(clear_fill 0 0 0 0 (64 * 64)) by lia.
  - intros fill.
    destruct (createArrowTexture_draws fill pointRight)
      as (draw & -> & Hin & Ht).
    set (bg := List.concat _).
    assert (Hbg : Digits.sized (64 * 64 * 4) bg).
    { destruct (clear_in_bounds (64 * 64) ltac:(lia) _
                  (repeat_sized 7 (64 * 64 * 4) ltac:(lia)))
        as (d & E & Hd).
      rewrite (clear_fill 0 0 0 0 (64 * 64)) in E by lia.
      injection E as <-. exact Hd. }
    destruct (Hin bg Hbg) as (data & E & Hn).
    exists data. split; [exact E|]. split; [exact Hn|].
    intros x y k Hx Hy Hk Hout.
    rewrite (Ht bg data E x y k Hx Hy Hk Hout).
    subst bg. rewrite background_byte by assumption.
    assert (Ek : k = 0 \/ k = 1 \/ k = 2 \/ k = 3) by lia.
    destruct Ek as [->|[->|[->| ->]]]; reflexivity.
Qed.

Lemma arrow_fits_its_square_witness :
  exists data,
    Textures.createArrowTexture 205 true = Some data /\
    Pixels.byte_at data (Pixels.index 64 50 32 3) = 0.
Proof.
  destruct (arrow_fits_its_square true) as [_ H].
  destruct (H 205) as (data & E & _ & Hout).
  exists data. split; [exact E|].
  apply Hout; lia.
Defined.

(** X28.  The texture generators that store without a bounds check keep
    every store inside the allocated buffer: the heart texture whichever
    pixels pass its test, the ground and road textures whatever [rand()]
    returns, and the building texture, whose windows end at column 115
    and row 117 of 128. *)
Theorem unchecked_texture_stores_stay_in_bounds :
  (forall negative fill, exists data,
     Textures.createHeartTexture negative fill = Some data /\
     Z.of_nat (List.length data) = 32 * 32 * 4) /\
  (forall rand fill, exists data,
     Textures.createGroundTexture rand fill = Some data /\
     Z.of_nat (List.length data) = 256 * 256 * 3) /\
  (forall rand fill, exists data,
     Textures.createRoadTexture rand fill = Some data /\
     Z.of_nat (List.length data) = 256 * 256 * 3) /\
  (forall fill, exists data,
     Textures.createBuildingTexture fill = Some data /\
     Z.of_nat (List.length data) = 128 * 128 * 3).
Proof.
  split; [|split; [|split]].
  - intros negative fill. unfold Textures.createHeartTexture. cbv zeta.
    apply (bind_in_bounds (32 * 32 * 4)
             (Digits.for_step 0 (32 * 32 * 4) 4 _)
             (Digits.for_range 0 32 _)).
    + apply (clear_in_bounds (32 * 32)). lia.
    + apply for_range_in_bounds_within; intros y Hy.
      apply for_range_in_bounds_within; intros x Hx.
      destruct (negative x y); [|apply skip_in_bounds].
      repeat apply bind_in_bounds; apply store_in_bounds; lia.
    + apply repeat_sized. lia.
  - intros rand fill. unfold Textures.createGroundTexture. cbv zeta.
    apply (for_range_in_bounds_within (256 * 256 * 3) 0 256);
      [|apply repeat_sized; lia].
    intros y Hy. apply for_range_in_bounds_within; intros x Hx.
    destruct (Textures.groundTexel _ _) as [[r g] b].
    repeat apply bind_in_bounds; apply store_in_bounds; lia.
  - intros rand fill. unfold Textures.createRoadTexture. cbv zeta.
    change (256 / 2 - 4) with 124. change (256 / 2 + 4) with 132.
    apply (bind_in_bounds (256 * 256 * 3)
             (Digits.for_range 0 256 _) (Digits.for_range 0 256 _)).
    + apply for_range_in_bounds_within; intros y Hy.
      apply for_range_in_bounds_within; intros x Hx.
      repeat apply bind_in_bounds; apply store_in_bounds; lia.
    + apply for_range_in_bounds_within; intros y Hy.
      apply for_range_in_bounds_within; intros x Hx.
      destruct (_ =? 0); [|apply skip_in_bounds].
      repeat apply bind_in_bounds; apply store_in_bounds; lia.
    + apply repeat_sized. lia.
  - intros fill. unfold Textures.createBuildingTexture. cbv zeta.
    apply (bind_in_bounds (128 * 128 * 3)
             (Digits.for_range 0 128 _) (Digits.for_range 0 4 _)).
    + apply for_range_in_bounds_within; intros y Hy.
      apply for_range_in_bounds_within; intros x Hx.
      repeat apply bind_in_bounds; apply store_in_bounds; lia.
    + apply for_range_in_bounds_within; intros wy Hwy.
      apply for_range_in_bounds_within; intros wx Hwx.
      apply for_range_in_bounds_within; intros dy Hdy.
      apply for_range_in_bounds_within; intros dx Hdx.
      destruct (_ <? _); [|apply skip_in_bounds].
      repeat apply bind_in_bounds; apply store_in_bounds; lia.
    + apply repeat_sized. lia.
Qed.

(** X29.  The random texel colours never wrap around a byte: for the
    values [rand()] can return, a ground texel has red from 60 to 89, green
    20 to 39 above red and blue 20 below red, and a road texel is a grey
    from 50 to 64. *)
Theorem random_texels_never_wrap (r1 r2 : Z) :
  Textures.rand_value r1 -> Textures.rand_value r2 ->
  (exists r g b,
     Textures.groundTexel r1 r2 = (r, g, b) /\
     60 <= r <= 89 /\ r + 20 <= g <= r + 39 /\ b = r - 20 /\
     r = 60 + r1 mod 30 /\ g = r + 20 + r2 mod 20) /\
  Textures.roadTexel r1 = 50 + r1 mod 15 /\
  50 <= Textures.roadTexel r1 <= 64.
Proof.
  unfold Textures.rand_value. intros H1 H2.
  assert (E30 : Z.rem r1 30 = r1 mod 30) by (apply Z.rem_mod_nonneg; lia).
  assert (E20 : Z.rem r2 20 = r2 mod 20) by (apply Z.rem_mod_nonneg; lia).
  assert (E15 : Z.rem r1 15 = r1 mod 15) by (apply Z.rem_mod_nonneg; lia).
  pose proof (Z.mod_pos_bound r1 30 ltac:(lia)) as B30.
  pose proof (Z.mod_pos_bound r2 20 ltac:(lia)) as B20.
  pose proof (Z.mod_pos_bound r1 15 ltac:(lia)) as B15.
  unfold Textures.groundTexel, Textures.roadTexel, Textures.uchar. cbv zeta.
  rewrite E30, E20, E15.
  rewrite (Z.mod_small (60 + r1 mod 30) 256) by lia.
  rewrite (Z.mod_small (60 + r1 mod 30 + 20 + r2 mod 20) 256) by lia.
  rewrite (Z.mod_small (60 + r1 mod 30 - 20) 256) by lia.
  rewrite (Z.mod_small (50 + r1 mod 15) 256) by lia.
  split; [|split; lia].
  eexists _, _, _. split; [reflexivity|]. lia.
Qed.

Lemma random_texels_never_wrap_witness :
  (exists r g b,
     Textures.groundTexel 41 18467 = (r, g, b) /\
     60 <= r <= 89 /\ r + 20 <= g <= r + 39 /\ b = r - 20 /\
     r = 60 + 41 mod 30 /\ g = r + 20 + 18467 mod 20) /\
  Textures.roadTexel 41 = 50 + 41 mod 15 /\
  50 <= Textures.roadTexel 41 <= 64.
Proof.
  apply random_texels_never_wrap; unfold Textures.rand_value; lia.
Defined.

Lemma student_info_texture_background_witness :
  exists data,
    Font.createStudentInfoTexture 205 = Some data /\
    Pixels.byte_at data (Pixels.index 256 5 50 3) = 180.
Proof.
  destruct student_info_texture_background as (_ & _ & H).
  destruct (H 205) as (data & E & _ & Hbg).
  exists data. split; [exact E|].
  apply (Hbg 5 50 3); unfold Font.line_box; lia.
Defined.

